(** * DomParser: a shallow embedding of tinymce's schema-driven HTML parser

    The development follows [core/api/html/DomParser.ts]: the sanitizer
    hooks ([configurePurify]), the tree importer ([transferChildren]), the
    two-pass normalizer ([simplifyDom]), the validation walk ([walker],
    [filterNode]) and [parse] with its root-block wrapping and filter
    dispatch.  AstNode objects live in an explicit store, because the
    parser mutates them in place and keeps references to them in the walk
    result. *)

From Stdlib Require Import Ascii String DecimalString DecimalNat.
From stdpp Require Import base option list strings.

#[local] Set Warnings "-clear-no-such-hyp,-register-all".

Local Open Scope string_scope.
Local Open Scope list_scope.
Local Open Scope nat_scope.

(** ** JavaScript string primitives used by the parser *)

Module Js.

(** [s.toLowerCase()], on the ASCII letters (tag names are ASCII). *)
Definition lower_ascii (c : ascii) : ascii :=
let n := nat_of_ascii c in
if (65 <=? n) && (n <=? 90) then ascii_of_nat (n + 32) else c.

Fixpoint toLowerCase (s : string) : string :=
match s with
| EmptyString => EmptyString
| String c r => String (lower_ascii c) (toLowerCase r)
end.

(** The character class [[ \t\r\n]] of the three white space regexps. *)
Definition isWhiteSpaceChar (c : ascii) : bool :=
let n := nat_of_ascii c in
(n =? 32) || (n =? 9) || (n =? 13) || (n =? 10).

(** [s.replace(/^[ \t\r\n]+/, '')] *)
Fixpoint trimStart (s : string) : string :=
match s with
| EmptyString => EmptyString
| String c r => if isWhiteSpaceChar c then trimStart r else s
end.

(** [s.replace(/[ \t\r\n]+/g, ' ')]: a maximal run of white space starts
  where a white space character follows the start of the text or a
  character that is not white space; the run is replaced by one space. *)
Fixpoint collapseFrom (inRun : bool) (s : string) : string :=
match s with
| EmptyString => EmptyString
| String c r =>
    if isWhiteSpaceChar c
    then (if inRun then collapseFrom true r else String " " (collapseFrom true r))
    else String c (collapseFrom false r)
end.

Definition collapseWhiteSpace (s : string) : string := collapseFrom false s.

(** [s.replace(/[ \t\r\n]+$/, '')] *)
Fixpoint trimEnd (s : string) : string :=
match s with
| EmptyString => EmptyString
| String c r =>
    match trimEnd r with
    | EmptyString => if isWhiteSpaceChar c then EmptyString else String c EmptyString
    | r' => String c r'
    end
end.

(** A string is truthy when it is not empty. *)
Definition truthy (s : string) : bool :=
match s with EmptyString => false | _ => true end.

(** The template literal [`${n}`] for a counter. *)
Definition numberToString (n : nat) : string :=
NilEmpty.string_of_uint (Nat.to_uint n).

End Js.

(** ** AstNode *)

Abbreviation NodeId := nat.

Module AstNode.

(** Modelled from the spec: the class AstNode ([core/api/html/Node.ts]) is
  not part of the sources at hand.  The data model gives a node a type
  tag, a name, a value, an ordered attribute mapping, the [raw] flag and
  the links parent, firstChild, lastChild, prev and next, the sibling
  links always being consistent with the parent's child list.  A node is
  kept here with its parent link and the ordered list of its children;
  firstChild, lastChild, prev and next are read off that list. *)
Record t := mk {
name : string;
type : nat;
value : string;
attributes : option (list (string * string));
raw : bool;
parent : option NodeId;
children : list NodeId
}.

Abbreviation Store := (list t).

Definition setName (v : string) (n : t) : t :=
mk v (type n) (value n) (attributes n) (raw n) (parent n) (children n).
Definition setValue (v : string) (n : t) : t :=
mk (name n) (type n) v (attributes n) (raw n) (parent n) (children n).
Definition setAttributes (v : option (list (string * string))) (n : t) : t :=
mk (name n) (type n) (value n) v (raw n) (parent n) (children n).
Definition setRaw (v : bool) (n : t) : t :=
mk (name n) (type n) (value n) (attributes n) v (parent n) (children n).
Definition setParent (v : option NodeId) (n : t) : t :=
mk (name n) (type n) (value n) (attributes n) (raw n) v (children n).
Definition setChildren (v : list NodeId) (n : t) : t :=
mk (name n) (type n) (value n) (attributes n) (raw n) (parent n) v.

(** Field reads through the store; a reference that is not in the store
  reads as a node without links. *)
Definition nameOf (s : Store) (n : NodeId) : string :=
default "" (name <$> s !! n).
Definition typeOf (s : Store) (n : NodeId) : nat :=
default 0 (type <$> s !! n).
Definition valueOf (s : Store) (n : NodeId) : string :=
default "" (value <$> s !! n).
Definition attributesOf (s : Store) (n : NodeId) : option (list (string * string)) :=
s !! n ≫= attributes.
Definition rawOf (s : Store) (n : NodeId) : bool :=
default false (raw <$> s !! n).
Definition parentOf (s : Store) (n : NodeId) : option NodeId :=
s !! n ≫= parent.
Definition childrenOf (s : Store) (n : NodeId) : list NodeId :=
default [] (children <$> s !! n).

Definition update (f : t → t) (n : NodeId) (s : Store) : Store := alter f n s.

(** [new AstNode(name, type)]: only elements are given an attribute list. *)
Definition create (nm : string) (ty : nat) (s : Store) : NodeId * Store :=
(length s,
 s ++ [mk nm ty "" (if ty =? 1 then Some [] else None) false None []]).

(** The element that follows (precedes) [x] in a child list. *)
Fixpoint after (x : NodeId) (l : list NodeId) : option NodeId :=
match l with
| [] => None
| y :: r => if y =? x then head r else after x r
end.

Fixpoint before (x : NodeId) (l : list NodeId) : option NodeId :=
match l with
| [] => None
| y :: r =>
    match r with
    | z :: _ => if z =? x then Some y else before x r
    | [] => None
    end
end.

Definition firstChild (s : Store) (n : NodeId) : option NodeId :=
head (childrenOf s n).
Definition lastChild (s : Store) (n : NodeId) : option NodeId :=
last (childrenOf s n).
Definition next (s : Store) (n : NodeId) : option NodeId :=
p ← parentOf s n; after n (childrenOf s p).
Definition prev (s : Store) (n : NodeId) : option NodeId :=
p ← parentOf s n; before n (childrenOf s p).

(** [node.remove()]: the node is detached and its siblings are relinked;
  it keeps its own children.  A node without a parent is left alone. *)
Definition remove (n : NodeId) (s : Store) : Store :=
match parentOf s n with
| None => s
| Some p =>
    update (setParent None) n
      (update (λ x, setChildren (filter (λ c, c ≠ n) (children x)) x) p s)
end.

(** [node.unwrap()]: the node is replaced in place by its children, in
  their order, and ends up detached and childless.  The walks only
  unwrap nodes that have a parent; a node without one is left alone. *)
Definition splice (n : NodeId) (cs l : list NodeId) : list NodeId :=
flat_map (λ x, if x =? n then cs else [x]) l.

Definition unwrap (n : NodeId) (s : Store) : Store :=
match parentOf s n with
| None => s
| Some p =>
    let cs := childrenOf s n in
    let s1 := update (λ x, setChildren (splice n cs (children x)) x) p s in
    let s2 := foldr (λ c acc, update (setParent (Some p)) c acc) s1 cs in
    update (λ x, setParent None (setChildren [] x)) n s2
end.

(** [parent.append(node)]: the node is removed from where it was and
  becomes the last child. *)
Definition append (p n : NodeId) (s : Store) : Store :=
let s1 := remove n s in
update (setParent (Some p)) n
  (update (λ x, setChildren (children x ++ [n]) x) p s1).

Fixpoint insertAfter (ref n : NodeId) (l : list NodeId) : list NodeId :=
match l with
| [] => []
| y :: r => if y =? ref then y :: n :: r else y :: insertAfter ref n r
end.

Fixpoint insertBefore (ref n : NodeId) (l : list NodeId) : list NodeId :=
match l with
| [] => []
| y :: r => if y =? ref then n :: y :: r else y :: insertBefore ref n r
end.

(** [self.insert(node, refNode, before)]: the node is removed from where
  it was and linked next to [refNode], under [refNode]'s parent (or
  under [self] when the reference has none). *)
Definition insert (self n ref : NodeId) (isBefore : bool) (s : Store) : Store :=
let s1 := remove n s in
let p := default self (parentOf s1 ref) in
update (setParent (Some p)) n
  (update (λ x, setChildren
                  ((if isBefore then insertBefore else insertAfter) ref n (children x)) x)
     p s1).

(** [node.empty()]: every descendant is unlinked from the node. *)
Definition empty (n : NodeId) (s : Store) : Store :=
let cs := childrenOf s n in
update (setChildren []) n
  (foldr (λ c acc, update (setParent None) c acc) s cs).

(** [node.walk()]: the next node in document order, that is the first
  child, else the next sibling, else the next sibling of the nearest
  ancestor that has one. *)
Fixpoint walkUp (fuel : nat) (s : Store) (n : NodeId) : option NodeId :=
match next s n with
| Some x => Some x
| None =>
    match fuel with
    | 0 => None
    | S f =>
        match parentOf s n with
        | Some p => walkUp f s p
        | None => None
        end
    end
end.

Definition walk (s : Store) (n : NodeId) : option NodeId :=
match firstChild s n with
| Some c => Some c
| None => walkUp (length s) s n
end.

(** [node.attr(name)] and [node.attr(name, value)]. *)
Fixpoint assoc (k : string) (l : list (string * string)) : option string :=
match l with
| [] => None
| (k', v) :: r => if String.eqb k' k then Some v else assoc k r
end.

Fixpoint assocSet (k v : string) (l : list (string * string)) : list (string * string) :=
match l with
| [] => [(k, v)]
| (k', v') :: r =>
    if String.eqb k' k then (k', v) :: r else (k', v') :: assocSet k v r
end.

Definition attr (s : Store) (n : NodeId) (k : string) : option string :=
attributesOf s n ≫= assoc k.

Definition attrSet (n : NodeId) (k v : string) (s : Store) : Store :=
update (λ x, match attributes x with
             | Some l => setAttributes (Some (assocSet k v l)) x
             | None => x
             end) n s.

Definition attrSetAll (n : NodeId) (kvs : list (string * string)) (s : Store) : Store :=
fold_left (λ acc kv, attrSet n kv.1 kv.2 acc) kvs s.

End AstNode.

Abbreviation Store := (list AstNode.t).

(** ** The native tree handed over by the sanitizer *)

#[local] Unset Elimination Schemes.
Inductive NativeNode := Native {
  nodeName : string;
  nodeType : nat;
  nativeAttributes : list (string * string);
  data : string;
  childNodes : list NativeNode
}.
#[local] Set Elimination Schemes.

Module NodeType.

(** Modelled from the spec: the predicates of [dom/NodeType] are not part
  of the sources at hand; the five kinds the importer handles are
  element, text, comment, CDATA section and processing instruction,
  told apart by the DOM node type tag. *)
Definition isElement (n : NativeNode) : bool := nodeType n =? 1.
Definition isText (n : NativeNode) : bool := nodeType n =? 3.
Definition isCData (n : NativeNode) : bool := nodeType n =? 4.
Definition isPi (n : NativeNode) : bool := nodeType n =? 7.
Definition isComment (n : NativeNode) : bool := nodeType n =? 8.

End NodeType.

(** ** Schema, settings and arguments *)

Record AttributeSpec := { attrName : string; attrValue : string }.

(** The fields of a schema rule that the parser reads; an absent list or
    name is [None], an absent flag is [false]. *)
Record SchemaElement := {
  attributesForced : option (list AttributeSpec);
  attributesDefault : option (list AttributeSpec);
  attributesRequired : option (list string);
  removeEmptyAttrs : bool;
  removeEmpty : bool;
  paddEmpty : bool;
  outputName : option string
}.

(** [{} as SchemaElement], the rule used when validation is off. *)
Definition emptyRule : SchemaElement :=
  {| attributesForced := None; attributesDefault := None;
     attributesRequired := None; removeEmptyAttrs := false;
     removeEmpty := false; paddEmpty := false; outputName := None |}.

(** The schema is consumed as a read-only capability. *)
Record Schema := {
  getElementRule : string → option SchemaElement;
  schemaChildren : string → option (string → bool);
  isValidChild : string → string → bool;
  isValid : string → string → bool;
  getBoolAttrs : string → bool;
  getBlockElements : string → bool;
  getWhiteSpaceElements : string → bool;
  getNonEmptyElements : string → bool
}.

(** A value of type [boolean | string], or [undefined]. *)
Inductive RootBlockValue :=
| RBBool (b : bool)
| RBString (s : string)
| RBUndefined.

(** The settings after the constructor has normalised [validate] and
    [root_name]. *)
Record DomParserSettings := {
  validate : bool;
  root_name : string;
  settings_forced_root_block : RootBlockValue;
  forced_root_block_attrs : list (string * string);
  padd_empty_with_br : bool
}.

(** The per-call arguments; [forced_root_block] is [None] when the key is
    not in the object, an absent flag is [false]. *)
Record ParserArgs := {
  context : option string;
  isRootContent : bool;
  forced_root_block : option RootBlockValue;
  invalid : bool
}.

Definition setInvalid (b : bool) (a : ParserArgs) : ParserArgs :=
  {| context := context a; isRootContent := isRootContent a;
     forced_root_block := forced_root_block a; invalid := b |}.

(** ** The summary of the validation walk *)

(** The two records of matched nodes are objects keyed by name; the keys
    are kept in the order in which they were added. *)
Record WalkResult := {
  invalidChildren : list NodeId;
  matchedNodes : list (string * list NodeId);
  matchedAttributes : list (string * list NodeId)
}.

Definition emptyWalkResult : WalkResult :=
  {| invalidChildren := []; matchedNodes := []; matchedAttributes := [] |}.

Section Records.
Context {V : Type}.

(** [obj[k]] *)
Fixpoint lookupKey (k : string) (o : list (string * V)) : option V :=
  match o with
  | [] => None
  | (k', v) :: r => if String.eqb k' k then Some v else lookupKey k r
  end.

(** [k in obj] *)
Definition hasKey (k : string) (o : list (string * V)) : bool :=
  match lookupKey k o with Some _ => true | None => false end.

(** [obj[k] = v]: an existing key keeps its place, a new key goes last. *)
Fixpoint setKey (k : string) (v : V) (o : list (string * V)) : list (string * V) :=
  match o with
  | [] => [(k, v)]
  | (k', v') :: r =>
      if String.eqb k' k then (k', v) :: r else (k', v') :: setKey k v r
  end.
End Records.

(** [list.push(node)] when [obj[k]] is a list, [obj[k] = [ node ]] otherwise. *)
Definition pushMatch (k : string) (n : NodeId) (o : list (string * list NodeId))
  : list (string * list NodeId) :=
  match lookupKey k o with
  | Some l => setKey k (l ++ [n]) o
  | None => setKey k [n] o
  end.

Definition makeMap (names : list string) (k : string) : bool :=
  existsb (String.eqb k) names.

(** [extend(makeMap('script,style,head,html,body,title,meta,param'),
    schema.getBlockElements())] *)
Definition blockElementsOf (schema : Schema) (k : string) : bool :=
  makeMap ["script"; "style"; "head"; "html"; "body"; "title"; "meta"; "param"] k
  || getBlockElements schema k.

(** ** The sanitizer hooks ([configurePurify]) *)

(** What the element hook leaves behind: the attributes of the native
    element, the allow-list of tags, whether the element was unwrapped,
    and the ids that the evaluations of [`mce_${uid++}`] produced, in
    order. *)
Record ElementOutcome := {
  outAttributes : list (string * string);
  outAllowedTags : list string;
  outUnwrapped : bool;
  outIssued : list string
}.

Record AttributeOutcome := {
  keepAttr : bool;
  outAllowedAttributes : list string;
  outAttrValue : string
}.

(** [`mce_${uid}`] *)
Definition uniqueId (uid : nat) : string := "mce_" +:+ Js.numberToString uid.

(** [attr.value === '{$uid}' ? `mce_${uid++}` : attr.value] *)
Definition attributeValue (a : AttributeSpec) (uid : nat) : string * nat * list string :=
  if String.eqb (attrValue a) "{$uid}"
  then (uniqueId uid, S uid, [uniqueId uid])
  else (attrValue a, uid, []).

Definition hasAttribute (k : string) (attrs : list (string * string)) : bool :=
  match AstNode.assoc k attrs with Some _ => true | None => false end.

Definition setAttribute (k v : string) (attrs : list (string * string))
  : list (string * string) := AstNode.assocSet k v attrs.

(** The loop over [rule.attributesForced]. *)
Fixpoint applyForced (l : list AttributeSpec) (attrs : list (string * string)) (uid : nat)
  : list (string * string) * nat * list string :=
  match l with
  | [] => (attrs, uid, [])
  | a :: r =>
      let '(v, uid1, i1) := attributeValue a uid in
      let '(attrs2, uid2, i2) := applyForced r (setAttribute (attrName a) v attrs) uid1 in
      (attrs2, uid2, i1 ++ i2)
  end.

(** The loop over [rule.attributesDefault]. *)
Fixpoint applyDefault (l : list AttributeSpec) (attrs : list (string * string)) (uid : nat)
  : list (string * string) * nat * list string :=
  match l with
  | [] => (attrs, uid, [])
  | a :: r =>
      if hasAttribute (attrName a) attrs
      then applyDefault r attrs uid
      else
        let '(v, uid1, i1) := attributeValue a uid in
        let '(attrs2, uid2, i2) := applyDefault r (setAttribute (attrName a) v attrs) uid1 in
        (attrs2, uid2, i1 ++ i2)
  end.

Definition addAllowed (k : string) (allowed : list string) : list string :=
  if existsb (String.eqb k) allowed then allowed else allowed ++ [k].

(** The [uponSanitizeElement] hook; [uid] is the counter of the closure. *)
Definition uponSanitizeElement (schema : Schema)
    (tagName : string) (allowedTags : list string)
    (attrs : list (string * string)) (uid : nat) : ElementOutcome * nat :=
  match getElementRule schema tagName with
  | None =>
      ({| outAttributes := attrs; outAllowedTags := allowedTags;
          outUnwrapped := false; outIssued := [] |}, uid)
  | Some rule =>
      let allowed := addAllowed tagName allowedTags in
      let '(attrs1, uid1, i1) := applyForced (default [] (attributesForced rule)) attrs uid in
      let '(attrs2, uid2, i2) := applyDefault (default [] (attributesDefault rule)) attrs1 uid1 in
      let missingRequired :=
        match attributesRequired rule with
        | Some req => negb (existsb (λ a, hasAttribute a attrs2) req)
        | None => false
        end in
      let unwrapped :=
        missingRequired || (removeEmptyAttrs rule && (length attrs2 =? 0)) in
      ({| outAttributes := attrs2; outAllowedTags := allowed;
          outUnwrapped := unwrapped; outIssued := i1 ++ i2 |}, uid2)
  end.

(** The [uponSanitizeAttribute] hook. *)
Definition uponSanitizeAttribute (schema : Schema)
    (tagName attr value : string) (allowedAttributes : list string) : AttributeOutcome :=
  let keep := String.prefix "data-" attr || isValid schema (Js.toLowerCase tagName) attr in
  if keep
  then {| keepAttr := true;
          outAllowedAttributes := addAllowed attr allowedAttributes;
          outAttrValue := if getBoolAttrs schema attr then attr else value |}
  else {| keepAttr := false; outAllowedAttributes := allowedAttributes;
          outAttrValue := value |}.

(** The sanitizer itself is a black box.  All it can do with the parser
    is call the two hooks, any number of times and on whatever it likes,
    look at what they did, and in the end hand over the sanitized tree. *)
Inductive Sanitizer :=
| Sanitized (body : NativeNode)
| CallElementHook (tagName : string) (allowedTags : list string)
    (attrs : list (string * string)) (k : ElementOutcome → Sanitizer)
| CallAttributeHook (tagName attr value : string) (allowedAttributes : list string)
    (k : AttributeOutcome → Sanitizer).

(** [purify.sanitize(html)] against the hooks of one parser instance:
    the sanitized tree, the counter afterwards, the ids issued. *)
Fixpoint runSanitizer (schema : Schema) (p : Sanitizer) (uid : nat)
  : NativeNode * nat * list string :=
  match p with
  | Sanitized body => (body, uid, [])
  | CallElementHook tag allowed attrs k =>
      let '(out, uid1) := uponSanitizeElement schema tag allowed attrs uid in
      let '(body, uid2, issued) := runSanitizer schema (k out) uid1 in
      (body, uid2, outIssued out ++ issued)
  | CallAttributeHook tag attr value allowed k =>
      runSanitizer schema (k (uponSanitizeAttribute schema tag attr value allowed)) uid
  end.

(** ** The tree importer ([transferChildren]) *)

Definition isSpecialName (nm : string) : bool := makeMap ["script"; "style"] nm.

Definition copyAttributes (child : NodeId) (attrs : list (string * string)) (s : Store)
  : Store := fold_left (λ acc a, AstNode.attrSet child a.1 a.2 acc) attrs s.

Fixpoint transferChildren (parent : NodeId) (nativeParent : NativeNode) (s : Store)
  {struct nativeParent} : Store :=
  let isSpecial := isSpecialName (AstNode.nameOf s parent) in
  match nativeParent with
  | Native _ _ _ _ nativeChildren =>
      (fix each (l : list NativeNode) (s : Store) {struct l} : Store :=
         match l with
         | [] => s
         | nativeChild :: rest =>
             let '(child, s1) :=
               AstNode.create (Js.toLowerCase (nodeName nativeChild)) (nodeType nativeChild) s in
             if NodeType.isElement nativeChild then
               let s2 := copyAttributes child (nativeAttributes nativeChild) s1 in
               each rest (AstNode.append parent child (transferChildren child nativeChild s2))
             else if NodeType.isComment nativeChild || NodeType.isText nativeChild
                     || NodeType.isCData nativeChild || NodeType.isPi nativeChild then
               let s2 := AstNode.update (AstNode.setValue (data nativeChild)) child s1 in
               let s3 := if isSpecial then AstNode.update (AstNode.setRaw true) child s2 else s2 in
               each rest (AstNode.append parent child (transferChildren child nativeChild s3))
             else
               each rest s1
         end) nativeChildren s
  end.

(** ** Filter registries and node matching ([filterNode]) *)

Section Parser.

(** Filter callbacks are the caller's code: a callback is given the
    list of nodes, the name and the arguments, and may change the tree
    and the list it was given. *)
Context {Callback : Type}.
Variable invoke :
  Callback → list NodeId → string → ParserArgs → Store → Store * list NodeId.

Record ParserFilter := { filterName : string; callbacks : list Callback }.

(** The loop [let i = attributeFilters.length; while (i--) ...]. *)
Fixpoint matchAttributes (i : nat) (attributeFilters : list ParserFilter)
    (attrs : list (string * string)) (node : NodeId)
    (matched : list (string * list NodeId)) : list (string * list NodeId) :=
  match i with
  | 0 => matched
  | S i' =>
      let matched' :=
        match attributeFilters !! i' with
        | Some f =>
            if hasAttribute (filterName f) attrs
            then pushMatch (filterName f) node matched
            else matched
        | None => matched
        end in
      matchAttributes i' attributeFilters attrs node matched'
  end.

Definition filterNode (node : NodeId)
    (nodeFilters : list (string * list Callback))
    (attributeFilters : list ParserFilter)
    (s : Store) (state : WalkResult) : WalkResult :=
  let name := AstNode.nameOf s node in
  let nodes1 :=
    if hasKey name nodeFilters then pushMatch name node (matchedNodes state)
    else matchedNodes state in
  let attrs1 :=
    match AstNode.attributesOf s node with
    | Some attrs =>
        matchAttributes (length attributeFilters) attributeFilters attrs node
          (matchedAttributes state)
    | None => matchedAttributes state
    end in
  {| invalidChildren := invalidChildren state;
     matchedNodes := nodes1; matchedAttributes := attrs1 |}.

Definition pushInvalid (n : NodeId) (state : WalkResult) : WalkResult :=
  {| invalidChildren := invalidChildren state ++ [n];
     matchedNodes := matchedNodes state;
     matchedAttributes := matchedAttributes state |}.

(** ** The validation walk ([walker]) *)

Variable schema : Schema.
Variable settings : DomParserSettings.

Definition isInvalidChild (s : Store) (parent node : NodeId) : bool :=
  match schemaChildren schema (AstNode.nameOf s parent),
        schemaChildren schema (AstNode.nameOf s node) with
  | Some valid, Some _ => negb (valid (AstNode.nameOf s node))
  | _, _ => false
  end.

(** What follows [filterNode] in the body of the loop. *)
Definition walkerCheck (nodeFilters : list (string * list Callback))
    (attributeFilters : list ParserFilter)
    (s : Store) (node : NodeId) (state : WalkResult) : WalkResult :=
  let state1 := filterNode node nodeFilters attributeFilters s state in
  match AstNode.parentOf s node with
  | None => state1
  | Some parent =>
      if isInvalidChild s parent node then pushInvalid node state1 else state1
  end.

(** One turn of [while ((previous = node), (node = node.walk()))]: the
    store, the node the next turn starts from, and the summary; [None]
    when the walk is over. *)
Definition walkerStep (nodeFilters : list (string * list Callback))
    (attributeFilters : list ParserFilter)
    (s : Store) (node : NodeId) (state : WalkResult)
  : option (Store * NodeId * WalkResult) :=
  let previous := node in
  match AstNode.walk s node with
  | None => None
  | Some node =>
      if AstNode.typeOf s node =? 1 then
        let elementRule :=
          if validate settings then getElementRule schema (AstNode.nameOf s node)
          else Some emptyRule in
        match elementRule with
        | None => Some (AstNode.unwrap node s, previous, state)
        | Some rule =>
            let s1 :=
              match outputName rule with
              | Some out =>
                  if Js.truthy out then AstNode.update (AstNode.setName out) node s else s
              | None => s
              end in
            Some (s1, node, walkerCheck nodeFilters attributeFilters s1 node state)
        end
      else Some (s, node, walkerCheck nodeFilters attributeFilters s node state)
  end.

Fixpoint walkerLoop (fuel : nat) (nodeFilters : list (string * list Callback))
    (attributeFilters : list ParserFilter)
    (s : Store) (node : NodeId) (state : WalkResult) : option (Store * WalkResult) :=
  match walkerStep nodeFilters attributeFilters s node state with
  | None => Some (s, state)
  | Some (s', node', state') =>
      match fuel with
      | 0 => None
      | S f => walkerLoop f nodeFilters attributeFilters s' node' state'
      end
  end.

Definition walker (fuel : nat) (root : NodeId)
    (nodeFilters : list (string * list Callback))
    (attributeFilters : list ParserFilter) (s : Store) : option (Store * WalkResult) :=
  walkerLoop fuel nodeFilters attributeFilters s root emptyWalkResult.

(** ** The normalizer ([simplifyDom]) *)

(** The helpers of [html/ParserUtils] are not part of the sources at
    hand.  The three predicates are taken as they come: whether a node
    is empty with respect to the schema's sets, whether a node (or no
    node) is a line break equivalent, whether a node is padded with a
    non-breaking space only. *)
Variable isEmpty : Schema → (string → bool) → (string → bool) → Store → NodeId → bool.
Variable isLineBreakNode : Store → option NodeId → (string → bool) → bool.
Variable isPaddedWithNbsp : Store → NodeId → bool.

(** Whether the configuration asks for a break element as padding. *)
Variable paddWithBreak :
  DomParserSettings → ParserArgs → (string → bool) → Store → NodeId → bool.

(** U+00A0 *)
Definition nbsp : string :=
  String (ascii_of_nat 194) (String (ascii_of_nat 160) EmptyString).

(** Modelled from the spec: [paddEmptyNode] of [html/ParserUtils] is not
    part of the sources at hand.  It rewrites the content of the node to
    a single padding node, a break element or a text node holding a
    non-breaking space, as the configuration asks. *)
Definition paddEmptyNode (args : ParserArgs) (blockElements : string → bool)
    (node : NodeId) (s : Store) : Store :=
  let withBreak := paddWithBreak settings args blockElements s node in
  let s1 := AstNode.empty node s in
  if withBreak then
    let '(br, s2) := AstNode.create "br" 1 s1 in
    AstNode.append node br s2
  else
    let '(text, s2) := AstNode.create "#text" 3 s1 in
    AstNode.append node text (AstNode.update (AstNode.setValue nbsp) text s2).

Section SimplifyDom.
Variable root : NodeId.
Variable args : ParserArgs.

Let nonEmptyElements := getNonEmptyElements schema.
Let whitespaceElements := getWhiteSpaceElements schema.
Let blockElements := blockElementsOf schema.

Fixpoint hasWhitespaceParentFrom (fuel : nat) (s : Store) (node : NodeId) : bool :=
  if whitespaceElements (AstNode.nameOf s node) then true
  else
    match AstNode.parentOf s node with
    | Some p =>
        match fuel with
        | 0 => false
        | S f => hasWhitespaceParentFrom f s p
        end
    | None => false
    end.

Definition hasWhitespaceParent (s : Store) (node : NodeId) : bool :=
  hasWhitespaceParentFrom (length s) s node.

(** The walks only ask this of a node that has a parent. *)
Definition isAtEdgeOfBlock (s : Store) (node : NodeId) (start : bool) : bool :=
  let neighbour := if start then AstNode.prev s node else AstNode.next s node in
  match neighbour with
  | Some _ => false
  | None =>
      match AstNode.parentOf s node with
      | Some p =>
          blockElements (AstNode.nameOf s p) && (negb (p =? root) || isRootContent args)
      | None => false
      end
  end.

Definition preprocessText (node : NodeId) (s : Store) : Store :=
  if negb (hasWhitespaceParent s node) then
    let text := AstNode.valueOf s node in
    let text := Js.collapseWhiteSpace text in
    let text :=
      if isLineBreakNode s (AstNode.prev s node) blockElements
         || isAtEdgeOfBlock s node true
      then Js.trimStart text else text in
    if String.length text =? 0 then AstNode.remove node s
    else AstNode.update (AstNode.setValue text) node s
  else s.

Definition postprocessText (node : NodeId) (s : Store) : Store :=
  if negb (hasWhitespaceParent s node) then
    let text := AstNode.valueOf s node in
    let nextIsBlock :=
      match AstNode.next s node with
      | Some n => blockElements (AstNode.nameOf s n)
      | None => false
      end in
    let text :=
      if nextIsBlock || isAtEdgeOfBlock s node false
      then Js.trimEnd text else text in
    if String.length text =? 0 then AstNode.remove node s
    else AstNode.update (AstNode.setValue text) node s
  else s.

Definition attrTruthy (s : Store) (node : NodeId) (k : string) : bool :=
  match AstNode.attr s node k with
  | Some v => Js.truthy v
  | None => false
  end.

Definition preprocessElement (node : NodeId) (s : Store) : Store :=
  let bogus := AstNode.attr s node "data-mce-bogus" in
  match bogus with
  | Some b =>
      if String.eqb b "all" then AstNode.remove node s
      else if String.eqb b "1" && negb (attrTruthy s node "data-mce-type")
           then AstNode.unwrap node s
           else s
  | None => s
  end.

Definition postprocessElement (node : NodeId) (s : Store) : Store :=
  match getElementRule schema (AstNode.nameOf s node) with
  | None => s
  | Some elementRule =>
      let isNodeEmpty := isEmpty schema nonEmptyElements whitespaceElements s node in
      if removeEmpty elementRule && isNodeEmpty then
        if blockElements (AstNode.nameOf s node) then AstNode.remove node s
        else AstNode.unwrap node s
      else if paddEmpty elementRule && (isNodeEmpty || isPaddedWithNbsp s node) then
        paddEmptyNode args blockElements node s
      else s
  end.

Definition preprocess (node : NodeId) (s : Store) : Store :=
  if AstNode.typeOf s node =? 1 then preprocessElement node s
  else if AstNode.typeOf s node =? 3 then preprocessText node s
  else s.

Definition postprocess (node : NodeId) (s : Store) : Store :=
  if AstNode.typeOf s node =? 1 then postprocessElement node s
  else if AstNode.typeOf s node =? 3 then postprocessText node s
  else s.

(** The forward walk: [node] is the node of this turn, [lastNode] the
    one of the turn before. *)
Fixpoint preprocessLoop (fuel : nat) (s : Store) (node lastNode : NodeId)
    (nodes : list NodeId) : option (Store * list NodeId) :=
  let s1 := preprocess node s in
  let '(node1, nodes1) :=
    match AstNode.parentOf s1 node with
    | None => if node =? root then (node, nodes ++ [node]) else (lastNode, nodes)
    | Some _ => (node, nodes ++ [node])
    end in
  match AstNode.walk s1 node1 with
  | None => Some (s1, nodes1)
  | Some node2 =>
      match fuel with
      | 0 => None
      | S f => preprocessLoop f s1 node2 node1 nodes1
      end
  end.

Definition simplifyDom (fuel : nat) (s : Store) : option Store :=
  match preprocessLoop fuel s root root [] with
  | Some (s1, nodes) => Some (fold_left (λ acc node, postprocess node acc) (rev nodes) s1)
  | None => None
  end.

End SimplifyDom.

(** ** The parser instance ([DomParser]) *)

(** The invalid node repair of [html/InvalidNodes] is a collaborator: it
    is given the invalid nodes and a callback for the nodes it creates,
    and works on the tree; the callback is [filterNode] over the same
    walk summary. *)
Variable cleanInvalidNodes :
  list NodeId → (NodeId → Store → WalkResult → WalkResult) →
  Store → WalkResult → Store * WalkResult.

(** What the sanitizer does with a given text. *)
Variable purify : string → Sanitizer.

(** The mutable state behind one parser instance: the counter of the
    sanitizer hooks and the two filter registries. *)
Record DomParser := {
  uid : nat;
  nodeFilters : list (string * list Callback);
  attributeFilters : list ParserFilter
}.

(** [addNodeFilter] for one name of the exploded list. *)
Definition addNodeFilter1 (name : string) (callback : Callback) (p : DomParser)
  : DomParser :=
  {| uid := uid p;
     nodeFilters :=
       setKey name (default [] (lookupKey name (nodeFilters p)) ++ [callback])
         (nodeFilters p);
     attributeFilters := attributeFilters p |}.

Definition addNodeFilter (names : list string) (callback : Callback) (p : DomParser)
  : DomParser := fold_left (λ acc name, addNodeFilter1 name callback acc) names p.

(** The search loop of [addAttributeFilter]. *)
Fixpoint addToFilters (name : string) (callback : Callback) (l : list ParserFilter)
  : list ParserFilter :=
  match l with
  | [] => [{| filterName := name; callbacks := [callback] |}]
  | f :: r =>
      if String.eqb (filterName f) name
      then {| filterName := filterName f; callbacks := callbacks f ++ [callback] |} :: r
      else f :: addToFilters name callback r
  end.

Definition addAttributeFilter1 (name : string) (callback : Callback) (p : DomParser)
  : DomParser :=
  {| uid := uid p; nodeFilters := nodeFilters p;
     attributeFilters := addToFilters name callback (attributeFilters p) |}.

Definition addAttributeFilter (names : list string) (callback : Callback) (p : DomParser)
  : DomParser := fold_left (λ acc name, addAttributeFilter1 name callback acc) names p.

(** A registration made by [ParserFilters.register] or
    [LegacyFilter.register]: attribute filter or node filter, names,
    callback. *)
Definition Registration : Type := bool * list string * Callback.

Definition register (r : Registration) (p : DomParser) : DomParser :=
  let '(isAttribute, names, callback) := r in
  if isAttribute then addAttributeFilter names callback p
  else addNodeFilter names callback p.

(** The constructor: empty registries, a counter at zero, and then the
    registrations of the built-in filters. *)
Definition newDomParser (builtin : list Registration) : DomParser :=
  fold_left (λ acc r, register r acc) builtin
    {| uid := 0; nodeFilters := []; attributeFilters := [] |}.

(** ** [parse] *)

Definition getRootBlockName (name : RootBlockValue) : option string :=
  match name with
  | RBBool false => Some ""
  | RBBool true => Some "p"
  | RBString s => Some s
  | RBUndefined => None
  end.

(** ['forced_root_block' in args ? args.forced_root_block
    : settings.forced_root_block] *)
Definition forcedRootBlockName (args : ParserArgs) : RootBlockValue :=
  match forced_root_block args with
  | Some v => v
  | None => settings_forced_root_block settings
  end.

Definition rootBlockNameOf (args : ParserArgs) : option string :=
  getRootBlockName (forcedRootBlockName args).

Definition optTruthy (o : option string) : bool :=
  match o with Some v => Js.truthy v | None => false end.

(** What the environment can see of a parse: the calls to the repair
    and to the filter callbacks, with the nodes handed over. *)
Inductive Event :=
| Repair (nodes : list NodeId)
| NodeFilterCall (name : string) (callback : Callback) (nodes : list NodeId)
| AttributeFilterCall (name : string) (callback : Callback) (nodes : list NodeId).

Section RootBlocks.
Variable rootNode : NodeId.
Variable rootBlockName : string.

Let blockElements := blockElementsOf schema.

Definition trimFirst (rootBlock : NodeId) (s : Store) : Store :=
  match AstNode.firstChild s rootBlock with
  | Some node =>
      if AstNode.typeOf s node =? 3
      then AstNode.update (λ x, AstNode.setValue (Js.trimStart (AstNode.value x)) x) node s
      else s
  | None => s
  end.

Definition trimLast (rootBlock : NodeId) (s : Store) : Store :=
  match AstNode.lastChild s rootBlock with
  | Some node =>
      if AstNode.typeOf s node =? 3
      then AstNode.update (λ x, AstNode.setValue (Js.trimEnd (AstNode.value x)) x) node s
      else s
  | None => s
  end.

Definition trim (rootBlock : option NodeId) (s : Store) : Store :=
  match rootBlock with
  | Some rb => trimLast rb (trimFirst rb s)
  | None => s
  end.

(** The test of the [if] in the loop of [addRootBlocks]. *)
Definition goesIntoRootBlock (s : Store) (node : NodeId) : bool :=
  (AstNode.typeOf s node =? 3)
  || ((AstNode.typeOf s node =? 1)
      && negb (String.eqb (AstNode.nameOf s node) "p")
      && negb (blockElements (AstNode.nameOf s node))
      && negb (attrTruthy s node "data-mce-type")).

(** One turn of [while (node)]. *)
Definition addRootBlocksStep (s : Store) (node : NodeId) (rootBlockNode : option NodeId)
  : Store * option NodeId * option NodeId :=
  let next := AstNode.next s node in
  if goesIntoRootBlock s node then
    match rootBlockNode with
    | None =>
        let '(rb, s1) := AstNode.create rootBlockName 1 s in
        let s2 := AstNode.attrSetAll rb (forced_root_block_attrs settings) s1 in
        let s3 := AstNode.insert rootNode rb node false s2 in
        (AstNode.append rb node s3, next, Some rb)
    | Some rb => (AstNode.append rb node s, next, Some rb)
    end
  else (trim rootBlockNode s, next, None).

Fixpoint addRootBlocksLoop (fuel : nat) (s : Store) (node : option NodeId)
    (rootBlockNode : option NodeId) : option Store :=
  match node with
  | None => Some (trim rootBlockNode s)
  | Some n =>
      match fuel with
      | 0 => None
      | S f =>
          let '(s1, next, rb) := addRootBlocksStep s n rootBlockNode in
          addRootBlocksLoop f s1 next rb
      end
  end.

Definition addRootBlocks (fuel : nat) (s : Store) : option Store :=
  if negb (isValidChild schema (AstNode.nameOf s rootNode) (Js.toLowerCase rootBlockName))
  then Some s
  else addRootBlocksLoop fuel s (AstNode.firstChild s rootNode) None.

End RootBlocks.

(** The wrapping stage of [parse]. *)
Definition wrapRoot (fuel : nat) (args : ParserArgs) (rootNode : NodeId) (s : Store)
  : option Store :=
  match rootBlockNameOf args with
  | Some rootBlockName =>
      if Js.truthy rootBlockName
         && (String.eqb (AstNode.nameOf s rootNode) "body" || isRootContent args)
      then addRootBlocks rootNode rootBlockName fuel s
      else Some s
  | None => Some s
  end.

(** The loop [let fi = nodes.length; while (fi--) ...] that drops the
    nodes without a parent. *)
Fixpoint dropDetached (s : Store) (fi : nat) (nodes : list NodeId) : list NodeId :=
  match fi with
  | 0 => nodes
  | S fi' =>
      let nodes' :=
        match nodes !! fi' with
        | Some n =>
            match AstNode.parentOf s n with
            | None => delete fi' nodes
            | Some _ => nodes
            end
        | None => nodes
        end in
      dropDetached s fi' nodes'
  end.

(** The loop over the callbacks of one name; every callback is handed
    the same list object. *)
Fixpoint runCallbacks (event : Callback → list NodeId → Event)
    (cbs : list Callback) (name : string) (args : ParserArgs)
    (s : Store) (nodes : list NodeId) (trace : list Event)
  : Store * list NodeId * list Event :=
  match cbs with
  | [] => (s, nodes, trace)
  | cb :: r =>
      let '(s1, nodes1) := invoke cb nodes name args s in
      runCallbacks event r name args s1 nodes1 (trace ++ [event cb nodes])
  end.

(** [for (const name in state.matchedNodes)] *)
Fixpoint runNodeFilters (names : list string) (p : DomParser) (args : ParserArgs)
    (s : Store) (state : WalkResult) (trace : list Event)
  : Store * WalkResult * list Event :=
  match names with
  | [] => (s, state, trace)
  | name :: r =>
      let list := default [] (lookupKey name (nodeFilters p)) in
      let nodes := default [] (lookupKey name (matchedNodes state)) in
      let nodes1 := dropDetached s (length nodes) nodes in
      let '(s1, nodes2, trace1) :=
        runCallbacks (NodeFilterCall name) list name args s nodes1 trace in
      let state1 :=
        {| invalidChildren := invalidChildren state;
           matchedNodes := setKey name nodes2 (matchedNodes state);
           matchedAttributes := matchedAttributes state |} in
      runNodeFilters r p args s1 state1 trace1
  end.

(** [for (let i = 0; i < l; i++)] over the attribute filters. *)
Fixpoint runAttributeFilters (filters : list ParserFilter) (args : ParserArgs)
    (s : Store) (state : WalkResult) (trace : list Event)
  : Store * WalkResult * list Event :=
  match filters with
  | [] => (s, state, trace)
  | list :: r =>
      match lookupKey (filterName list) (matchedAttributes state) with
      | Some nodes =>
          let nodes1 := dropDetached s (length nodes) nodes in
          let '(s1, nodes2, trace1) :=
            runCallbacks (AttributeFilterCall (filterName list)) (callbacks list)
              (filterName list) args s nodes1 trace in
          let state1 :=
            {| invalidChildren := invalidChildren state;
               matchedNodes := matchedNodes state;
               matchedAttributes :=
                 setKey (filterName list) nodes2 (matchedAttributes state) |} in
          runAttributeFilters r args s1 state1 trace1
      | None => runAttributeFilters r args s state trace
      end
  end.

Definition isChildOf (s : Store) (rootNode child : NodeId) : bool :=
  match AstNode.parentOf s child with
  | Some p => p =? rootNode
  | None => false
  end.

(** The repair stage: [if (validate && state.invalidChildren.length)]. *)
Definition repairInvalid (p : DomParser) (args : ParserArgs) (rootNode : NodeId)
    (s : Store) (state : WalkResult)
  : Store * WalkResult * ParserArgs * list Event :=
  let onCreate := λ newNode s' state',
    filterNode newNode (nodeFilters p) (attributeFilters p) s' state' in
  if validate settings && negb (length (invalidChildren state) =? 0) then
    if optTruthy (context args) then
      let topLevelChildren := filter (λ c, isChildOf s rootNode c = true) (invalidChildren state) in
      let otherChildren := filter (λ c, isChildOf s rootNode c ≠ true) (invalidChildren state) in
      let '(s1, state1) := cleanInvalidNodes otherChildren onCreate s state in
      (s1, state1, setInvalid (negb (length topLevelChildren =? 0)) args,
       [Repair otherChildren])
    else
      let '(s1, state1) := cleanInvalidNodes (invalidChildren state) onCreate s state in
      (s1, state1, args, [Repair (invalidChildren state)])
  else (s, state, args, []).

(** The dispatch stage: [if (!args.invalid)]. *)
Definition runFilters (p : DomParser) (args : ParserArgs)
    (s : Store) (state : WalkResult) (trace : list Event)
  : Store * WalkResult * list Event :=
  if negb (invalid args) then
    let '(s1, state1, trace1) :=
      runNodeFilters (map fst (matchedNodes state)) p args s state trace in
    runAttributeFilters (attributeFilters p) args s1 state1 trace1
  else (s, state, trace).

Record ParseResult := {
  rootNode : NodeId;
  store : Store;
  outArgs : ParserArgs;
  parser : DomParser;
  issued : list string;
  summary : WalkResult;
  trace : list Event
}.

(** What [parse] does once the walk has produced its summary. *)
Definition finishParse (fuel : nat) (p : DomParser) (args : ParserArgs)
    (rootNode : NodeId) (s : Store) (state : WalkResult)
  : option (Store * WalkResult * ParserArgs * list Event) :=
  let '(s1, state1, args1, trace1) := repairInvalid p args rootNode s state in
  match wrapRoot fuel args1 rootNode s1 with
  | Some s2 =>
      let '(s3, state3, trace3) := runFilters p args1 s2 state1 trace1 in
      Some (s3, state3, args1, trace3)
  | None => None
  end.

Definition parse (fuel : nat) (html : string) (args : ParserArgs) (p : DomParser)
  : option ParseResult :=
  let rootName :=
    match context args with
    | Some c => if Js.truthy c then c else root_name settings
    | None => root_name settings
    end in
  let '(rootNode, s0) := AstNode.create rootName 11 [] in
  let '(element, uid1, ids) := runSanitizer schema (purify html) (uid p) in
  let p1 := {| uid := uid1; nodeFilters := nodeFilters p;
               attributeFilters := attributeFilters p |} in
  let s1 := transferChildren rootNode element s0 in
  match simplifyDom rootNode args fuel s1 with
  | Some s2 =>
      match walker fuel rootNode (nodeFilters p) (attributeFilters p) s2 with
      | Some (s3, state) =>
          match finishParse fuel p args rootNode s3 state with
          | Some (s4, state4, args4, trace4) =>
              Some {| rootNode := rootNode; store := s4; outArgs := args4;
                      parser := p1; issued := ids; summary := state4;
                      trace := trace4 |}
          | None => None
          end
      | None => None
      end
  | None => None
  end.

End Parser.

(** ** Auxiliary notions for the statements *)

(** The ids issued while the counter goes from [a] to [b]. *)
Definition idsBetween (a b : nat) : list string := uniqueId <$> seq a (b - a).

Section Runs.
Context {Callback : Type}.
Variable invoke :
  Callback → list NodeId → string → ParserArgs → Store → Store * list NodeId.
Variable schema : Schema.
Variable settings : DomParserSettings.
Variable isEmpty : Schema → (string → bool) → (string → bool) → Store → NodeId → bool.
Variable isLineBreakNode : Store → option NodeId → (string → bool) → bool.
Variable isPaddedWithNbsp : Store → NodeId → bool.
Variable paddWithBreak :
  DomParserSettings → ParserArgs → (string → bool) → Store → NodeId → bool.
Variable cleanInvalidNodes :
  list NodeId → (NodeId → Store → WalkResult → WalkResult) →
  Store → WalkResult → Store * WalkResult.
Variable purify : string → Sanitizer.

(** Successive calls of [parse] on one parser instance: the instance
    afterwards and every id issued, in order. *)
Fixpoint parseAll (fuel : nat) (calls : list (string * ParserArgs))
    (p : DomParser (Callback:=Callback)) : option (DomParser (Callback:=Callback) * list string) :=
  match calls with
  | [] => Some (p, [])
  | (html, args) :: rest =>
      match parse invoke schema settings isEmpty isLineBreakNode isPaddedWithNbsp
              paddWithBreak cleanInvalidNodes purify fuel html args p with
      | Some r =>
          match parseAll fuel rest (parser r) with
          | Some (p', ids) => Some (p', issued r ++ ids)
          | None => None
          end
      | None => None
      end
  end.
End Runs.

(** ** A small instance to run the parser on *)

Module Sample.

Definition inlineNames : list string := ["span"; "b"; "a"; "br"; "#text"].
Definition flowNames : list string :=
  ["p"; "div"; "table"; "span"; "b"; "a"; "br"; "#text"].

Definition rule (nm : string) : SchemaElement :=
  {| attributesForced :=
       if String.eqb nm "a"
       then Some [{| attrName := "id"; attrValue := "{$uid}" |}] else None;
     attributesDefault :=
       if String.eqb nm "a"
       then Some [{| attrName := "title"; attrValue := "{$uid}" |};
                  {| attrName := "rel"; attrValue := "nofollow" |}]
       else None;
     attributesRequired := None;
     removeEmptyAttrs := false;
     removeEmpty := makeMap ["span"; "b"; "div"] nm;
     paddEmpty := makeMap ["p"; "td"] nm;
     outputName := if String.eqb nm "b" then Some "strong" else None |}.

Definition schema : Schema :=
  {| getElementRule := λ nm,
       if makeMap ["p"; "div"; "span"; "b"; "a"; "br"; "table"; "tr"; "td";
                   "script"; "style"; "g"; "strong"] nm
       then Some (rule nm) else None;
     schemaChildren := λ nm,
       if makeMap ["p"; "span"; "b"; "a"] nm then Some (makeMap inlineNames)
       else if makeMap ["body"; "div"; "td"] nm then Some (makeMap flowNames)
       else if String.eqb nm "table" then Some (makeMap ["tr"])
       else if String.eqb nm "tr" then Some (makeMap ["td"])
       else None;
     isValidChild := λ parent child,
       makeMap ["body"; "div"; "td"] parent && makeMap flowNames child;
     isValid := λ _ _, true;
     getBoolAttrs := makeMap ["checked"; "disabled"];
     getBlockElements := makeMap ["p"; "div"; "table"; "tr"; "td"];
     getWhiteSpaceElements := makeMap ["pre"; "script"; "style"; "textarea"];
     getNonEmptyElements := makeMap ["br"; "td"] |}.

Definition settings : DomParserSettings :=
  {| validate := true; root_name := "body";
     settings_forced_root_block := RBString "p";
     forced_root_block_attrs := []; padd_empty_with_br := false |}.

Definition args : ParserArgs :=
  {| context := None; isRootContent := false;
     forced_root_block := None; invalid := false |}.

Definition argsIn (ctx : string) : ParserArgs :=
  {| context := Some ctx; isRootContent := false;
     forced_root_block := None; invalid := false |}.

(** Stand-ins for the helpers of [html/ParserUtils]. *)
Definition isBlank (s : Store) (c : NodeId) : bool :=
  (AstNode.typeOf s c =? 3) && (String.length (Js.trimStart (AstNode.valueOf s c)) =? 0).

Definition isEmpty (_ : Schema) (nonEmpty whitespace : string → bool)
    (s : Store) (n : NodeId) : bool :=
  negb (nonEmpty (AstNode.nameOf s n)) && forallb (isBlank s) (AstNode.childrenOf s n).

Definition isLineBreakNode (s : Store) (n : option NodeId) (blockElements : string → bool)
  : bool :=
  match n with
  | Some n => blockElements (AstNode.nameOf s n) || String.eqb (AstNode.nameOf s n) "br"
  | None => false
  end.

Definition isPaddedWithNbsp (s : Store) (n : NodeId) : bool :=
  match AstNode.childrenOf s n with
  | [c] => (AstNode.typeOf s c =? 3) && String.eqb (AstNode.valueOf s c) nbsp
  | _ => false
  end.

Definition paddWithBreak (st : DomParserSettings) (_ : ParserArgs)
    (blockElements : string → bool) (s : Store) (n : NodeId) : bool :=
  padd_empty_with_br st && blockElements (AstNode.nameOf s n).

(** Callbacks are numbered; number 1 detaches the nodes it is given,
    the others only look. *)
Definition invoke (cb : nat) (nodes : list NodeId) (_ : string) (_ : ParserArgs)
    (s : Store) : Store * list NodeId :=
  if cb =? 1 then (fold_left (λ acc n, AstNode.remove n acc) nodes s, nodes)
  else (s, nodes).

(** A repair that leaves the tree alone. *)
Definition cleanInvalidNodes (_ : list NodeId)
    (_ : NodeId → Store → WalkResult → WalkResult)
    (s : Store) (state : WalkResult) : Store * WalkResult := (s, state).

Definition text (v : string) : NativeNode := Native "#text" 3 [] v [].
Definition element (nm : string) (attrs : list (string * string))
    (cs : list NativeNode) : NativeNode := Native nm 1 attrs "" cs.
Definition body (cs : list NativeNode) : NativeNode := element "BODY" [] cs.

(** A sanitizer that knows a few texts. *)
Definition purify (html : string) : Sanitizer :=
  if String.eqb html "text<p>x</p>text2" then
    Sanitized (body [text "text"; element "P" [] [text "x"]; text "text2"])
  else if String.eqb html "<p>  a  b  </p>" then
    Sanitized (body [element "P" [] [text "  a  b  "]])
  else if String.eqb html "<foo>text</foo>" then
    Sanitized (body [element "FOO" [] [text "text"]])
  else if String.eqb html "<tr><td>x</td></tr>" then
    Sanitized (body [element "TR" [] [element "TD" [] [text "x"]]])
  else if String.eqb html "<span><div>x</div></span><table></table>" then
    Sanitized (body [element "SPAN" [] [element "DIV" [] [text "x"]];
                     element "TABLE" [] []])
  else if String.eqb html "<a class=c>x</a>" then
    CallElementHook "a" [] [("class", "c")]
      (λ out, Sanitized (body [element "A" (outAttributes out) [text "x"]]))
  else Sanitized (body []).

Definition builtin : list (bool * list string * nat) :=
  [(false, ["p"], 0); (true, ["id"; "class"], 0); (true, ["class"], 2)].

Definition parser : DomParser (Callback:=nat) := newDomParser builtin.

Definition parse (fuel : nat) (html : string) (a : ParserArgs)
    (p : DomParser (Callback:=nat)) : option (ParseResult (Callback:=nat)) :=
  parse invoke schema settings isEmpty isLineBreakNode isPaddedWithNbsp
    paddWithBreak cleanInvalidNodes purify fuel html a p.

End Sample.

(** The reading of "every forced or default attribute whose declared value
    is the placeholder receives a fresh id" on one call of the element
    hook: afterwards the element carries such an id under the name of
    every such attribute. *)
Definition everyPlaceholderReplaced (schema : Schema) (tagName : string)
    (attrs : list (string * string)) (uid : nat) : Prop :=
  ∀ rule a,
    getElementRule schema tagName = Some rule →
    a ∈ default [] (attributesForced rule) ++ default [] (attributesDefault rule) →
    attrValue a = "{$uid}" →
    ∃ k, AstNode.assoc (attrName a)
           (outAttributes (uponSanitizeElement schema tagName [] attrs uid).1)
         = Some (uniqueId k).

Section Observations.
Context {Callback : Type}.

(** The attribute filter callbacks called in a trace, in order. *)
Definition attributeCall (e : Event (Callback:=Callback)) : option (string * Callback) :=
  match e with
  | AttributeFilterCall name cb _ => Some (name, cb)
  | _ => None
  end.


Definition isFilterCall (e : Event (Callback:=Callback)) : bool :=
  match e with
  | Repair _ => false
  | _ => true
  end.


End Observations.


Section Walked.
Context {Callback : Type}.
Variable schema : Schema.
Variable settings : DomParserSettings.
Variable isEmpty : Schema → (string → bool) → (string → bool) → Store → NodeId → bool.
Variable isLineBreakNode : Store → option NodeId → (string → bool) → bool.
Variable isPaddedWithNbsp : Store → NodeId → bool.
Variable paddWithBreak :
  DomParserSettings → ParserArgs → (string → bool) → Store → NodeId → bool.
Variable purify : string → Sanitizer.

(** The part of [parse] up to the normalizer: the root and the tree that
    the validation walk starts from. *)
Definition normalized (fuel : nat) (html : string) (args : ParserArgs)
    (p : DomParser (Callback:=Callback)) : option (NodeId * Store) :=
  let rootName :=
    match context args with
    | Some c => if Js.truthy c then c else root_name settings
    | None => root_name settings
    end in
  let '(rootNode, s0) := AstNode.create rootName 11 [] in
  let s1 := transferChildren rootNode (runSanitizer schema (purify html) (uid p)).1.1 s0 in
  match simplifyDom schema settings isEmpty isLineBreakNode isPaddedWithNbsp
          paddWithBreak rootNode args fuel s1 with
  | Some s2 => Some (rootNode, s2)
  | None => None
  end.

(** The part of [parse] up to the validation walk: the root, the tree
    and the summary that the rest of [parse] starts from. *)
Definition walked (fuel : nat) (html : string) (args : ParserArgs)
    (p : DomParser (Callback:=Callback)) : option (NodeId * Store * WalkResult) :=
  match normalized fuel html args p with
  | Some (rootNode, s2) =>
      match walker schema settings fuel rootNode (nodeFilters p) (attributeFilters p) s2 with
      | Some (s3, state) => Some (rootNode, s3, state)
      | None => None
      end
  | None => None
  end.
End Walked.

(** ** What collapsing white space means *)

Fixpoint allWhiteSpace (s : string) : bool :=
  match s with
  | EmptyString => true
  | String c r => Js.isWhiteSpaceChar c && allWhiteSpace r
  end.

Definition startsWithWhiteSpace (s : string) : bool :=
  match s with
  | EmptyString => false
  | String c _ => Js.isWhiteSpaceChar c
  end.

(** [Collapsed v t]: [t] is [v] with every maximal run of white space
    replaced by one space and every other character kept. *)
Inductive Collapsed : string → string → Prop :=
| Collapsed_nil : Collapsed "" ""
| Collapsed_char c r t :
    Js.isWhiteSpaceChar c = false → Collapsed r t →
    Collapsed (String c r) (String c t)
| Collapsed_run ws r t :
    ws ≠ "" → allWhiteSpace ws = true → startsWithWhiteSpace r = false →
    Collapsed r t → Collapsed (ws +:+ r) (String " " t).

(** The leading white space of a text. *)
Fixpoint leadingWhiteSpace (s : string) : string :=
  match s with
  | EmptyString => EmptyString
  | String c r => if Js.isWhiteSpaceChar c then String c (leadingWhiteSpace r) else EmptyString
  end.

(** The [k]-th ancestor of a node, the node itself for [k = 0]. *)
Fixpoint nthAncestor (k : nat) (s : Store) (n : NodeId) : option NodeId :=
  match k with
  | 0 => Some n
  | S k' => AstNode.parentOf s n ≫= nthAncestor k' s
  end.

(** The names that count as block-level in the normalizer. *)
Definition blockLevel (schema : Schema) (nm : string) : Prop :=
  getBlockElements schema nm = true
  ∨ nm ∈ ["script"; "style"; "head"; "html"; "body"; "title"; "meta"; "param"].

(** When [preprocessText] strips the leading white space of a text node. *)
Definition stripsLeading (schema : Schema)
    (isLineBreakNode : Store → option NodeId → (string → bool) → bool)
    (root : NodeId) (args : ParserArgs) (s : Store) (node : NodeId) : Prop :=
  isLineBreakNode s (AstNode.prev s node) (blockElementsOf schema) = true
  ∨ (AstNode.prev s node = None
     ∧ ∃ p, AstNode.parentOf s node = Some p
            ∧ blockLevel schema (AstNode.nameOf s p)
            ∧ (p ≠ root ∨ isRootContent args = true)).

(** ** Well-formed stores and the runs of the validation walk *)

(** The child lists agree with the parent links. *)
Definition childrenLinked (s : Store) : Prop :=
  ∀ p c, c ∈ AstNode.childrenOf s p → AstNode.parentOf s c = Some p.

(** A node is in none of the lists of a walk summary. *)
Definition notRecorded (n : NodeId) (state : WalkResult) : Prop :=
  (n ∉ invalidChildren state)
  ∧ (∀ k l, lookupKey k (matchedNodes state) = Some l → n ∉ l)
  ∧ (∀ k l, lookupKey k (matchedAttributes state) = Some l → n ∉ l).

Section WalkerRuns.
Context {Callback : Type}.
Variable schema : Schema.
Variable settings : DomParserSettings.
Variable nodeFilters : list (string * list Callback).
Variable attributeFilters : list (ParserFilter (Callback:=Callback)).

(** The states of the loop of [walker] that can be reached from a state:
    the store, the node that [previous] is set to at the start of the next
    turn, and the summary. *)
Inductive walkerReaches :
  (Store * NodeId * WalkResult) → (Store * NodeId * WalkResult) → Prop :=
| walkerReaches_here x : walkerReaches x x
| walkerReaches_step s node state x y :
    walkerStep schema settings nodeFilters attributeFilters s node state = Some x →
    walkerReaches x y →
    walkerReaches (s, node, state) y.
End WalkerRuns.

(** The parent links agree with the child lists. *)
Definition parentsLinked (s : Store) : Prop :=
  ∀ c p, AstNode.parentOf s c = Some p → c ∈ AstNode.childrenOf s p.

(** No node is listed twice among the children of a node. *)
Definition childrenDistinct (s : Store) : Prop :=
  ∀ p, NoDup (AstNode.childrenOf s p).

(** Every node was created after its parent; so the parent links have no
    cycle. *)
Definition ordered (s : Store) : Prop :=
  ∀ c p, AstNode.parentOf s c = Some p → p < c.

(** A store whose links form a forest. *)
Definition wellFormed (s : Store) : Prop :=
  childrenLinked s ∧ parentsLinked s ∧ childrenDistinct s ∧ ordered s.

(** A check of [wellFormed] that can be run. *)
Definition wellFormedb (s : Store) : bool :=
  forallb (λ n,
      forallb (λ c, match AstNode.parentOf s c with
                    | Some p => p =? n
                    | None => false
                    end) (AstNode.childrenOf s n)
      && match AstNode.parentOf s n with
         | Some p => existsb (Nat.eqb n) (AstNode.childrenOf s p) && (p <? n)
         | None => true
         end
      && bool_decide (NoDup (AstNode.childrenOf s n)))
    (seq 0 (length s)).

(** ** What the importer is expected to produce *)

(** Induction on native trees, with the property at hand for every
    child. *)
Fixpoint NativeNode_forall_ind (P : NativeNode → Prop)
    (step : ∀ nm ty attrs d cs, Forall P cs → P (Native nm ty attrs d cs))
    (n : NativeNode) : P n :=
  match n with
  | Native nm ty attrs d cs =>
      step nm ty attrs d cs
        ((fix go (l : list NativeNode) : Forall P l :=
            match l with
            | [] => @List.Forall_nil _ P
            | x :: r => @List.Forall_cons _ P x r (NativeNode_forall_ind P step x) (go r)
            end) cs)
  end.

(** The five kinds of native nodes that are transcribed. *)
Definition handled (n : NativeNode) : bool :=
  NodeType.isElement n || NodeType.isComment n || NodeType.isText n
  || NodeType.isCData n || NodeType.isPi n.

(** Text, CDATA, processing instruction and comment nodes. *)
Definition isTextLike (ty : nat) : bool :=
  (ty =? 3) || (ty =? 4) || (ty =? 7) || (ty =? 8).

(** One turn of the loop of [transferChildren], and the loop. *)
Definition transferOne (isSpecial : bool) (parent : NodeId) (nativeChild : NativeNode)
    (s : Store) : Store :=
  let '(child, s1) :=
    AstNode.create (Js.toLowerCase (nodeName nativeChild)) (nodeType nativeChild) s in
  if NodeType.isElement nativeChild then
    let s2 := copyAttributes child (nativeAttributes nativeChild) s1 in
    AstNode.append parent child (transferChildren child nativeChild s2)
  else if NodeType.isComment nativeChild || NodeType.isText nativeChild
          || NodeType.isCData nativeChild || NodeType.isPi nativeChild then
    let s2 := AstNode.update (AstNode.setValue (data nativeChild)) child s1 in
    let s3 := if isSpecial then AstNode.update (AstNode.setRaw true) child s2 else s2 in
    AstNode.append parent child (transferChildren child nativeChild s3)
  else s1.

Definition transferEach (isSpecial : bool) (parent : NodeId) (l : list NativeNode)
    (s : Store) : Store :=
  fold_left (λ acc nativeChild, transferOne isSpecial parent nativeChild acc) l s.

(** A node of the store stands for a native node: it has its name in
    lower case and its type, and its children stand, one by one and in
    order, for the native children of the five handled kinds. *)
Inductive Represents (s : Store) : NodeId → NativeNode → Prop :=
| Represents_node c n :
    AstNode.nameOf s c = Js.toLowerCase (nodeName n) →
    AstNode.typeOf s c = nodeType n →
    (NodeType.isElement n = true →
     AstNode.attributesOf s c = Some (fold_left (λ l a, AstNode.assocSet a.1 a.2 l)
                                        (nativeAttributes n) [])) →
    (isTextLike (nodeType n) = true → AstNode.valueOf s c = data n) →
    Forall2 (Represents s) (AstNode.childrenOf s c)
      (filter (λ x, handled x = true) (childNodes n)) →
    Represents s c n.

(** The text-like children of a node are all marked raw. *)
Definition rawUnder (s : Store) (e : NodeId) : Prop :=
  ∀ c, c ∈ AstNode.childrenOf s e →
       isTextLike (AstNode.typeOf s c) = true → AstNode.rawOf s c = true.

(** The descendants of a node, down to a given depth. *)
Fixpoint descendants (fuel : nat) (s : Store) (n : NodeId) : list NodeId :=
  match fuel with
  | 0 => []
  | S f => flat_map (λ c, c :: descendants f s c) (AstNode.childrenOf s n)
  end.

(** The reading of "all descendant text-like nodes of an imported script
    or style element are raw" on a store. *)
Definition rawBelowSpecial (s : Store) : Prop :=
  ∀ e d, AstNode.typeOf s e = 1 → isSpecialName (AstNode.nameOf s e) = true →
         d ∈ descendants (length s) s e →
         isTextLike (AstNode.typeOf s d) = true → AstNode.rawOf s d = true.

(** What the loop of the importer has done between two stores. *)
Definition Imported (isSpecial : bool) (parent : NodeId) (l : list NativeNode)
    (sa sb : Store) : Prop :=
  length sa ≤ length sb
  ∧ (∀ m, m < length sa → m ≠ parent → sb !! m = sa !! m)
  ∧ (∃ cs, sb !! parent
           = (λ x, AstNode.setChildren (AstNode.children x ++ cs) x) <$> sa !! parent
           ∧ Forall (λ c, length sa ≤ c < length sb) cs
           ∧ Forall2 (Represents sb) cs (filter (λ x, handled x = true) l)
           ∧ (isSpecial = true →
              Forall (λ c, isTextLike (AstNode.typeOf sb c) = true →
                           AstNode.rawOf sb c = true) cs))
  ∧ (∀ e, length sa ≤ e →
          (∀ c, c ∈ AstNode.childrenOf sb e → length sa ≤ c < length sb)
          ∧ (isSpecialName (AstNode.nameOf sb e) = true → rawUnder sb e)).

(** The importer does its work on a native node under whatever parent. *)
Definition importsWell (n : NativeNode) : Prop :=
  ∀ parent (s : Store), parent < length s →
    Imported (isSpecialName (AstNode.nameOf s parent)) parent (childNodes n) s
      (transferChildren parent n s).

(** ** What goes into a root block *)



(** The importer keeps the store well-formed on a native node. *)
Definition importsForest (n : NativeNode) : Prop :=
  ∀ parent (s : Store), parent < length s → wellFormed s →
    wellFormed (transferChildren parent n s).

(** ** What the validation walk keeps of the root *)

(** No list of a match table holds the root. *)
Definition clean (root : NodeId) (m : list (string * list NodeId)) : Prop :=
  ∀ k l, lookupKey k m = Some l → root ∉ l.

(** What a turn of the loop of [walker] keeps: the child lists agree
    with the parent links, the root has no parent and the name it
    started with, and the summary does not hold it. *)
Definition rootKept (root : NodeId) (name0 : string)
    (x : Store * NodeId * WalkResult) : Prop :=
  childrenLinked x.1.1
  ∧ AstNode.parentOf x.1.1 root = None
  ∧ AstNode.nameOf x.1.1 root = name0
  ∧ notRecorded root x.2.

(** ** The root blocks, as the scan is described *)






(** The name, type and attributes of a node. *)
Definition tag (x : AstNode.t) : string * nat * option (list (string * string)) :=
  (AstNode.name x, AstNode.type x, AstNode.attributes x).

(** What a turn of the scan on [node] with the open root block [rb]
    leaves alone in the nodes that were there: their tags, the parent of
    every other node, and the children of every node but the root and
    the open root block. *)
Definition stepFrame (root node : NodeId) (rb : option NodeId) (s s1 : Store) : Prop :=
  length s ≤ length s1
  ∧ (∀ m, m < length s → tag <$> s1 !! m = tag <$> s !! m)
  ∧ (∀ m, m < length s → m ≠ node → AstNode.parentOf s1 m = AstNode.parentOf s m)
  ∧ (∀ m, m < length s → m ≠ root → Some m ≠ rb →
          AstNode.childrenOf s1 m = AstNode.childrenOf s m).

(** The nodes that a call hands over. *)
Definition eventNodes {Callback : Type} (e : Event (Callback:=Callback)) : list NodeId :=
  match e with
  | Repair nodes => nodes
  | NodeFilterCall _ _ nodes => nodes
  | AttributeFilterCall _ _ nodes => nodes
  end.

(** ** A second sample schema, for the hooks *)

Module Strict.

(** Links are forced to [rel=noopener] and default to [target=_blank];
    images must have a source; spans go when they end up without
    attributes. *)
Definition rule (nm : string) : SchemaElement :=
  {| attributesForced :=
       if String.eqb nm "a"
       then Some [{| attrName := "rel"; attrValue := "nofollow" |};
                  {| attrName := "rel"; attrValue := "noopener" |}]
       else None;
     attributesDefault :=
       if String.eqb nm "a"
       then Some [{| attrName := "target"; attrValue := "_blank" |}] else None;
     attributesRequired := if String.eqb nm "img" then Some ["src"] else None;
     removeEmptyAttrs := String.eqb nm "span";
     removeEmpty := false;
     paddEmpty := false;
     outputName := None |}.

Definition schema : Schema :=
  {| getElementRule := λ nm,
       if makeMap ["a"; "img"; "span"; "p"] nm then Some (rule nm) else None;
     schemaChildren := λ _, None;
     isValidChild := λ _ _, true;
     isValid := λ tag attr, makeMap ["href"; "rel"; "target"; "src"; "checked"] attr;
     getBoolAttrs := makeMap ["checked"; "disabled"];
     getBlockElements := makeMap ["p"];
     getWhiteSpaceElements := makeMap ["pre"];
     getNonEmptyElements := makeMap ["img"] |}.

End Strict.

(** ** The registries, as their users see them *)

Section Registries.
Context {Callback : Type}.


(** The first filter of a name in a list of filters. *)
Fixpoint lookupFilter (k : string) (l : list (ParserFilter (Callback:=Callback)))
  : option (list Callback) :=
  match l with
  | [] => None
  | f :: r => if String.eqb (filterName f) k then Some (callbacks f) else lookupFilter k r
  end.

(** The callbacks that a sequence of registrations puts under a name, in
    the order of the registrations; a registration whose list of names
    holds the name twice puts its callback there twice. *)
Definition registeredUnder (isAttribute : bool) (k : string)
    (regs : list (Registration (Callback:=Callback))) : list Callback :=
  flat_map (λ r : Registration (Callback:=Callback),
              if Bool.eqb r.1.1 isAttribute
              then map (λ _, r.2) (filter (λ n, n = k) r.1.2) else [])
    regs.

End Registries.

(** What a name holds after further callbacks have been pushed: nothing
    when there was no entry and nothing is pushed, the old callbacks
    followed by the new ones otherwise. *)
Definition joinCallbacks {C : Type} (old : option (list C)) (new : list C)
  : option (list C) :=
  match old, new with
  | None, [] => None
  | _, _ => Some (default [] old ++ new)
  end.

(** ** What the validation walk records *)

(** The type, value, attributes and raw flag of a node. *)
Definition content (x : AstNode.t)
  : nat * string * option (list (string * string)) * bool :=
  (AstNode.type x, AstNode.value x, AstNode.attributes x, AstNode.raw x).

(** A walk summary over a tree is well kept: every name that has matched
    nodes has node filters, every name that has nodes matched by
    attribute is the name of an attribute filter and its nodes carry
    that attribute, no list of matched nodes is empty, and every recorded
    node is a node of the tree. *)
Definition recordedWell {Callback : Type} (nodeFilters : list (string * list Callback))
    (attributeFilters : list (ParserFilter (Callback:=Callback)))
    (s : Store) (state : WalkResult) : Prop :=
  (∀ k l, lookupKey k (matchedNodes state) = Some l →
          hasKey k nodeFilters = true ∧ l ≠ [] ∧ Forall (λ n, n < length s) l)
  ∧ (∀ k l, lookupKey k (matchedAttributes state) = Some l →
            (∃ f, f ∈ attributeFilters ∧ filterName f = k) ∧ l ≠ []
            ∧ Forall (λ n, ∃ attrs, AstNode.attributesOf s n = Some attrs
                                    ∧ hasAttribute k attrs = true) l)
  ∧ Forall (λ n, n < length s) (invalidChildren state).

(** Settings with validation switched off. *)
Module Lax.
Definition settings : DomParserSettings :=
  {| validate := false; root_name := "body";
     settings_forced_root_block := RBBool false;
     forced_root_block_attrs := []; padd_empty_with_br := false |}.
End Lax.

(** ** Trailing white space, for the second pass *)

Fixpoint endsWithWhiteSpace (s : string) : bool :=
  match s with
  | EmptyString => false
  | String c r =>
      match r with
      | EmptyString => Js.isWhiteSpaceChar c
      | _ => endsWithWhiteSpace r
      end
  end.

(** When [postprocessText] strips the trailing white space of a text
    node: the next sibling has a block-level name, or there is no next
    sibling and the parent is block-level and is not the root, unless the
    call is a root-content parse. *)
Definition stripsTrailing (schema : Schema) (root : NodeId) (args : ParserArgs)
    (s : Store) (node : NodeId) : Prop :=
  (∃ n, AstNode.next s node = Some n ∧ blockLevel schema (AstNode.nameOf s n))
  ∨ (AstNode.next s node = None
     ∧ ∃ p, AstNode.parentOf s node = Some p
            ∧ blockLevel schema (AstNode.nameOf s p)
            ∧ (p ≠ root ∨ isRootContent args = true)).

(** The node filter callbacks called in a trace, in order. *)
Definition nodeCall {Callback : Type} (e : Event (Callback:=Callback))
  : option (string * Callback) :=
  match e with
  | NodeFilterCall name cb _ => Some (name, cb)
  | _ => None
  end.



(** * Properties *)

(** ** The unique id counter of the sanitizer hooks *)

Section UniqueIds.

Lemma numberToString_inj a b :
  Js.numberToString a = Js.numberToString b → a = b.
Proof.
  unfold Js.numberToString. intros H.
  assert (Hu : Nat.to_uint a = Nat.to_uint b).
  { apply (f_equal NilEmpty.uint_of_string) in H.
    rewrite !NilEmpty.usu in H. congruence. }
  apply (f_equal Nat.of_uint) in Hu.
  by rewrite !DecimalNat.Unsigned.of_to in Hu.
Qed.

Lemma uniqueId_inj a b : uniqueId a = uniqueId b → a = b.
Proof.
  unfold uniqueId. intros H. apply numberToString_inj.
  injection H as H. exact H.
Qed.

Lemma idsBetween_refl a : idsBetween a a = [].
Proof. unfold idsBetween. by rewrite Nat.sub_diag. Qed.

Lemma idsBetween_step a : idsBetween a (S a) = [uniqueId a].
Proof. unfold idsBetween. by replace (S a - a) with 1 by lia. Qed.

Lemma idsBetween_app a b c :
  a ≤ b → b ≤ c → idsBetween a b ++ idsBetween b c = idsBetween a c.
Proof.
  intros Hab Hbc. unfold idsBetween. rewrite <- fmap_app. f_equal.
  replace (c - a) with ((b - a) + (c - b)) by lia.
  rewrite seq_app. do 2 f_equal. lia.
Qed.

Lemma idsBetween_NoDup a b : NoDup (idsBetween a b).
Proof.
  unfold idsBetween. apply NoDup_fmap_2; [|apply NoDup_seq].
  intros x y. apply uniqueId_inj.
Qed.

Lemma elem_of_idsBetween a b i :
  i ∈ idsBetween a b ↔ ∃ k, a ≤ k < b ∧ i = uniqueId k.
Proof.
  unfold idsBetween. rewrite list_elem_of_fmap. split.
  - intros (k & -> & Hk). apply elem_of_seq in Hk. exists k. split; [lia|done].
  - intros (k & Hk & ->). exists k. split; [done|]. apply elem_of_seq. lia.
Qed.

Lemma attributeValue_issued a uid v uid' i :
  attributeValue a uid = (v, uid', i) → uid ≤ uid' ∧ i = idsBetween uid uid'.
Proof.
  unfold attributeValue. destruct (String.eqb _ _); intros [= <- <- <-].
  - split; [lia|]. by rewrite idsBetween_step.
  - split; [lia|]. by rewrite idsBetween_refl.
Qed.

Lemma applyForced_issued l : ∀ attrs uid attrs' uid' i,
  applyForced l attrs uid = (attrs', uid', i) →
  uid ≤ uid' ∧ i = idsBetween uid uid'.
Proof.
  induction l as [|a l IH]; intros attrs uid attrs' uid' i; simpl.
  - intros [= <- <- <-]. split; [lia|]. by rewrite idsBetween_refl.
  - destruct (attributeValue a uid) as [[v uid1] i1] eqn:Hv.
    destruct (applyForced l _ uid1) as [[attrs2 uid2] i2] eqn:Hr.
    intros [= <- <- <-].
    apply attributeValue_issued in Hv as [? ->].
    apply IH in Hr as [? ->]. split; [lia|]. by apply idsBetween_app.
Qed.

Lemma applyDefault_issued l : ∀ attrs uid attrs' uid' i,
  applyDefault l attrs uid = (attrs', uid', i) →
  uid ≤ uid' ∧ i = idsBetween uid uid'.
Proof.
  induction l as [|a l IH]; intros attrs uid attrs' uid' i; simpl.
  - intros [= <- <- <-]. split; [lia|]. by rewrite idsBetween_refl.
  - destruct (hasAttribute _ _); [by apply IH|].
    destruct (attributeValue a uid) as [[v uid1] i1] eqn:Hv.
    destruct (applyDefault l _ uid1) as [[attrs2 uid2] i2] eqn:Hr.
    intros [= <- <- <-].
    apply attributeValue_issued in Hv as [? ->].
    apply IH in Hr as [? ->]. split; [lia|]. by apply idsBetween_app.
Qed.

Lemma uponSanitizeElement_issued schema tag allowed attrs uid out uid' :
  uponSanitizeElement schema tag allowed attrs uid = (out, uid') →
  uid ≤ uid' ∧ outIssued out = idsBetween uid uid'.
Proof.
  unfold uponSanitizeElement. destruct (getElementRule schema tag) as [rule|].
  - destruct (applyForced _ attrs uid) as [[attrs1 uid1] i1] eqn:Hf.
    destruct (applyDefault _ attrs1 uid1) as [[attrs2 uid2] i2] eqn:Hd.
    intros [= <- <-]. simpl.
    apply applyForced_issued in Hf as [? ->].
    apply applyDefault_issued in Hd as [? ->].
    split; [lia|]. by apply idsBetween_app.
  - intros [= <- <-]. simpl. split; [lia|]. by rewrite idsBetween_refl.
Qed.

Lemma runSanitizer_issued schema p : ∀ uid body uid' i,
  runSanitizer schema p uid = (body, uid', i) →
  uid ≤ uid' ∧ i = idsBetween uid uid'.
Proof.
  induction p as [body0|tag allowed attrs k IH|tag attr value allowed k IH];
    intros uid body uid' i; simpl.
  - intros [= <- <- <-]. split; [lia|]. by rewrite idsBetween_refl.
  - destruct (uponSanitizeElement schema tag allowed attrs uid) as [out uid1] eqn:Hh.
    destruct (runSanitizer schema (k out) uid1) as [[body1 uid2] i2] eqn:Hr.
    intros [= <- <- <-].
    apply uponSanitizeElement_issued in Hh as [? ->].
    apply IH in Hr as [? ->]. split; [lia|]. by apply idsBetween_app.
  - apply IH.
Qed.

End UniqueIds.

Section Receives.

(** When the turn of a forced attribute with the placeholder comes, the
    element is given the attribute with the id of the counter, and the
    counter moves on. *)
Lemma applyForced_placeholder l1 a l2 : ∀ attrs uid,
  attrValue a = "{$uid}" →
  applyForced (l1 ++ a :: l2) attrs uid =
    (let '(attrs1, uid1, i1) := applyForced l1 attrs uid in
     let '(attrs2, uid2, i2) :=
       applyForced l2 (setAttribute (attrName a) (uniqueId uid1) attrs1) (S uid1) in
     (attrs2, uid2, i1 ++ uniqueId uid1 :: i2)).
Proof.
  intros attrs uid Ha. revert attrs uid.
  induction l1 as [|b l1 IH]; intros attrs uid; simpl.
  - unfold attributeValue. rewrite Ha. simpl.
    by destruct (applyForced l2 _ _) as [[? ?] ?].
  - destruct (attributeValue b uid) as [[v uid0] i0].
    rewrite IH.
    destruct (applyForced l1 _ uid0) as [[attrs1 uid1] i1].
    destruct (applyForced l2 _ _) as [[? ?] ?].
    by rewrite app_assoc.
Qed.

(** The same for a default attribute, when the element does not carry
    the attribute at that moment. *)
Lemma applyDefault_placeholder l1 a l2 : ∀ attrs uid,
  attrValue a = "{$uid}" →
  hasAttribute (attrName a) (applyDefault l1 attrs uid).1.1 = false →
  applyDefault (l1 ++ a :: l2) attrs uid =
    (let '(attrs1, uid1, i1) := applyDefault l1 attrs uid in
     let '(attrs2, uid2, i2) :=
       applyDefault l2 (setAttribute (attrName a) (uniqueId uid1) attrs1) (S uid1) in
     (attrs2, uid2, i1 ++ uniqueId uid1 :: i2)).
Proof.
  intros attrs uid Ha. revert attrs uid.
  induction l1 as [|b l1 IH]; intros attrs uid; simpl.
  - intros ->. unfold attributeValue. rewrite Ha. simpl.
    by destruct (applyDefault l2 _ _) as [[? ?] ?].
  - destruct (hasAttribute (attrName b) attrs); [apply IH|].
    destruct (attributeValue b uid) as [[v uid0] i0].
    intros Hno. rewrite IH.
    + destruct (applyDefault l1 _ uid0) as [[attrs1 uid1] i1].
      destruct (applyDefault l2 _ _) as [[? ?] ?].
      by rewrite app_assoc.
    + by destruct (applyDefault l1 _ uid0) as [[attrs1 uid1] i1].
Qed.

(** A default attribute that the element carries already is passed
    over: nothing is set and the counter stays. *)
Lemma applyDefault_present a l attrs uid :
  hasAttribute (attrName a) attrs = true →
  applyDefault (a :: l) attrs uid = applyDefault l attrs uid.
Proof. intros H. simpl. by rewrite H. Qed.

End Receives.

Section ParseIds.
Context {Callback : Type}.
Variable invoke :
  Callback → list NodeId → string → ParserArgs → Store → Store * list NodeId.
Variable schema : Schema.
Variable settings : DomParserSettings.
Variable isEmpty : Schema → (string → bool) → (string → bool) → Store → NodeId → bool.
Variable isLineBreakNode : Store → option NodeId → (string → bool) → bool.
Variable isPaddedWithNbsp : Store → NodeId → bool.
Variable paddWithBreak :
  DomParserSettings → ParserArgs → (string → bool) → Store → NodeId → bool.
Variable cleanInvalidNodes :
  list NodeId → (NodeId → Store → WalkResult → WalkResult) →
  Store → WalkResult → Store * WalkResult.
Variable purify : string → Sanitizer.

Local Abbreviation parse' :=
  (parse invoke schema settings isEmpty isLineBreakNode isPaddedWithNbsp
     paddWithBreak cleanInvalidNodes purify).
Local Abbreviation parseAll' :=
  (parseAll invoke schema settings isEmpty isLineBreakNode isPaddedWithNbsp
     paddWithBreak cleanInvalidNodes purify).

Lemma parse_issued fuel html args (p : DomParser (Callback:=Callback)) r :
  parse' fuel html args p = Some r →
  uid p ≤ uid (parser r)
  ∧ issued r = idsBetween (uid p) (uid (parser r))
  ∧ nodeFilters (parser r) = nodeFilters p
  ∧ attributeFilters (parser r) = attributeFilters p.
Proof.
  unfold parse. simpl.
  destruct (runSanitizer schema (purify html) (uid p)) as [[element uid1] ids] eqn:Hs.
  apply runSanitizer_issued in Hs as [Hle ->].
  destruct (simplifyDom _ _ _ _ _ _ _ _ _ _) as [s2|]; [|done].
  destruct (walker _ _ _ _ _ _ _) as [[s3 state]|]; [|done].
  destruct (finishParse _ _ _ _ _ _ _ _ _ _) as [[[[s4 state4] args4] trace4]|]; [|done].
  intros [= <-]. by simpl.
Qed.

Lemma parseAll_issued fuel calls : ∀ (p p' : DomParser (Callback:=Callback)) ids,
  parseAll' fuel calls p = Some (p', ids) →
  uid p ≤ uid p' ∧ ids = idsBetween (uid p) (uid p').
Proof.
  induction calls as [|[html args] calls IH]; intros p p' ids; simpl.
  - intros [= <- <-]. split; [lia|]. by rewrite idsBetween_refl.
  - destruct (parse' fuel html args p) as [r|] eqn:Hp; [|done].
    destruct (parseAll' fuel calls (parser r)) as [[p1 ids1]|] eqn:Hr; [|done].
    intros [= <- <-].
    apply parse_issued in Hp as (? & -> & _).
    apply IH in Hr as [? ->]. split; [lia|]. by apply idsBetween_app.
Qed.

Lemma newDomParser_uid (builtin : list (bool * list string * Callback)) :
  uid (newDomParser builtin) = 0.
Proof.
  unfold newDomParser.
  assert (H : ∀ l (p : DomParser (Callback:=Callback)),
             uid (fold_left (λ acc r, register r acc) l p) = uid p).
  { induction l as [|[[isAttr names] cb] l IH]; intros p; [done|].
    simpl. rewrite IH. unfold register.
    destruct isAttr.
    - unfold addAttributeFilter. generalize p.
      induction names as [|n names IHn]; intros q; [done|]. simpl. by rewrite IHn.
    - unfold addNodeFilter. generalize p.
      induction names as [|n names IHn]; intros q; [done|]. simpl. by rewrite IHn. }
  by rewrite H.
Qed.

(** C7 (amended): in the element hook a forced attribute whose declared
    value is the placeholder token, and a default attribute with that
    value which the element does not carry when its turn comes, is set
    to a freshly minted id [mce_<counter>] and the counter moves on by
    one; the ids issued by successive parse calls on one parser instance
    are pairwise distinct, the counter of a later call continues where
    the earlier call left it, and a newly constructed instance starts
    at zero. *)
Theorem unique_ids_per_instance (builtin : list (bool * list string * Callback))
    fuel calls1 calls2 p1 ids1 p2 ids2 :
  parseAll' fuel calls1 (newDomParser builtin) = Some (p1, ids1) →
  parseAll' fuel calls2 p1 = Some (p2, ids2) →
  uid (newDomParser builtin) = 0
  ∧ NoDup (ids1 ++ ids2)
  ∧ ids1 = idsBetween 0 (uid p1)
  ∧ ids2 = idsBetween (uid p1) (uid p2)
  ∧ (∀ l1 a l2 attrs uid,
       attrValue a = "{$uid}" →
       applyForced (l1 ++ a :: l2) attrs uid =
         (let '(attrs1, uid1, i1) := applyForced l1 attrs uid in
          let '(attrs2, uid2, i2) :=
            applyForced l2 (setAttribute (attrName a) (uniqueId uid1) attrs1) (S uid1) in
          (attrs2, uid2, i1 ++ uniqueId uid1 :: i2)))
  ∧ (∀ l1 a l2 attrs uid,
       attrValue a = "{$uid}" →
       hasAttribute (attrName a) (applyDefault l1 attrs uid).1.1 = false →
       applyDefault (l1 ++ a :: l2) attrs uid =
         (let '(attrs1, uid1, i1) := applyDefault l1 attrs uid in
          let '(attrs2, uid2, i2) :=
            applyDefault l2 (setAttribute (attrName a) (uniqueId uid1) attrs1) (S uid1) in
          (attrs2, uid2, i1 ++ uniqueId uid1 :: i2))).
Proof.
  intros H1 H2.
  pose proof (newDomParser_uid builtin) as H0.
  apply parseAll_issued in H1 as [Hle1 ->].
  apply parseAll_issued in H2 as [Hle2 ->].
  rewrite H0 in *.
  split; [done|]. split.
  { rewrite idsBetween_app by done. apply idsBetween_NoDup. }
  split; [done|]. split; [done|]. split.
  - intros. by apply applyForced_placeholder.
  - intros. by apply applyDefault_placeholder.
Qed.

End ParseIds.

Lemma unique_ids_per_instance_witness :
  ∃ p1 ids1 p2 ids2,
    parseAll Sample.invoke Sample.schema Sample.settings Sample.isEmpty
      Sample.isLineBreakNode Sample.isPaddedWithNbsp Sample.paddWithBreak
      Sample.cleanInvalidNodes Sample.purify 20
      [("<a class=c>x</a>", Sample.args)] (newDomParser Sample.builtin) = Some (p1, ids1)
    ∧ parseAll Sample.invoke Sample.schema Sample.settings Sample.isEmpty
        Sample.isLineBreakNode Sample.isPaddedWithNbsp Sample.paddWithBreak
        Sample.cleanInvalidNodes Sample.purify 20
        [("<a class=c>x</a>", Sample.args); ("<tr><td>x</td></tr>", Sample.args)] p1
      = Some (p2, ids2)
    ∧ ids1 ++ ids2 = ["mce_0"; "mce_1"; "mce_2"; "mce_3"]
    ∧ NoDup (ids1 ++ ids2).
Proof.
  eexists _, _, _, _.
  split; [vm_compute; reflexivity|].
  split; [vm_compute; reflexivity|].
  split; [vm_compute; reflexivity|].
  eapply (unique_ids_per_instance Sample.invoke Sample.schema Sample.settings
            Sample.isEmpty Sample.isLineBreakNode Sample.isPaddedWithNbsp
            Sample.paddWithBreak Sample.cleanInvalidNodes Sample.purify
            Sample.builtin 20
            [("<a class=c>x</a>", Sample.args)]
            [("<a class=c>x</a>", Sample.args); ("<tr><td>x</td></tr>", Sample.args)]);
    vm_compute; reflexivity.
Defined.

(** The element [<a title="t">] keeps its title although the rule of [a]
    declares the default attribute [title] with the placeholder. *)
Lemma default_placeholder_passed_over :
  ¬ everyPlaceholderReplaced Sample.schema "a" [("title", "t")] 0.
Proof.
  intros H.
  destruct (H (Sample.rule "a") {| attrName := "title"; attrValue := "{$uid}" |})
    as [k Hk].
  - reflexivity.
  - simpl. right. left.
  - reflexivity.
  - vm_compute in Hk. discriminate Hk.
Qed.

(** ** Reading the store after an update *)

Section StoreLemmas.
Import AstNode.

Lemma lookup_update f n (s : Store) m :
  update f n s !! m = if decide (n = m) then f <$> s !! m else s !! m.
Proof.
  unfold update. case_decide as H.
  - subst. apply list_lookup_alter_eq.
  - by apply list_lookup_alter_ne.
Qed.

Lemma length_update f n (s : Store) : length (update f n s) = length s.
Proof. apply length_alter. Qed.

(** A field that the update function leaves alone reads as before. *)
Lemma field_update {A} (g : t → A) f n (s : Store) m :
  (∀ x, g (f x) = g x) → g <$> update f n s !! m = g <$> s !! m.
Proof.
  intros Hg. rewrite lookup_update. case_decide; [|done].
  destruct (s !! m) as [x|]; [|done]. cbn. f_equal. apply Hg.
Qed.

Lemma field_foldr_update {A} (g : t → A) f (l : list NodeId) (s : Store) m :
  (∀ x, g (f x) = g x) →
  g <$> foldr (λ c acc, update f c acc) s l !! m = g <$> s !! m.
Proof.
  intros Hg. induction l as [|c l IH]; [done|]. simpl.
  by rewrite field_update.
Qed.

Lemma length_foldr_update f (l : list NodeId) (s : Store) :
  length (foldr (λ c acc, update f c acc) s l) = length s.
Proof. induction l as [|c l IH]; [done|]. simpl. by rewrite length_update. Qed.

Lemma parentOf_alt (s : Store) n : parentOf s n = default None (parent <$> s !! n).
Proof. unfold parentOf. by destruct (s !! n). Qed.
Lemma childrenOf_alt (s : Store) n : childrenOf s n = default [] (children <$> s !! n).
Proof. done. Qed.

Lemma length_remove n (s : Store) : length (remove n s) = length s.
Proof. unfold remove. destruct (parentOf s n); [|done]. by rewrite !length_update. Qed.

Lemma length_unwrap n (s : Store) : length (unwrap n s) = length s.
Proof.
  unfold unwrap. destruct (parentOf s n); [|done].
  by rewrite length_update, length_foldr_update, length_update.
Qed.

Lemma length_append p n (s : Store) : length (append p n s) = length s.
Proof. unfold append. by rewrite !length_update, length_remove. Qed.


Lemma length_attrSetAll n kvs : ∀ s : Store, length (attrSetAll n kvs s) = length s.
Proof.
  unfold attrSetAll. induction kvs as [|kv kvs IH]; intros s; [done|].
  simpl. rewrite IH. apply length_update.
Qed.










Lemma lookup_create_old nm ty (s : Store) m :
  m < length s → (create nm ty s).2 !! m = s !! m.
Proof. intros H. simpl. by rewrite lookup_app_l. Qed.

End StoreLemmas.

(** ** The effective root block name *)

Section RootBlockName.
Variable schema : Schema.
Variable settings : DomParserSettings.



End RootBlockName.


(** ** Attribute filters: matching and dispatch *)

Section AttributeFilters.
Context {Callback : Type}.
Variable invoke :
  Callback → list NodeId → string → ParserArgs → Store → Store * list NodeId.





Lemma lookupKey_setKey_ne {V} k k' (v : V) o :
  k ≠ k' → lookupKey k (setKey k' v o) = lookupKey k o.
Proof.
  intros Hne. induction o as [|[k0 v0] o IH]; simpl.
  - destruct (String.eqb_spec k' k); [congruence|done].
  - destruct (String.eqb_spec k0 k') as [->|Hk]; simpl.
    + destruct (String.eqb_spec k' k); [congruence|done].
    + destruct (String.eqb_spec k0 k); [done|apply IH].
Qed.

Lemma lookupKey_setKey_eq {V} k (v : V) o : lookupKey k (setKey k v o) = Some v.
Proof.
  induction o as [|[k0 v0] o IH]; simpl.
  - by rewrite String.eqb_refl.
  - destruct (String.eqb_spec k0 k) as [->|Hk]; simpl.
    + by rewrite String.eqb_refl.
    + destruct (String.eqb_spec k0 k); [done|apply IH].
Qed.








End AttributeFilters.


(** ** Contextual parsing: the repair and the invalid flag *)

Section Contextual.
Context {Callback : Type}.
Variable invoke :
  Callback → list NodeId → string → ParserArgs → Store → Store * list NodeId.
Variable schema : Schema.
Variable settings : DomParserSettings.
Variable isEmpty : Schema → (string → bool) → (string → bool) → Store → NodeId → bool.
Variable isLineBreakNode : Store → option NodeId → (string → bool) → bool.
Variable isPaddedWithNbsp : Store → NodeId → bool.
Variable paddWithBreak :
  DomParserSettings → ParserArgs → (string → bool) → Store → NodeId → bool.
Variable cleanInvalidNodes :
  list NodeId → (NodeId → Store → WalkResult → WalkResult) →
  Store → WalkResult → Store * WalkResult.
Variable purify : string → Sanitizer.

Local Abbreviation parse' :=
  (parse invoke schema settings isEmpty isLineBreakNode isPaddedWithNbsp
     paddWithBreak cleanInvalidNodes purify).
Local Abbreviation walked' :=
  (walked schema settings isEmpty isLineBreakNode isPaddedWithNbsp
     paddWithBreak purify).
Local Abbreviation finishParse' :=
  (finishParse invoke schema settings cleanInvalidNodes).

Lemma parse_walked fuel html args (p : DomParser (Callback:=Callback)) r :
  parse' fuel html args p = Some r →
  ∃ s state,
    walked' fuel html args p = Some (rootNode r, s, state)
    ∧ finishParse' fuel p args (rootNode r) s state
      = Some (store r, summary r, outArgs r, trace r).
Proof.
  unfold parse, walked, normalized. simpl.
  destruct (runSanitizer schema (purify html) (uid p)) as [[element uid1] ids]. simpl.
  destruct (simplifyDom _ _ _ _ _ _ _ _ _ _) as [s2|]; [|done].
  destruct (walker _ _ _ _ _ _ _) as [[s3 state]|]; [|done].
  destruct (finishParse _ _ _ _ _ _ _ _ _ _) as [[[[s4 state4] args4] trace4]|] eqn:Hf;
    [|done].
  intros [= <-]. simpl. by exists s3, state.
Qed.

Lemma isChildOf_spec (s : Store) root c :
  isChildOf s root c = true ↔ AstNode.parentOf s c = Some root.
Proof.
  unfold isChildOf. destruct (AstNode.parentOf s c) as [p|]; [|done].
  rewrite Nat.eqb_eq. split; congruence.
Qed.

Lemma filter_topLevel (s : Store) root (l : list NodeId) :
  filter (λ c, isChildOf s root c = true) l
  = filter (λ c, AstNode.parentOf s c = Some root) l.
Proof. apply list_filter_iff. intros c. apply isChildOf_spec. Qed.





End Contextual.


(** ** White space *)

Section WhiteSpace.

Lemma append_cons c a b : String c a +:+ b = String c (a +:+ b).
Proof. reflexivity. Qed.

Lemma append_nil b : "" +:+ b = b.
Proof. reflexivity. Qed.

Lemma trimStart_leading s : s = leadingWhiteSpace s +:+ Js.trimStart s.
Proof.
  induction s as [|c r IH]; [done|]. simpl.
  destruct (Js.isWhiteSpaceChar c).
  - rewrite append_cons. by f_equal.
  - by rewrite append_nil.
Qed.

Lemma allWhiteSpace_leading s : allWhiteSpace (leadingWhiteSpace s) = true.
Proof.
  induction s as [|c r IH]; [done|]. simpl.
  destruct (Js.isWhiteSpaceChar c) eqn:Hc; simpl; [by rewrite Hc|done].
Qed.

Lemma trimStart_starts s : startsWithWhiteSpace (Js.trimStart s) = false.
Proof.
  induction s as [|c r IH]; [done|]. simpl.
  destruct (Js.isWhiteSpaceChar c) eqn:Hc; [done|]. simpl. by rewrite Hc.
Qed.

Lemma length_trimStart s : String.length (Js.trimStart s) ≤ String.length s.
Proof.
  induction s as [|c r IH]; [done|]. simpl.
  destruct (Js.isWhiteSpaceChar c); simpl; lia.
Qed.

(** Stripping removes a leading run of white space and nothing else. *)
Lemma trimStart_run ws r :
  allWhiteSpace ws = true → startsWithWhiteSpace r = false →
  Js.trimStart (ws +:+ r) = r.
Proof.
  intros Hws Hr. induction ws as [|c ws IH].
  - rewrite append_nil. destruct r as [|c r]; [done|]. simpl in *. by rewrite Hr.
  - rewrite append_cons. simpl in *.
    apply andb_true_iff in Hws as [-> Hws]. by apply IH.
Qed.

Lemma collapseFrom_in_run s :
  Js.collapseFrom true s = Js.collapseFrom false (Js.trimStart s).
Proof.
  induction s as [|c r IH]; [done|]. simpl.
  destruct (Js.isWhiteSpaceChar c) eqn:Hc; [done|]. simpl. by rewrite Hc.
Qed.

(** The replacement of the regular expression [/[ \t\r\n]+/g] by a space
    collapses every maximal run of white space to one space. *)
Lemma collapseWhiteSpace_collapsed v : Collapsed v (Js.collapseWhiteSpace v).
Proof.
  unfold Js.collapseWhiteSpace.
  remember (String.length v) as n eqn:Hn.
  revert v Hn. induction n as [n IH] using lt_wf_ind. intros v Hn.
  destruct v as [|c r]; [constructor|].
  simpl. destruct (Js.isWhiteSpaceChar c) eqn:Hc.
  - rewrite collapseFrom_in_run.
    rewrite (trimStart_leading r) at 1.
    change (String c (leadingWhiteSpace r +:+ Js.trimStart r))
      with (String c (leadingWhiteSpace r) +:+ Js.trimStart r).
    apply Collapsed_run.
    + done.
    + simpl. by rewrite Hc, allWhiteSpace_leading.
    + apply trimStart_starts.
    + eapply (IH (String.length (Js.trimStart r))); [|done].
      subst n. simpl. pose proof (length_trimStart r). lia.
  - apply Collapsed_char; [done|].
    eapply (IH (String.length r)); [|done]. subst n. simpl. lia.
Qed.

(** A collapsed text has no tab, carriage return or line feed left and no
    two spaces in a row. *)
Lemma Collapsed_single_spaces v t :
  Collapsed v t →
  ∀ a c b, t = a +:+ String c b → Js.isWhiteSpaceChar c = true →
           c = " "%char ∧ startsWithWhiteSpace b = false.
Proof.
  induction 1 as [|c0 r t Hc0 Hr IH|ws r t Hne Hws Hst Hr IH]; intros a c b Ht Hc.
  - by destruct a.
  - destruct a as [|a0 a]; simpl in Ht.
    + injection Ht as -> _. congruence.
    + injection Ht as _ Ht. by eapply IH.
  - destruct a as [|a0 a]; simpl in Ht.
    + injection Ht as <- <-. split; [done|].
      inversion Hr as [|c1 r1 t1 Hc1 _|ws1 r1 t1 Hne1 Hws1 _ _]; subst; simpl; try done.
      destruct ws1 as [|w ws1]; [done|]. simpl in *.
      apply andb_true_iff in Hws1 as [Hw _]. congruence.
    + injection Ht as _ Ht. by eapply IH.
Qed.

End WhiteSpace.

(** ** Normalizer pass 1: text nodes *)

Section PreprocessText.
Variable schema : Schema.
Variable isLineBreakNode : Store → option NodeId → (string → bool) → bool.
Variable root : NodeId.
Variable args : ParserArgs.

Lemma makeMap_elem_of names k : makeMap names k = true ↔ k ∈ names.
Proof.
  unfold makeMap. rewrite existsb_exists. split.
  - intros (x & Hin & Hx). apply String.eqb_eq in Hx as ->. by apply list_elem_of_In.
  - intros Hin. exists k. split; [by apply list_elem_of_In|apply String.eqb_refl].
Qed.

Lemma blockElementsOf_blockLevel nm :
  blockElementsOf schema nm = true ↔ blockLevel schema nm.
Proof.
  unfold blockElementsOf, blockLevel. rewrite orb_true_iff, makeMap_elem_of. tauto.
Qed.

Lemma parentOf_remove_self n (s : Store) : AstNode.parentOf (AstNode.remove n s) n = None.
Proof.
  unfold AstNode.remove. destruct (AstNode.parentOf s n) as [p|] eqn:Hp; [|done].
  unfold AstNode.parentOf. rewrite lookup_update. case_decide; [|done].
  by destruct (_ !! n).
Qed.

Lemma valueOf_setValue n v (s : Store) :
  n < length s → AstNode.valueOf (AstNode.update (AstNode.setValue v) n s) n = v.
Proof.
  intros Hn. unfold AstNode.valueOf. rewrite lookup_update. case_decide; [|done].
  by destruct (lookup_lt_is_Some_2 s n Hn) as [x ->].
Qed.

Lemma hasWhitespaceParentFrom_ancestors fuel : ∀ (s : Store) node,
  hasWhitespaceParentFrom schema fuel s node = false →
  ∀ k a, k ≤ fuel → nthAncestor k s node = Some a →
         getWhiteSpaceElements schema (AstNode.nameOf s a) = false.
Proof.
  induction fuel as [|fuel IH]; intros s node H k a Hk Ha.
  - assert (k = 0) as -> by lia. injection Ha as <-.
    simpl in H. by destruct (getWhiteSpaceElements schema _).
  - simpl in H. destruct (getWhiteSpaceElements schema (AstNode.nameOf s node)) eqn:Hw;
      [done|].
    destruct k as [|k]; [by injection Ha as <-|].
    simpl in Ha. destruct (AstNode.parentOf s node) as [p|]; [|done].
    simpl in Ha. eapply (IH s p); [done| |done]. lia.
Qed.

Lemma isAtEdgeOfBlock_start (s : Store) node :
  isAtEdgeOfBlock schema root args s node true = true
  ↔ AstNode.prev s node = None
    ∧ ∃ p, AstNode.parentOf s node = Some p
           ∧ blockLevel schema (AstNode.nameOf s p)
           ∧ (p ≠ root ∨ isRootContent args = true).
Proof.
  unfold isAtEdgeOfBlock. destruct (AstNode.prev s node) as [x|].
  { split; [done|]. by intros [? _]. }
  destruct (AstNode.parentOf s node) as [p|].
  - rewrite andb_true_iff, orb_true_iff, negb_true_iff, Nat.eqb_neq.
    rewrite blockElementsOf_blockLevel. split.
    + intros [? ?]. split; [done|]. by exists p.
    + by intros [_ (? & [= <-] & ? & ?)].
  - split; [done|]. by intros [_ (? & ? & _)].
Qed.

Lemma strips_iff (s : Store) node :
  isLineBreakNode s (AstNode.prev s node) (blockElementsOf schema)
  || isAtEdgeOfBlock schema root args s node true = true
  ↔ stripsLeading schema isLineBreakNode root args s node.
Proof.
  unfold stripsLeading. by rewrite orb_true_iff, isAtEdgeOfBlock_start.
Qed.

(** C4: in pass 1, for a text node without a white space preserving
    ancestor (itself included), every run of space, tab, CR and LF of the
    value is collapsed to a single space; the leading white space is
    stripped as well exactly when the previous sibling is a line break
    equivalent, or there is no previous sibling and the parent is
    block-level (by the schema or the fixed set script, style, head, html,
    body, title, meta, param) and is not the synthetic root unless the
    call is a root-content parse; the node is detached if the resulting
    text is empty, and the resulting text is stored otherwise. *)
Theorem preprocessText_collapses (s : Store) node :
  node < length s →
  hasWhitespaceParent schema s node = false →
  (∀ k a, k ≤ length s → nthAncestor k s node = Some a →
          getWhiteSpaceElements schema (AstNode.nameOf s a) = false)
  ∧ Collapsed (AstNode.valueOf s node) (Js.collapseWhiteSpace (AstNode.valueOf s node))
  ∧ ∃ text,
      (stripsLeading schema isLineBreakNode root args s node →
       text = Js.trimStart (Js.collapseWhiteSpace (AstNode.valueOf s node)))
      ∧ (¬ stripsLeading schema isLineBreakNode root args s node →
         text = Js.collapseWhiteSpace (AstNode.valueOf s node))
      ∧ (text = "" →
         preprocessText schema isLineBreakNode root args node s = AstNode.remove node s
         ∧ AstNode.parentOf (preprocessText schema isLineBreakNode root args node s) node
           = None)
      ∧ (text ≠ "" →
         preprocessText schema isLineBreakNode root args node s
         = AstNode.update (AstNode.setValue text) node s
         ∧ AstNode.valueOf (preprocessText schema isLineBreakNode root args node s) node
           = text).
Proof.
  intros Hnode Hws. split; [|split].
  - intros k a Hk Ha. by eapply hasWhitespaceParentFrom_ancestors.
  - apply collapseWhiteSpace_collapsed.
  - unfold preprocessText. rewrite Hws. simpl.
    pose proof (strips_iff s node) as Hiff.
    destruct (isLineBreakNode s (AstNode.prev s node) (blockElementsOf schema)
              || isAtEdgeOfBlock schema root args s node true) eqn:Hb.
    + exists (Js.trimStart (Js.collapseWhiteSpace (AstNode.valueOf s node))).
      split; [done|]. split; [intros Hn; destruct Hn; by apply Hiff|].
      split.
      * intros ->. simpl. split; [done|]. apply parentOf_remove_self.
      * intros Hne. destruct (Js.trimStart _) as [|c r]; [done|]. simpl.
        split; [done|]. by apply valueOf_setValue.
    + exists (Js.collapseWhiteSpace (AstNode.valueOf s node)).
      split; [intros Hs; apply Hiff in Hs; done|]. split; [done|].
      split.
      * intros ->. simpl. split; [done|]. apply parentOf_remove_self.
      * intros Hne. destruct (Js.collapseWhiteSpace _) as [|c r]; [done|]. simpl.
        split; [done|]. by apply valueOf_setValue.
Qed.

End PreprocessText.

Lemma preprocessText_collapses_witness :
  let s : Store :=
    [AstNode.mk "body" 11 "" None false None [1];
     AstNode.mk "p" 1 "" (Some []) false (Some 0) [2];
     AstNode.mk "#text" 3 "  a   b " None false (Some 1) []] in
  2 < length s
  ∧ hasWhitespaceParent Sample.schema s 2 = false
  ∧ stripsLeading Sample.schema Sample.isLineBreakNode 0 Sample.args s 2
  ∧ AstNode.valueOf
      (preprocessText Sample.schema Sample.isLineBreakNode 0 Sample.args 2 s) 2
    = "a b ".
Proof.
  intros s.
  assert (Hlt : 2 < length s) by (simpl; lia).
  assert (Hws : hasWhitespaceParent Sample.schema s 2 = false) by reflexivity.
  assert (Hst : stripsLeading Sample.schema Sample.isLineBreakNode 0 Sample.args s 2).
  { right. split; [reflexivity|]. exists 1. split; [reflexivity|].
    split; [left; reflexivity|left; lia]. }
  split; [exact Hlt|]. split; [exact Hws|]. split; [exact Hst|].
  destruct (preprocessText_collapses Sample.schema Sample.isLineBreakNode 0 Sample.args
              s 2 Hlt Hws) as (_ & _ & text & Hstrip & _ & _ & Hstore).
  specialize (Hstrip Hst).
  assert (Htext : text = "a b ") by (rewrite Hstrip; reflexivity).
  destruct (Hstore ltac:(rewrite Htext; discriminate)) as [_ Hv].
  rewrite Hv. exact Htext.
Defined.

(** The white space law on a whole parse: the text of [<p>  a  b  </p>]
    comes out as "a b". *)
Example whitespace_law :
  (λ r, AstNode.valueOf (store r) 2) <$>
    Sample.parse 20 "<p>  a  b  </p>" Sample.args Sample.parser
  = Some "a b".
Proof. vm_compute. reflexivity. Qed.

(** ** Normalizer pass 2: elements *)

Section PostprocessElement.
Variable schema : Schema.
Variable settings : DomParserSettings.
Variable isEmpty : Schema → (string → bool) → (string → bool) → Store → NodeId → bool.
Variable isPaddedWithNbsp : Store → NodeId → bool.
Variable paddWithBreak :
  DomParserSettings → ParserArgs → (string → bool) → Store → NodeId → bool.
Variable args : ParserArgs.

Lemma append_detached p c (s : Store) :
  AstNode.parentOf s c = None →
  AstNode.append p c s
  = AstNode.update (AstNode.setParent (Some p)) c
      (AstNode.update (λ x, AstNode.setChildren (AstNode.children x ++ [c]) x) p s).
Proof. intros H. unfold AstNode.append, AstNode.remove. by rewrite H. Qed.

Lemma children_empty n (s : Store) :
  AstNode.children <$> AstNode.empty n s !! n = (λ _, []) <$> s !! n.
Proof.
  unfold AstNode.empty. rewrite lookup_update. case_decide; [|done].
  rewrite <- option_fmap_compose.
  assert (Hl : ∀ l, is_Some (foldr (λ c acc, AstNode.update (AstNode.setParent None) c acc)
                               s l !! n) ↔ is_Some (s !! n)).
  { intros l. by rewrite !lookup_lt_is_Some, length_foldr_update. }
  specialize (Hl (AstNode.childrenOf s n)).
  destruct (foldr _ _ _ !! n), (s !! n); try done.
  - destruct Hl as [Hl _]. by destruct Hl.
  - destruct Hl as [_ Hl]. by destruct Hl.
Qed.

Lemma length_empty n (s : Store) : length (AstNode.empty n s) = length s.
Proof. unfold AstNode.empty. by rewrite length_update, length_foldr_update. Qed.

(** What the padding leaves behind: one fresh child, a break element or
    a text node holding a non-breaking space. *)
Lemma paddEmptyNode_single_child blockElements node (s : Store) :
  node < length s →
  let s' := paddEmptyNode settings paddWithBreak args blockElements node s in
  AstNode.childrenOf s' node = [length s]
  ∧ AstNode.parentOf s' (length s) = Some node
  ∧ AstNode.childrenOf s' (length s) = []
  ∧ (if paddWithBreak settings args blockElements s node
     then AstNode.nameOf s' (length s) = "br" ∧ AstNode.typeOf s' (length s) = 1
     else AstNode.nameOf s' (length s) = "#text" ∧ AstNode.typeOf s' (length s) = 3
          ∧ AstNode.valueOf s' (length s) = nbsp).
Proof.
  intros Hnode. unfold paddEmptyNode.
  pose proof (length_empty node s) as Hlen.
  pose proof (children_empty node s) as Hch.
  destruct (lookup_lt_is_Some_2 s node Hnode) as [x Hx].
  rewrite Hx in Hch. simpl in Hch.
  set (s1 := AstNode.empty node s) in *.
  assert (Hne : node ≠ length s1) by lia.
  destruct (paddWithBreak settings args blockElements s node); simpl.
  - rewrite append_detached
      by (unfold AstNode.parentOf; by rewrite lookup_app_r, Nat.sub_diag by lia).
    unfold AstNode.childrenOf, AstNode.parentOf, AstNode.nameOf, AstNode.typeOf.
    rewrite !lookup_update, <- !Hlen.
    repeat case_decide; try done; try lia.
    rewrite lookup_app_l by lia.
    rewrite !lookup_app_r, !Nat.sub_diag by lia. simpl.
    destruct (s1 !! node) as [y|] eqn:Hy; [|done].
    simpl in *. injection Hch as ->. done.
  - rewrite append_detached.
    2:{ unfold AstNode.parentOf. rewrite lookup_update.
        case_decide; by rewrite lookup_app_r, Nat.sub_diag by lia. }
    unfold AstNode.childrenOf, AstNode.parentOf, AstNode.nameOf, AstNode.typeOf,
      AstNode.valueOf.
    rewrite !lookup_update, <- !Hlen.
    repeat case_decide; try done; try lia.
    rewrite lookup_app_l by lia.
    rewrite !lookup_app_r, !Nat.sub_diag by lia. simpl.
    destruct (s1 !! node) as [y|] eqn:Hy; [|done].
    simpl in *. injection Hch as ->. done.
Qed.

(** C3: in pass 2, for an element that has a schema rule: when the rule
    says remove-when-empty and the element is empty, it is removed if its
    name is block-level and unwrapped otherwise, and nothing is padded;
    else, when the rule says pad-when-empty and the element is empty or
    padded with a non-breaking space only, its content becomes a single
    padding child, a break element or a text node with a non-breaking
    space as the configuration asks, and the element is neither removed
    nor unwrapped; else the element is left as it is. *)
Theorem postprocessElement_cases node (s : Store) rule :
  node < length s →
  getElementRule schema (AstNode.nameOf s node) = Some rule →
  let s' := postprocessElement schema settings isEmpty isPaddedWithNbsp paddWithBreak
              args node s in
  let empty := isEmpty schema (getNonEmptyElements schema) (getWhiteSpaceElements schema)
                 s node in
  (removeEmpty rule = true → empty = true →
     length s' = length s
     ∧ s' = if blockElementsOf schema (AstNode.nameOf s node)
            then AstNode.remove node s else AstNode.unwrap node s)
  ∧ (removeEmpty rule && empty = false → paddEmpty rule = true →
     empty = true ∨ isPaddedWithNbsp s node = true →
     s' = paddEmptyNode settings paddWithBreak args (blockElementsOf schema) node s
     ∧ AstNode.childrenOf s' node = [length s]
     ∧ AstNode.parentOf s' (length s) = Some node
     ∧ (if paddWithBreak settings args (blockElementsOf schema) s node
        then AstNode.nameOf s' (length s) = "br" ∧ AstNode.typeOf s' (length s) = 1
        else AstNode.nameOf s' (length s) = "#text" ∧ AstNode.typeOf s' (length s) = 3
             ∧ AstNode.valueOf s' (length s) = nbsp))
  ∧ (removeEmpty rule && empty = false →
     paddEmpty rule && (empty || isPaddedWithNbsp s node) = false →
     s' = s).
Proof.
  intros Hnode Hrule s' empty. subst s' empty.
  unfold postprocessElement. rewrite Hrule. simpl.
  split; [|split].
  - intros -> ->. simpl.
    destruct (blockElementsOf schema _); [by rewrite length_remove|by rewrite length_unwrap].
  - intros -> -> Hor.
    assert (isEmpty schema (getNonEmptyElements schema) (getWhiteSpaceElements schema) s node
            || isPaddedWithNbsp s node = true) as ->
      by (apply orb_true_iff; tauto).
    simpl. split; [done|].
    pose proof (paddEmptyNode_single_child (blockElementsOf schema) node s Hnode)
      as (? & ? & _ & ?).
    done.
  - by intros -> ->.
Qed.

End PostprocessElement.

Lemma postprocessElement_cases_witness :
  let s : Store :=
    [AstNode.mk "body" 11 "" None false None [1];
     AstNode.mk "p" 1 "" (Some []) false (Some 0) []] in
  let s' := postprocessElement Sample.schema Sample.settings Sample.isEmpty
              Sample.isPaddedWithNbsp Sample.paddWithBreak Sample.args 1 s in
  1 < length s
  ∧ getElementRule Sample.schema (AstNode.nameOf s 1) = Some (Sample.rule "p")
  ∧ AstNode.childrenOf s' 1 = [2]
  ∧ AstNode.nameOf s' 2 = "#text" ∧ AstNode.valueOf s' 2 = nbsp.
Proof.
  intros s s'.
  assert (Hlt : 1 < length s) by (simpl; lia).
  assert (Hrule : getElementRule Sample.schema (AstNode.nameOf s 1)
                  = Some (Sample.rule "p")) by reflexivity.
  split; [exact Hlt|]. split; [exact Hrule|].
  destruct (postprocessElement_cases Sample.schema Sample.settings Sample.isEmpty
              Sample.isPaddedWithNbsp Sample.paddWithBreak Sample.args 1 s
              (Sample.rule "p") Hlt Hrule) as (_ & Hpad & _).
  destruct Hpad as (_ & Hc & _ & Hk); [reflexivity|reflexivity|left; reflexivity|].
  split; [exact Hc|]. simpl in Hk. destruct Hk as (Hn & _ & Hv).
  split; [exact Hn|exact Hv].
Defined.

(** ** Links after unwrapping *)

Section Unwrap.
Import AstNode.

Lemma after_elem_of x : ∀ l y, after x l = Some y → y ∈ l.
Proof.
  induction l as [|z l IH]; intros y; simpl; [done|].
  destruct (z =? x).
  - destruct l as [|w l]; [done|]. intros [= <-]. right. left.
  - intros H. right. by apply IH.
Qed.

Lemma next_attached (s : Store) n x :
  childrenLinked s → next s n = Some x → is_Some (parentOf s x).
Proof.
  intros Hl. unfold next. destruct (parentOf s n) as [p|]; [|done]. simpl.
  intros H. apply after_elem_of in H. rewrite (Hl _ _ H). by eexists.
Qed.

Lemma walkUp_attached (s : Store) fuel : ∀ n x,
  childrenLinked s → walkUp fuel s n = Some x → is_Some (parentOf s x).
Proof.
  induction fuel as [|fuel IH]; intros n x Hl; simpl.
  - destruct (next s n) eqn:Hn; [|done]. intros [= <-]. by eapply next_attached.
  - destruct (next s n) eqn:Hn.
    + intros [= <-]. by eapply next_attached.
    + destruct (parentOf s n); [|done]. by apply IH.
Qed.

(** What [walk] returns has a parent. *)
Lemma walk_attached (s : Store) n x :
  childrenLinked s → walk s n = Some x → is_Some (parentOf s x).
Proof.
  intros Hl. unfold walk, firstChild.
  destruct (childrenOf s n) as [|c cs] eqn:Hc; simpl.
  - by apply walkUp_attached.
  - intros [= <-]. rewrite (Hl n c); [by eexists|]. rewrite Hc. left.
Qed.

Lemma parentOf_update f n (s : Store) m :
  parentOf (update f n s) m
  = if decide (n = m) then s !! m ≫= (λ x, parent (f x)) else parentOf s m.
Proof.
  unfold parentOf. rewrite lookup_update. case_decide; [|done]. by destruct (s !! m).
Qed.

Lemma childrenOf_update f n (s : Store) m :
  childrenOf (update f n s) m
  = if decide (n = m) then default [] ((λ x, children (f x)) <$> s !! m)
    else childrenOf s m.
Proof.
  unfold childrenOf. rewrite lookup_update. case_decide; [|done]. by destruct (s !! m).
Qed.

Lemma parentOf_foldr_setParent v (l : list NodeId) (s : Store) m :
  parentOf (foldr (λ c acc, update (setParent v) c acc) s l) m
  = if decide (m ∈ l ∧ m < length s) then v else parentOf s m.
Proof.
  induction l as [|c l IH]; cbn [foldr].
  - rewrite decide_False; [done|]. intros [H _]. by apply not_elem_of_nil in H.
  - rewrite parentOf_update.
    destruct (decide (c = m)) as [->|Hne].
    + destruct (foldr _ _ _ !! m) as [y|] eqn:Hy; simpl.
      * apply lookup_lt_Some in Hy. rewrite length_foldr_update in Hy.
        rewrite decide_True; [done|]. split; [left|done].
      * apply lookup_ge_None in Hy. rewrite length_foldr_update in Hy.
        rewrite decide_False by lia.
        unfold parentOf. by rewrite (lookup_ge_None_2 s m).
    + rewrite IH. apply decide_ext. rewrite elem_of_cons. naive_solver.
Qed.

Lemma elem_of_splice x cs l c :
  c ∈ splice x cs l ↔ (c ∈ cs ∧ x ∈ l) ∨ (c ∈ l ∧ c ≠ x).
Proof.
  unfold splice. induction l as [|z l IH]; simpl.
  - rewrite !elem_of_nil. naive_solver.
  - rewrite elem_of_app, IH, !elem_of_cons.
    destruct (z =? x) eqn:Hz.
    + apply Nat.eqb_eq in Hz as ->. naive_solver.
    + apply Nat.eqb_neq in Hz. rewrite list_elem_of_singleton. naive_solver.
Qed.

Lemma childrenOf_foldr_setParent v (l : list NodeId) (s : Store) m :
  childrenOf (foldr (λ c acc, update (setParent v) c acc) s l) m = childrenOf s m.
Proof. unfold childrenOf. by rewrite field_foldr_update. Qed.

Lemma childrenOf_unwrap x p (s : Store) m :
  parentOf s x = Some p →
  childrenOf (unwrap x s) m
  = if decide (m = x) then []
    else if decide (m = p) then splice x (childrenOf s x) (childrenOf s p)
    else childrenOf s m.
Proof.
  intros Hp. unfold unwrap. rewrite Hp.
  rewrite childrenOf_update.
  destruct (decide (x = m)) as [->|Hne].
  - rewrite decide_True by done. by destruct (_ !! m).
  - rewrite decide_False by done.
    rewrite childrenOf_foldr_setParent, childrenOf_update.
    destruct (decide (p = m)) as [->|Hnp].
    + rewrite decide_True by done. unfold childrenOf. by destruct (s !! m).
    + by rewrite decide_False by done.
Qed.

Lemma parentOf_unwrap x p (s : Store) m :
  parentOf s x = Some p →
  parentOf (unwrap x s) m
  = if decide (m = x) then None
    else if decide (m ∈ childrenOf s x ∧ m < length s) then Some p
    else parentOf s m.
Proof.
  intros Hp. unfold unwrap. rewrite Hp.
  rewrite parentOf_update.
  destruct (decide (x = m)) as [->|Hne].
  - rewrite decide_True by done. by destruct (_ !! m).
  - rewrite decide_False by done.
    rewrite parentOf_foldr_setParent, length_update.
    case_decide; [done|].
    rewrite parentOf_update. case_decide; [|done]. unfold parentOf. by destruct (s !! m).
Qed.

End Unwrap.

(** ** The validation walk never reaches the root *)

Section WalkerRoot.
Context {Callback : Type}.
Variable schema : Schema.
Variable settings : DomParserSettings.
Variable nodeFilters : list (string * list Callback).
Variable attributeFilters : list (ParserFilter (Callback:=Callback)).
Variable root : NodeId.

Lemma childrenLinked_unwrap x (s : Store) :
  childrenLinked s → childrenLinked (AstNode.unwrap x s).
Proof.
  intros Hl. destruct (AstNode.parentOf s x) as [p|] eqn:Hp.
  2:{ unfold AstNode.unwrap. by rewrite Hp. }
  intros q c. rewrite (childrenOf_unwrap x p), (parentOf_unwrap x p) by done.
  destruct (decide (q = x)) as [->|Hqx]; [by intros ?%not_elem_of_nil|].
  assert (Hcs : ∀ c, c ∈ AstNode.childrenOf s x → c ≠ x ∨ p = x).
  { intros c' Hc'. destruct (decide (c' = x)) as [->|]; [|by left].
    right. apply Hl in Hc'. congruence. }
  assert (Hin : ∀ c, c ∈ AstNode.childrenOf s x → c < length s).
  { intros c' Hc'. apply Hl in Hc'. unfold AstNode.parentOf in Hc'.
    destruct (s !! c') eqn:E; [|done]. by apply lookup_lt_Some in E. }
  destruct (decide (q = p)) as [->|Hqp].
  - rewrite elem_of_splice. intros [[Hc _]|[Hc Hne]].
    + destruct (Hcs c Hc) as [?|?]; [|congruence].
      rewrite decide_False by done. rewrite decide_True; [done|]. split; [done|by apply Hin].
    + rewrite decide_False by done. case_decide; [done|]. by apply Hl.
  - intros Hc. pose proof (Hl _ _ Hc) as Hpc.
    rewrite decide_False by congruence.
    rewrite decide_False; [done|]. intros [Hc' _]. apply Hl in Hc'. congruence.
Qed.

Lemma childrenLinked_setName v n (s : Store) :
  childrenLinked s → childrenLinked (AstNode.update (AstNode.setName v) n s).
Proof.
  intros Hl p c. rewrite childrenOf_update, parentOf_update.
  intros Hc.
  assert (c ∈ AstNode.childrenOf s p) as Hc'.
  { destruct (decide (n = p)); [|done]. unfold AstNode.childrenOf.
    by destruct (s !! p). }
  apply Hl in Hc'. destruct (decide (n = c)); [|done].
  unfold AstNode.parentOf in Hc'. by destruct (s !! c).
Qed.

Lemma name_unwrap x (s : Store) m :
  AstNode.name <$> AstNode.unwrap x s !! m = AstNode.name <$> s !! m.
Proof.
  unfold AstNode.unwrap. destruct (AstNode.parentOf s x); [|done].
  by rewrite field_update, field_foldr_update, field_update.
Qed.

Lemma lookupKey_pushMatch k k' n (m : list (string * list NodeId)) l :
  lookupKey k (pushMatch k' n m) = Some l →
  (∃ l0, l = l0 ++ [n] ∧ (l0 = [] ∨ lookupKey k m = Some l0)) ∨ lookupKey k m = Some l.
Proof.
  unfold pushMatch. destruct (decide (k = k')) as [->|Hne].
  - destruct (lookupKey k' m) as [l0|] eqn:Hl0; rewrite lookupKey_setKey_eq;
      intros [= <-]; left.
    + exists l0. eauto.
    + exists []. eauto.
  - destruct (lookupKey k' m); rewrite lookupKey_setKey_ne by done; eauto.
Qed.

Lemma clean_pushMatch k n m : n ≠ root → clean root m → clean root (pushMatch k n m).
Proof.
  intros Hn Hm k' l Hl. apply lookupKey_pushMatch in Hl as [(l0 & -> & Hl0)|Hl].
  - rewrite not_elem_of_app, list_elem_of_singleton. split; [|congruence].
    destruct Hl0 as [->|Hl0]; [apply not_elem_of_nil|by eapply Hm].
  - by eapply Hm.
Qed.

Lemma clean_matchAttributes n attrs : ∀ i m,
  n ≠ root → clean root m → clean root (matchAttributes i attributeFilters attrs n m).
Proof.
  induction i as [|i IH]; intros m Hn Hm; [done|]. simpl.
  apply IH; [done|].
  destruct (attributeFilters !! i) as [f|]; [|done].
  destruct (hasAttribute _ _); [by apply clean_pushMatch|done].
Qed.

Lemma notRecorded_walkerCheck (s : Store) n state :
  n ≠ root → notRecorded root state →
  notRecorded root (walkerCheck schema nodeFilters attributeFilters s n state).
Proof.
  intros Hn (Hi & Hm & Ha).
  assert (notRecorded root (filterNode n nodeFilters attributeFilters s state)) as Hf.
  { unfold filterNode. split; [done|]. simpl. split.
    - destruct (hasKey _ _); [by apply clean_pushMatch|done].
    - destruct (AstNode.attributesOf s n); [by apply clean_matchAttributes|done]. }
  unfold walkerCheck. destruct (AstNode.parentOf s n); [|done].
  destruct (isInvalidChild _ _ _ _); [|done].
  destruct Hf as (Hi' & Hm' & Ha'). split; [|done]. simpl.
  rewrite not_elem_of_app, list_elem_of_singleton. split; [done|congruence].
Qed.

Lemma rootKept_check name0 (s1 : Store) n state :
  childrenLinked s1 → AstNode.parentOf s1 root = None →
  AstNode.nameOf s1 root = name0 → notRecorded root state → n ≠ root →
  rootKept root name0 (s1, n, walkerCheck schema nodeFilters attributeFilters s1 n state).
Proof.
  intros. split; [done|]. split; [done|]. split; [done|].
  by apply notRecorded_walkerCheck.
Qed.

Lemma rootKept_rename name0 (s : Store) n out state :
  childrenLinked s → AstNode.parentOf s root = None →
  AstNode.nameOf s root = name0 → notRecorded root state → n ≠ root →
  rootKept root name0
    (AstNode.update (AstNode.setName out) n s, n,
     walkerCheck schema nodeFilters attributeFilters
       (AstNode.update (AstNode.setName out) n s) n state).
Proof.
  intros Hl Hr Hn Hs Hne. apply rootKept_check; try done.
  - by apply childrenLinked_setName.
  - rewrite parentOf_update. by rewrite decide_False by done.
  - unfold AstNode.nameOf in *. rewrite lookup_update. by rewrite decide_False by done.
Qed.

Lemma rootKept_step name0 (s : Store) node state x :
  rootKept root name0 (s, node, state) →
  walkerStep schema settings nodeFilters attributeFilters s node state = Some x →
  rootKept root name0 x.
Proof.
  intros (Hl & Hr & Hn & Hs). unfold walkerStep.
  destruct (AstNode.walk s node) as [n|] eqn:Hw; [|done].
  destruct (walk_attached s node n Hl Hw) as [p Hp].
  assert (Hne : n ≠ root) by (intros ->; simpl in Hr; congruence).
  simpl in *.
  destruct (AstNode.typeOf s n =? 1).
  - destruct (if validate settings then _ else _) as [rule|].
    + intros [= <-].
      destruct (outputName rule) as [out|]; [destruct (Js.truthy out)|].
      * by apply rootKept_rename.
      * by apply rootKept_check.
      * by apply rootKept_check.
    + intros [= <-]. split; [|split; [|split]]; simpl.
      * by apply childrenLinked_unwrap.
      * rewrite (parentOf_unwrap n p) by done.
        rewrite decide_False by done. rewrite decide_False; [done|].
        intros [Hc _]. apply Hl in Hc. congruence.
      * unfold AstNode.nameOf in *. by rewrite name_unwrap.
      * done.
  - intros [= <-]. by apply rootKept_check.
Qed.

Lemma rootKept_reaches name0 x y :
  walkerReaches schema settings nodeFilters attributeFilters x y →
  rootKept root name0 x → rootKept root name0 y.
Proof.
  induction 1 as [x|s node state x y Hstep _ IH]; [done|].
  intros Hk. apply IH. by eapply rootKept_step.
Qed.

Lemma walkerLoop_reaches fuel : ∀ (s : Store) node state s' state',
  walkerLoop schema settings fuel nodeFilters attributeFilters s node state
    = Some (s', state') →
  ∃ node', walkerReaches schema settings nodeFilters attributeFilters
             (s, node, state) (s', node', state')
           ∧ AstNode.walk s' node' = None.
Proof.
  induction fuel as [|fuel IH]; intros s node state s' state'; simpl.
  - destruct (walkerStep _ _ _ _ _ _ _) as [[[s1 n1] st1]|] eqn:Hs; [done|].
    intros [= <- <-]. exists node. split; [constructor|].
    unfold walkerStep in Hs. destruct (AstNode.walk s node); [|done].
    destruct (_ =? 1); [destruct (if validate settings then _ else _)|]; done.
  - destruct (walkerStep _ _ _ _ _ _ _) as [[[s1 n1] st1]|] eqn:Hs.
    + intros H. apply IH in H as (node' & Hr & Hw). exists node'.
      split; [|done]. by eapply walkerReaches_step.
    + intros [= <- <-]. exists node. split; [constructor|].
      unfold walkerStep in Hs. destruct (AstNode.walk s node); [|done].
      destruct (_ =? 1); [destruct (if validate settings then _ else _)|]; done.
Qed.

(** The root is never the node of a turn of the loop: in every state
    that the loop reaches from a root without a parent, the node of the
    next turn is not the root, the root has kept its name and has not
    been detached, and it is neither in [invalidChildren] nor in a list of
    [matchedNodes] or [matchedAttributes]; so it is with the summary that
    [walker] returns. *)
Lemma walker_keeps_root (s : Store) :
  childrenLinked s →
  AstNode.parentOf s root = None →
  (∀ s' node state,
     walkerReaches schema settings nodeFilters attributeFilters
       (s, root, emptyWalkResult) (s', node, state) →
     AstNode.walk s' node ≠ Some root
     ∧ AstNode.nameOf s' root = AstNode.nameOf s root
     ∧ AstNode.parentOf s' root = None
     ∧ notRecorded root state)
  ∧ (∀ fuel s' state,
       walker schema settings fuel root nodeFilters attributeFilters s = Some (s', state) →
       AstNode.nameOf s' root = AstNode.nameOf s root
       ∧ notRecorded root state).
Proof.
  intros Hl Hr.
  assert (H0 : rootKept root (AstNode.nameOf s root) (s, root, emptyWalkResult)).
  { split; [done|]. split; [done|]. split; [done|].
    split; [apply not_elem_of_nil|]. by split. }
  split.
  - intros s' node state Hreach.
    destruct (rootKept_reaches _ _ _ Hreach H0) as (Hl' & Hr' & Hn' & Hs').
    simpl in *. split; [|done].
    intros Hw. destruct (walk_attached s' node root Hl' Hw) as [p Hp]. congruence.
  - intros fuel s' state Hw. unfold walker in Hw.
    apply walkerLoop_reaches in Hw as (node' & Hreach & _).
    destruct (rootKept_reaches _ _ _ Hreach H0) as (_ & _ & Hn' & Hs'). done.
Qed.

End WalkerRoot.

Lemma childrenLinked_check (s : Store) :
  Forall (λ p, Forall (λ c, AstNode.parentOf s c = Some p) (AstNode.childrenOf s p))
    (seq 0 (length s)) →
  childrenLinked s.
Proof.
  intros H p c Hc. rewrite Forall_forall in H.
  destruct (decide (p < length s)) as [Hp|Hp].
  - specialize (H p ltac:(apply elem_of_seq; lia)).
    rewrite Forall_forall in H. by apply H.
  - unfold AstNode.childrenOf in Hc. rewrite lookup_ge_None_2 in Hc by lia.
    by apply elem_of_nil in Hc.
Qed.

(** ** Unwrapping an unknown element and resuming the walk *)

Section ResumeAfterUnwrap.
Import AstNode.
Variable s : Store.
Hypothesis Hcl : childrenLinked s.
Hypothesis Hpl : parentsLinked s.
Hypothesis Hnd : childrenDistinct s.
Hypothesis Hor : ordered s.
Variable node q : NodeId.
Hypothesis Hq : parentOf s node = Some q.
Variable c1 : NodeId.
Variable cs : list NodeId.
Hypothesis Hcs : childrenOf s node = c1 :: cs.















End ResumeAfterUnwrap.

Lemma wellFormedb_sound (s : Store) : wellFormedb s = true → wellFormed s.
Proof.
  unfold wellFormedb. rewrite forallb_forall. intros H.
  assert (Hn : ∀ n, n < length s →
     (∀ c, c ∈ AstNode.childrenOf s n → AstNode.parentOf s c = Some n)
     ∧ (∀ p, AstNode.parentOf s n = Some p → n ∈ AstNode.childrenOf s p ∧ p < n)
     ∧ NoDup (AstNode.childrenOf s n)).
  { intros n Hlt. specialize (H n ltac:(apply in_seq; lia)).
    apply andb_true_iff in H as [H Hd]. apply andb_true_iff in H as [Hc Hp].
    split; [|split].
    - intros c Hin. rewrite forallb_forall in Hc.
      specialize (Hc c ltac:(by apply list_elem_of_In)).
      destruct (AstNode.parentOf s c) as [p|]; [|done].
      apply Nat.eqb_eq in Hc. by subst.
    - intros p Hpn. rewrite Hpn in Hp. apply andb_true_iff in Hp as [He Hdp].
      apply existsb_exists in He as (x & Hx & Hxn). apply Nat.eqb_eq in Hxn.
      apply Nat.ltb_lt in Hdp.
      subst x. split; [by apply list_elem_of_In|done].
    - by apply bool_decide_eq_true in Hd. }
  assert (Hout : ∀ n, ¬ n < length s →
     AstNode.childrenOf s n = [] ∧ AstNode.parentOf s n = None).
  { intros n Hge. unfold AstNode.childrenOf, AstNode.parentOf.
    by rewrite lookup_ge_None_2 by lia. }
  split; [|split; [|split]].
  - intros p c Hc. destruct (decide (p < length s)) as [Hlt|Hge].
    + by apply (Hn p Hlt).
    + destruct (Hout p Hge) as [Hp _]. rewrite Hp in Hc. by apply elem_of_nil in Hc.
  - intros c p Hp. destruct (decide (c < length s)) as [Hlt|Hge].
    + by apply (Hn c Hlt).
    + destruct (Hout c Hge) as [_ Hc]. congruence.
  - intros p. destruct (decide (p < length s)) as [Hlt|Hge].
    + by apply (Hn p Hlt).
    + destruct (Hout p Hge) as [-> _]. constructor.
  - intros c p Hp. destruct (decide (c < length s)) as [Hlt|Hge].
    + by apply (Hn c Hlt).
    + destruct (Hout c Hge) as [_ Hc]. congruence.
Qed.

Section UnknownElements.
Context {Callback : Type}.
Variable schema : Schema.
Variable settings : DomParserSettings.
Variable nodeFilters : list (string * list Callback).
Variable attributeFilters : list (ParserFilter (Callback:=Callback)).


End UnknownElements.

(** The unknown-tag law on a whole parse without root blocks: the text of
    [<foo>text</foo>] is a child of the root. *)
Example unknown_tag_law :
  (λ r, (AstNode.nameOf (store r) 2, AstNode.valueOf (store r) 2,
         AstNode.parentOf (store r) 2, AstNode.childrenOf (store r) 0)) <$>
    Sample.parse 20 "<foo>text</foo>"
      {| context := None; isRootContent := false;
         forced_root_block := Some (RBBool false); invalid := false |}
      Sample.parser
  = Some ("#text", "text", Some 0, [2]).
Proof. vm_compute. reflexivity. Qed.

(** ** The tree importer *)

Section Importer.
Import AstNode.

Lemma transferChildren_unfold parent nm ty attrs d cs (s : Store) :
  transferChildren parent (Native nm ty attrs d cs) s
  = transferEach (isSpecialName (nameOf s parent)) parent cs s.
Proof.
  unfold transferEach. simpl.
  generalize (isSpecialName (nameOf s parent)) as b. intros b.
  revert s. induction cs as [|nc cs IH]; intros s; [done|].
  simpl. unfold transferOne at 2. simpl.
  destruct (NodeType.isElement nc); [by rewrite IH|].
  destruct (_ || _ || _ || _); by rewrite IH.
Qed.

Lemma update_snoc f (s : Store) x : update f (length s) (s ++ [x]) = s ++ [f x].
Proof.
  unfold update. replace (length s) with (length s + 0) by lia.
  by rewrite alter_app_r.
Qed.

Lemma copyAttributes_snoc attrs : ∀ (s : Store) x l,
  attributes x = Some l →
  copyAttributes (length s) attrs (s ++ [x])
  = s ++ [setAttributes (Some (fold_left (λ l a, assocSet a.1 a.2 l) attrs l)) x].
Proof.
  unfold copyAttributes. induction attrs as [|a attrs IH]; intros s x l Hx; simpl.
  - destruct x. simpl in Hx. by subst.
  - unfold attrSet at 2. rewrite update_snoc, Hx. by rewrite (IH _ _ (assocSet a.1 a.2 l)).
Qed.

Lemma Forall2_impl_elem {A B} (R R' : A → B → Prop) l k :
  Forall2 R l k → (∀ x y, x ∈ l → y ∈ k → R x y → R' x y) → Forall2 R' l k.
Proof.
  induction 1 as [|x y l k Hxy _ IH]; intros H; constructor.
  - apply H; [left|left|done].
  - apply IH. intros x' y' Hx' Hy'. apply H; by right.
Qed.

(** A node stands for the same native node in every store that agrees
    on the nodes below it. *)
Lemma Represents_frame (s s' : Store) lo hi :
  (∀ m, lo ≤ m < hi → s' !! m = s !! m) →
  (∀ e c, lo ≤ e < hi → c ∈ childrenOf s e → lo ≤ c < hi) →
  ∀ n c, lo ≤ c < hi → Represents s c n → Represents s' c n.
Proof.
  intros Hsame Hclosed.
  induction n as [nm ty attrs d cs IH] using NativeNode_forall_ind.
  intros c Hc Hr. inversion Hr as [c0 n0 Hname Htype Hattr Hval Hch]; subst.
  assert (Heq : s' !! c = s !! c) by by apply Hsame.
  constructor.
  - unfold nameOf in *. by rewrite Heq.
  - unfold typeOf in *. by rewrite Heq.
  - unfold attributesOf in *. by rewrite Heq.
  - unfold valueOf in *. by rewrite Heq.
  - unfold childrenOf at 1. rewrite Heq. fold (childrenOf s c).
    eapply Forall2_impl_elem; [exact Hch|].
    intros x y Hx Hy Hxy. simpl in Hy. apply list_elem_of_filter in Hy as [_ Hy].
    rewrite Forall_forall in IH. apply (IH y Hy); [|done]. by eapply Hclosed.
Qed.

Lemma setChildren_id x : setChildren (children x ++ []) x = x.
Proof. destruct x. unfold setChildren. simpl. by rewrite app_nil_r. Qed.

Lemma childrenOf_out (s : Store) e : length s ≤ e → childrenOf s e = [].
Proof. intros H. unfold childrenOf. by rewrite lookup_ge_None_2. Qed.

Lemma Imported_nil b parent (s : Store) : Imported b parent [] s s.
Proof.
  split; [done|]. split; [done|]. split.
  - exists []. split; [|by repeat constructor].
    destruct (s !! parent) as [x|]; [|done]. simpl. by rewrite setChildren_id.
  - intros e He. rewrite !(childrenOf_out s e) by done. split.
    + by intros c ?%elem_of_nil.
    + intros _ c Hc. unfold childrenOf in Hc. rewrite lookup_ge_None_2 in Hc by done.
      by apply elem_of_nil in Hc.
Qed.

Lemma same_fields (s s' : Store) m :
  s' !! m = s !! m →
  nameOf s' m = nameOf s m ∧ typeOf s' m = typeOf s m ∧ rawOf s' m = rawOf s m
  ∧ childrenOf s' m = childrenOf s m.
Proof. intros H. unfold nameOf, typeOf, rawOf, childrenOf. by rewrite H. Qed.

Lemma Imported_app b parent l1 l2 (sa sb sc : Store) :
  parent < length sa →
  Imported b parent l1 sa sb → Imported b parent l2 sb sc →
  Imported b parent (l1 ++ l2) sa sc.
Proof.
  intros Hp (Hlen1 & Hfr1 & (cs1 & Hpar1 & Hrg1 & Hrep1 & Hraw1) & Hnew1)
            (Hlen2 & Hfr2 & (cs2 & Hpar2 & Hrg2 & Hrep2 & Hraw2) & Hnew2).
  assert (Hkeep : ∀ m, length sa ≤ m < length sb → sc !! m = sb !! m).
  { intros m Hm. apply Hfr2; lia. }
  split; [lia|]. split; [|split].
  - intros m Hm Hne. rewrite Hfr2 by (done || lia). by apply Hfr1.
  - exists (cs1 ++ cs2). split; [|split; [|split]].
    + rewrite Hpar2, Hpar1. destruct (sa !! parent) as [x|]; [|done]. simpl.
      f_equal. destruct x. unfold setChildren. simpl. by rewrite app_assoc.
    + apply Forall_app. split.
      * eapply Forall_impl; [exact Hrg1|]. simpl. intros; lia.
      * eapply Forall_impl; [exact Hrg2|]. simpl. intros; lia.
    + rewrite filter_app. apply Forall2_app; [|done].
      rewrite Forall_forall in Hrg1.
      eapply Forall2_impl_elem; [exact Hrep1|].
      intros c n Hc _ Hr.
      eapply (Represents_frame sb sc (length sa) (length sb)); try done.
      * intros e c' He Hc'. destruct (Hnew1 e ltac:(lia)) as [Hin _]. by apply Hin.
      * by apply Hrg1.
    + intros Hb. apply Forall_app. split; [|by apply Hraw2].
      specialize (Hraw1 Hb). rewrite Forall_forall in Hraw1, Hrg1.
      apply Forall_forall. intros c Hc.
      destruct (same_fields sb sc c (Hkeep c (Hrg1 c Hc))) as (_ & -> & -> & _).
      by apply Hraw1.
  - intros e He. destruct (decide (e < length sb)) as [Hlt|Hge].
    + destruct (same_fields sb sc e (Hkeep e ltac:(lia))) as (-> & _ & _ & Hch).
      destruct (Hnew1 e He) as [Hin Hru]. split.
      * intros c Hc. rewrite Hch in Hc. apply Hin in Hc. lia.
      * intros Hs c Hc. rewrite Hch in Hc.
        destruct (same_fields sb sc c (Hkeep c (Hin c Hc))) as (_ & -> & -> & _).
        by apply Hru.
    + destruct (Hnew2 e ltac:(lia)) as [Hin Hru]. split; [|done].
      intros c Hc. apply Hin in Hc. lia.
Qed.

(** Linking a freshly created child, once its own children are in. *)
Lemma link_imported b parent nc (s : Store) rec :
  parent < length s → handled nc = true → importsWell nc →
  name rec = Js.toLowerCase (nodeName nc) → type rec = nodeType nc →
  AstNode.parent rec = None → children rec = [] →
  (NodeType.isElement nc = true →
   attributes rec = Some (fold_left (λ l a, assocSet a.1 a.2 l) (nativeAttributes nc) [])) →
  (isTextLike (nodeType nc) = true → value rec = data nc) →
  (b = true → isTextLike (type rec) = true → raw rec = true) →
  Imported b parent [nc] s
    (append parent (length s) (transferChildren (length s) nc (s ++ [rec]))).
Proof.
  intros Hp Hh IH Hname Htype Hparent Hchildren Hattr Hval Hraw.
  set (child := length s). set (s2 := s ++ [rec]).
  assert (Hl2 : length s2 = S (length s)) by (subst s2; rewrite length_app; simpl; lia).
  assert (Hc2 : s2 !! child = Some rec).
  { subst s2 child. by rewrite lookup_app_r, Nat.sub_diag by lia. }
  destruct (IH child s2 ltac:(lia))
    as (Hlen & Hfr & (cs & Hpar & Hrg & Hrep & Hrawc) & Hnew).
  set (s3 := transferChildren child nc s2) in *.
  rewrite Hc2 in Hpar. simpl in Hpar. rewrite Hchildren in Hpar. simpl in Hpar.
  assert (Hne : parent ≠ child) by (subst child; lia).
  assert (Hp3 : s3 !! parent = s !! parent).
  { rewrite Hfr by (done || lia). subst s2. by rewrite lookup_app_l by lia. }
  rewrite append_detached by (unfold parentOf; rewrite Hpar; simpl; by destruct rec).
  set (s4 := update _ child _).
  assert (Hl4 : length s4 = length s3) by (subst s4; by rewrite !length_update).
  assert (H4c : s4 !! child = Some (setParent (Some parent) (setChildren cs rec))).
  { subst s4. rewrite lookup_update, decide_True by done.
    rewrite lookup_update, decide_False by done. by rewrite Hpar. }
  assert (H4p : s4 !! parent
                = (λ x, setChildren (children x ++ [child]) x) <$> s !! parent).
  { subst s4. rewrite lookup_update, decide_False by done.
    rewrite lookup_update, decide_True by done. by rewrite Hp3. }
  assert (H4o : ∀ m, m ≠ child → m ≠ parent → s4 !! m = s3 !! m).
  { intros m H1 H2. subst s4. by rewrite !lookup_update, !decide_False by done. }
  assert (Hkeep : ∀ m, length s2 ≤ m < length s3 → s4 !! m = s3 !! m).
  { intros m Hm. apply H4o; subst child; lia. }
  assert (Hclosed : ∀ e c, length s2 ≤ e < length s3 → c ∈ childrenOf s3 e →
                           length s2 ≤ c < length s3).
  { intros e c He Hc. destruct (Hnew e ltac:(lia)) as [Hin _]. by apply Hin. }
  assert (Hch4 : childrenOf s4 child = cs) by (unfold childrenOf; by rewrite H4c).
  assert (Hcs4 : Forall (λ c, isTextLike (typeOf s4 c) = true → rawOf s4 c = true) cs
                 ∨ isSpecialName (nameOf s4 child) = false).
  { destruct (isSpecialName (nameOf s4 child)) eqn:Hs; [left|by right].
    assert (isSpecialName (nameOf s2 child) = true) as Hs2.
    { unfold nameOf in *. rewrite H4c in Hs. by rewrite Hc2. }
    specialize (Hrawc Hs2). rewrite Forall_forall in Hrawc, Hrg.
    apply Forall_forall. intros c Hc.
    destruct (same_fields s3 s4 c (Hkeep c (Hrg c Hc))) as (_ & -> & -> & _).
    by apply Hrawc. }
  split; [lia|]. split; [|split].
  - intros m Hm Hmp. rewrite H4o by (done || subst child; lia).
    rewrite Hfr by (subst child; lia). subst s2. by rewrite lookup_app_l.
  - exists [child]. split; [done|]. split; [|split].
    + constructor; [subst child; lia|constructor].
    + simpl. rewrite filter_cons_True by done. rewrite filter_nil.
      constructor; [|constructor]. constructor.
      * unfold nameOf. by rewrite H4c.
      * unfold typeOf. by rewrite H4c.
      * unfold attributesOf. rewrite H4c. simpl. exact Hattr.
      * unfold valueOf. rewrite H4c. simpl. exact Hval.
      * rewrite Hch4. rewrite Forall_forall in Hrg.
        eapply Forall2_impl_elem; [exact Hrep|]. intros c n Hc _ Hr.
        eapply (Represents_frame s3 s4 (length s2) (length s3)); try done.
        by apply Hrg.
    + intros Hb. constructor; [|constructor].
      unfold typeOf, rawOf. rewrite H4c. simpl. by apply Hraw.
  - intros e He. destruct (decide (e = child)) as [->|Hec].
    + rewrite Hch4. split.
      * intros c Hc. rewrite Forall_forall in Hrg. apply Hrg in Hc. lia.
      * intros Hs c Hc. destruct Hcs4 as [Hall|Hno]; [|congruence].
        rewrite Hch4 in Hc. rewrite Forall_forall in Hall. by apply Hall.
    + assert (length s2 ≤ e) as He2 by (subst child; lia).
      destruct (Hnew e He2) as [Hin Hru].
      destruct (decide (e < length s3)) as [Hlt|Hge].
      * destruct (same_fields s3 s4 e (Hkeep e ltac:(lia))) as (Hnm & _ & _ & Hch).
        split.
        -- intros c Hc. rewrite Hch in Hc. apply Hin in Hc. lia.
        -- intros Hs c Hc. rewrite Hnm in Hs. rewrite Hch in Hc.
           destruct (same_fields s3 s4 c (Hkeep c (Hin c Hc))) as (_ & -> & -> & _).
           by apply Hru.
      * rewrite (childrenOf_out s4 e) by lia. split.
        -- by intros c ?%elem_of_nil.
        -- intros _ c Hc. rewrite (childrenOf_out s4 e) in Hc by lia.
           by apply elem_of_nil in Hc.
Qed.

Lemma transferOne_imported b parent nc (s : Store) :
  importsWell nc → parent < length s →
  Imported b parent [nc] s (transferOne b parent nc s).
Proof.
  intros IH Hp. unfold transferOne, create.
  destruct (NodeType.isElement nc) eqn:He.
  - assert (nodeType nc = 1) as Hty by (by apply Nat.eqb_eq in He).
    rewrite Hty. simpl.
    rewrite (copyAttributes_snoc _ _ _ []) by done.
    apply link_imported; try done.
    + unfold handled. by rewrite He.
    + simpl. by rewrite Hty.
  - destruct (NodeType.isComment nc || NodeType.isText nc
              || NodeType.isCData nc || NodeType.isPi nc) eqn:Ht.
    + rewrite update_snoc.
      assert (∃ rec, (if b then update (setRaw true) (length s)
                                 (s ++ [setValue (data nc)
                                          (mk (Js.toLowerCase (nodeName nc)) (nodeType nc) ""
                                             (if nodeType nc =? 1 then Some [] else None)
                                             false None [])])
                      else s ++ [setValue (data nc)
                                   (mk (Js.toLowerCase (nodeName nc)) (nodeType nc) ""
                                      (if nodeType nc =? 1 then Some [] else None)
                                      false None [])]) = s ++ [rec]
                     ∧ name rec = Js.toLowerCase (nodeName nc)
                     ∧ type rec = nodeType nc ∧ AstNode.parent rec = None
                     ∧ children rec = [] ∧ value rec = data nc
                     ∧ (b = true → raw rec = true)) as (rec & -> & ? & ? & ? & ? & ? & ?).
      { destruct b.
        - rewrite update_snoc. eexists. split; [done|]. by repeat split.
        - eexists. split; [done|]. by repeat split. }
      apply link_imported; try done.
      * unfold handled. by rewrite He, <- !orb_assoc, orb_false_l, !orb_assoc.
      * by rewrite He.
      * auto.
    + split; [rewrite length_app; simpl; lia|]. split; [|split].
      * intros m Hm _. by rewrite lookup_app_l.
      * exists []. split; [|split; [|split]].
        -- rewrite lookup_app_l by done.
           destruct (s !! parent) as [x|]; [|done]. simpl. by rewrite setChildren_id.
        -- constructor.
        -- simpl. rewrite filter_cons_False; [constructor|].
           unfold handled. rewrite He. simpl. rewrite Ht. done.
        -- intros _. constructor.
      * intros e He'.
        assert (childrenOf (s ++ [mk (Js.toLowerCase (nodeName nc)) (nodeType nc) ""
                                    (if nodeType nc =? 1 then Some [] else None)
                                    false None []]) e = []) as Hch.
        { unfold childrenOf. destruct (decide (e = length s)) as [->|Hne].
          - by rewrite lookup_app_r, Nat.sub_diag by lia.
          - rewrite lookup_ge_None_2; [done|]. rewrite length_app. simpl. lia. }
        split.
        -- intros c Hc. rewrite Hch in Hc. by apply elem_of_nil in Hc.
        -- intros _ c Hc. rewrite Hch in Hc. by apply elem_of_nil in Hc.
Qed.

Lemma transferEach_imported b parent cs : ∀ s : Store,
  Forall importsWell cs → parent < length s →
  Imported b parent cs s (transferEach b parent cs s).
Proof.
  induction cs as [|nc cs IH]; intros s Hall Hp; [apply Imported_nil|].
  apply Forall_cons in Hall as [Hnc Hall].
  pose proof (transferOne_imported b parent nc s Hnc Hp) as H1.
  change (transferEach b parent (nc :: cs) s)
    with (transferEach b parent cs (transferOne b parent nc s)).
  apply (Imported_app b parent [nc] cs s (transferOne b parent nc s)); [done|exact H1|].
  apply IH; [done|]. destruct H1 as [Hlen _]. lia.
Qed.

(** The importer transcribes the native children of the five handled
    kinds, in order and at every depth, and nothing else. *)
Lemma transferChildren_importsWell n : importsWell n.
Proof.
  induction n as [nm ty attrs d cs IH] using NativeNode_forall_ind.
  intros parent s Hp. rewrite transferChildren_unfold. simpl.
  by apply transferEach_imported.
Qed.

End Importer.

(** C8 (amended): the importer is a total function; under a freshly
    created parent it transcribes, at every depth, exactly the native
    nodes of the five handled kinds (element, text, comment, CDATA,
    processing instruction), in order, so that a native node of any
    other type is left out together with what is below it; and every
    text-like node that is a direct child of an imported node named
    [script] or [style] (or of such a parent) has [raw] set to [true]. *)
Theorem importer_drops_and_marks_raw parent native (s : Store) :
  parent < length s →
  AstNode.childrenOf s parent = [] →
  Forall2 (Represents (transferChildren parent native s))
    (AstNode.childrenOf (transferChildren parent native s) parent)
    (filter (λ x, handled x = true) (childNodes native))
  ∧ (∀ pre bad post,
       childNodes native = pre ++ bad :: post → handled bad = false →
       Forall2 (Represents (transferChildren parent native s))
         (AstNode.childrenOf (transferChildren parent native s) parent)
         (filter (λ x, handled x = true) (pre ++ post)))
  ∧ (∀ e, e = parent ∨ length s ≤ e →
          isSpecialName (AstNode.nameOf (transferChildren parent native s) e) = true →
          rawUnder (transferChildren parent native s) e).
Proof.
  intros Hp Hch.
  destruct (transferChildren_importsWell native parent s Hp)
    as (Hlen & Hfr & (cs & Hpar & Hrg & Hrep & Hraw) & Hnew).
  set (s' := transferChildren parent native s) in *.
  assert (Hcs : AstNode.childrenOf s' parent = cs).
  { unfold AstNode.childrenOf in *. rewrite Hpar.
    destruct (s !! parent) as [x|] eqn:Hx; simpl in *.
    - by rewrite Hch.
    - apply lookup_ge_None in Hx. lia. }
  assert (Hnm : AstNode.nameOf s' parent = AstNode.nameOf s parent).
  { unfold AstNode.nameOf. rewrite Hpar. by destruct (s !! parent). }
  split; [by rewrite Hcs|]. split.
  - intros pre bad post Hsplit Hbad. rewrite Hcs.
    rewrite Hsplit in Hrep. rewrite filter_app, filter_cons_False in Hrep by congruence.
    by rewrite filter_app.
  - intros e [->|He] Hs.
    + rewrite Hnm in Hs. specialize (Hraw Hs). rewrite Forall_forall in Hraw.
      intros c Hc. rewrite Hcs in Hc. by apply Hraw.
    + by apply (Hnew e He).
Qed.

Lemma importer_drops_and_marks_raw_witness :
  let s : Store := [AstNode.mk "body" 11 "" None false None []] in
  let native :=
    Sample.body [Native "html" 10 [] "" [];
                 Sample.element "STYLE" [] [Sample.text "p { }"];
                 Sample.text "x"] in
  0 < length s
  ∧ AstNode.childrenOf s 0 = []
  ∧ AstNode.childrenOf (transferChildren 0 native s) 0 = [2; 4]
  ∧ AstNode.nameOf (transferChildren 0 native s) 2 = "style"
  ∧ AstNode.rawOf (transferChildren 0 native s) 3 = true
  ∧ AstNode.rawOf (transferChildren 0 native s) 4 = false.
Proof.
  intros s native.
  assert (Hlt : 0 < length s) by (simpl; lia).
  assert (Hch : AstNode.childrenOf s 0 = []) by reflexivity.
  split; [exact Hlt|]. split; [exact Hch|].
  destruct (importer_drops_and_marks_raw 0 native s Hlt Hch) as (_ & _ & Hraw).
  split; [reflexivity|]. split; [reflexivity|]. split; [|reflexivity].
  apply (Hraw 2); [right; simpl; lia|reflexivity| |reflexivity].
  vm_compute. left.
Defined.

(** A text below an element inside [style] is not marked raw: only the
    name of the direct parent is looked at. *)
Lemma nested_text_not_raw :
  ¬ rawBelowSpecial
      (transferChildren 0
         (Sample.body
            [Sample.element "style" [] [Sample.element "g" [] [Sample.text "x"]]])
         [AstNode.mk "body" 11 "" None false None []]).
Proof.
  intros H. specialize (H 1 3 eq_refl eq_refl).
  assert (Hd : 3 ∈ descendants 4 (transferChildren 0
                (Sample.body
                   [Sample.element "style" [] [Sample.element "g" [] [Sample.text "x"]]])
                [AstNode.mk "body" 11 "" None false None []]) 1).
  { vm_compute. right. left. }
  specialize (H Hd eq_refl). vm_compute in H. discriminate H.
Qed.

(** ** Links after removing, appending and inserting *)

Section Links.
Import AstNode.

Lemma childrenOf_setParent v c (s : Store) m :
  childrenOf (update (setParent v) c s) m = childrenOf s m.
Proof. unfold childrenOf. by rewrite field_update. Qed.

Lemma childrenOf_remove n p (s : Store) m :
  parentOf s n = Some p →
  childrenOf (remove n s) m
  = if decide (m = p) then filter (λ c, c ≠ n) (childrenOf s p) else childrenOf s m.
Proof.
  intros Hp. unfold remove. rewrite Hp, childrenOf_setParent, childrenOf_update.
  destruct (decide (p = m)) as [->|Hne].
  - rewrite decide_True by done. unfold childrenOf. by destruct (s !! m).
  - by rewrite decide_False by done.
Qed.

Lemma parentOf_remove n (s : Store) m :
  parentOf (remove n s) m = if decide (m = n) then None else parentOf s m.
Proof.
  destruct (decide (m = n)) as [->|Hne]; [apply parentOf_remove_self|].
  unfold remove. destruct (parentOf s n) as [p|]; [|done].
  rewrite parentOf_update, decide_False by done.
  rewrite parentOf_update. case_decide; [|done]. unfold parentOf. by destruct (s !! m).
Qed.

Lemma childrenOf_append p c (s : Store) m :
  p < length s →
  childrenOf (append p c s) m
  = if decide (m = p) then childrenOf (remove c s) p ++ [c] else childrenOf (remove c s) m.
Proof.
  intros Hp. unfold append. rewrite childrenOf_setParent, childrenOf_update.
  destruct (decide (p = m)) as [->|Hne].
  - rewrite decide_True by done. unfold childrenOf.
    destruct (lookup_lt_is_Some_2 (remove c s) m) as [x ->]; [|done].
    by rewrite length_remove.
  - by rewrite decide_False by done.
Qed.

Lemma parentOf_append p c (s : Store) m :
  c < length s →
  parentOf (append p c s) m = if decide (m = c) then Some p else parentOf (remove c s) m.
Proof.
  intros Hc. unfold append. rewrite parentOf_update.
  destruct (decide (c = m)) as [->|Hne].
  - rewrite decide_True by done.
    destruct (lookup_lt_is_Some_2
                (update (λ x, setChildren (children x ++ [m]) x) p (remove m s)) m)
      as [x ->]; [|done].
    by rewrite length_update, length_remove.
  - rewrite decide_False by done. rewrite parentOf_update.
    case_decide; [|done]. unfold parentOf. by destruct (_ !! m).
Qed.






Lemma parent_in_store (s : Store) c p : parentOf s c = Some p → c < length s.
Proof.
  unfold parentOf. destruct (s !! c) eqn:E; [|done]. intros _.
  by apply lookup_lt_Some in E.
Qed.

(** Relinking leaves the tags alone. *)
Lemma tag_remove n (s : Store) m : tag <$> remove n s !! m = tag <$> s !! m.
Proof. unfold remove. destruct (parentOf s n); [|done]. by rewrite !field_update. Qed.

Lemma tag_append p n (s : Store) m : tag <$> append p n s !! m = tag <$> s !! m.
Proof. unfold append. by rewrite !field_update, tag_remove. Qed.


Lemma tag_fields (s s' : Store) m :
  tag <$> s' !! m = tag <$> s !! m →
  nameOf s' m = nameOf s m ∧ typeOf s' m = typeOf s m
  ∧ attributesOf s' m = attributesOf s m.
Proof.
  unfold nameOf, typeOf, attributesOf, tag.
  destruct (s' !! m) as [x|], (s !! m) as [y|]; simpl; try done.
  by intros [= -> -> ->].
Qed.

End Links.

(** ** Root block wrapping *)

Section RootBlockWrapping.
Import AstNode.
Variable schema : Schema.
Variable settings : DomParserSettings.

Lemma remove_detached n (s : Store) : parentOf s n = None → remove n s = s.
Proof. intros H. unfold remove. by rewrite H. Qed.

Lemma attrTruthy_false (s : Store) node k :
  attrTruthy s node k = false ↔ attr s node k = None ∨ attr s node k = Some "".
Proof.
  unfold attrTruthy. destruct (attr s node k) as [[|c v]|]; simpl; naive_solver.
Qed.


Lemma trim_children rb (s : Store) m : childrenOf (trim rb s) m = childrenOf s m.
Proof.
  unfold trim, trimLast, trimFirst. destruct rb as [rb|]; [|done].
  assert (H : ∀ (s0 : Store) o f,
             childrenOf (match o with
                         | Some node =>
                             if typeOf s0 node =? 3
                             then update (λ x, setValue (f (value x)) x) node s0 else s0
                         | None => s0
                         end) m = childrenOf s0 m).
  { intros s0 o f. destruct o as [n|]; [|done]. destruct (_ =? 3); [|done].
    unfold childrenOf. by rewrite field_update. }
  by rewrite !H.
Qed.



Lemma trimFirst_frame rb (s : Store) :
  length (trimFirst rb s) = length s
  ∧ (∀ m, tag <$> trimFirst rb s !! m = tag <$> s !! m)
  ∧ (∀ m, parentOf (trimFirst rb s) m = parentOf s m).
Proof.
  unfold trimFirst. destruct (firstChild s rb) as [n|]; [|done].
  destruct (_ =? 3); [|done].
  split; [apply length_update|]. split; intros m.
  - by rewrite field_update.
  - rewrite !parentOf_alt. by rewrite field_update.
Qed.

Lemma trimLast_frame rb (s : Store) :
  length (trimLast rb s) = length s
  ∧ (∀ m, tag <$> trimLast rb s !! m = tag <$> s !! m)
  ∧ (∀ m, parentOf (trimLast rb s) m = parentOf s m).
Proof.
  unfold trimLast. destruct (lastChild s rb) as [n|]; [|done].
  destruct (_ =? 3); [|done].
  split; [apply length_update|]. split; intros m.
  - by rewrite field_update.
  - rewrite !parentOf_alt. by rewrite field_update.
Qed.

Lemma length_trim rb (s : Store) : length (trim rb s) = length s.
Proof.
  unfold trim. destruct rb as [rb|]; [|done].
  destruct (trimLast_frame rb (trimFirst rb s)) as (-> & _).
  by destruct (trimFirst_frame rb s) as (-> & _).
Qed.

Lemma trim_frame root node rb (s : Store) : stepFrame root node None s (trim rb s).
Proof.
  assert (H : length (trim rb s) = length s
              ∧ (∀ m, tag <$> trim rb s !! m = tag <$> s !! m)
              ∧ (∀ m, parentOf (trim rb s) m = parentOf s m)).
  { unfold trim. destruct rb as [rb|]; [|done].
    destruct (trimLast_frame rb (trimFirst rb s)) as (Hl & Ht & Hp).
    destruct (trimFirst_frame rb s) as (Hl' & Ht' & Hp').
    split; [congruence|]. split; intros m; [by rewrite Ht|by rewrite Hp]. }
  destruct H as (Hl & Ht & Hp).
  split; [lia|]. split; [by intros|]. split; [by intros|].
  intros m _ _ _. apply trim_children.
Qed.






End RootBlockWrapping.


(** The root wrapping law on a whole parse: [text<p>x</p>text2] with the
    root block "p" comes out as three paragraphs under the root. *)
Example root_wrapping_law :
  (λ r, (AstNode.nameOf (store r) <$> AstNode.childrenOf (store r) 0,
         (λ c, AstNode.valueOf (store r) <$> AstNode.childrenOf (store r) c)
           <$> AstNode.childrenOf (store r) 0)) <$>
    Sample.parse 20 "text<p>x</p>text2" Sample.args Sample.parser
  = Some (["p"; "p"; "p"], [["text"]; ["x"]; ["text2"]]).
Proof. vm_compute. reflexivity. Qed.

(** ** The operations keep the store well-formed *)

Section WellFormed.
Import AstNode.

Lemma parentOf_out (s : Store) e : length s ≤ e → parentOf s e = None.
Proof. intros H. unfold parentOf. by rewrite lookup_ge_None_2. Qed.

Lemma wellFormed_links (s s' : Store) :
  (∀ m, parentOf s' m = parentOf s m) → (∀ m, childrenOf s' m = childrenOf s m) →
  wellFormed s → wellFormed s'.
Proof.
  intros Hp Hc (Hcl & Hpl & Hnd & Hor). split; [|split; [|split]].
  - intros p c. rewrite Hc, Hp. apply Hcl.
  - intros c p. rewrite Hc, Hp. apply Hpl.
  - intros p. rewrite Hc. apply Hnd.
  - intros c p. rewrite Hp. apply Hor.
Qed.

(** An update that leaves the links of the node alone. *)
Lemma wellFormed_fields f n (s : Store) :
  (∀ x, parent (f x) = parent x) → (∀ x, children (f x) = children x) →
  wellFormed s → wellFormed (update f n s).
Proof.
  intros Hp Hc. apply wellFormed_links.
  - intros m. unfold parentOf. rewrite lookup_update. case_decide; [|done].
    destruct (s !! m); simpl; [by rewrite Hp|done].
  - intros m. unfold childrenOf. by rewrite field_update.
Qed.

Lemma wellFormed_create x (s : Store) :
  parent x = None → children x = [] → wellFormed s → wellFormed (s ++ [x]).
Proof.
  intros Hxp Hxc (Hcl & Hpl & Hnd & Hor).
  assert (Hp : ∀ m, parentOf (s ++ [x]) m = parentOf s m).
  { intros m. unfold parentOf. destruct (decide (m < length s)) as [Hlt|Hge].
    - by rewrite lookup_app_l.
    - rewrite (lookup_ge_None_2 s m) by lia. destruct (decide (m = length s)) as [->|].
      + by rewrite lookup_app_r, Nat.sub_diag by lia.
      + rewrite lookup_ge_None_2; [done|]. rewrite length_app. simpl. lia. }
  assert (Hc : ∀ m, childrenOf (s ++ [x]) m = childrenOf s m).
  { intros m. unfold childrenOf. destruct (decide (m < length s)) as [Hlt|Hge].
    - by rewrite lookup_app_l.
    - rewrite (lookup_ge_None_2 s m) by lia. destruct (decide (m = length s)) as [->|].
      + rewrite lookup_app_r, Nat.sub_diag by lia. simpl. by rewrite Hxc.
      + rewrite lookup_ge_None_2; [done|]. rewrite length_app. simpl. lia. }
  by apply (wellFormed_links s).
Qed.

Lemma wellFormed_remove n (s : Store) : wellFormed s → wellFormed (remove n s).
Proof.
  intros Hwf. destruct (parentOf s n) as [p|] eqn:Hp.
  2:{ by rewrite remove_detached. }
  destruct Hwf as (Hcl & Hpl & Hnd & Hor). split; [|split; [|split]].
  - intros q c. rewrite (childrenOf_remove n p), parentOf_remove by done.
    destruct (decide (q = p)) as [->|Hq].
    + intros [Hne Hc]%list_elem_of_filter. rewrite decide_False by done. by apply Hcl.
    + intros Hc. pose proof (Hcl _ _ Hc). rewrite decide_False; [done|]. congruence.
  - intros c q. rewrite (childrenOf_remove n p), parentOf_remove by done.
    destruct (decide (c = n)) as [->|Hc]; [done|]. intros Hq.
    pose proof (Hpl _ _ Hq). case_decide; [|done]. subst.
    by apply list_elem_of_filter.
  - intros q. rewrite (childrenOf_remove n p) by done.
    case_decide; [apply NoDup_filter|]; apply Hnd.
  - intros c q. rewrite parentOf_remove. case_decide; [done|]. apply Hor.
Qed.

Lemma NoDup_splice x cs (l : list NodeId) :
  NoDup l → NoDup cs → (∀ c, c ∈ cs → c ∉ l) → NoDup (splice x cs l).
Proof.
  intros Hl Hcs Hdis. unfold splice. induction l as [|z l IH]; [constructor|].
  apply NoDup_cons in Hl as [Hz Hl]. simpl.
  assert (Hdis' : ∀ c, c ∈ cs → c ∉ l).
  { intros c Hc Hin. apply (Hdis c Hc). by right. }
  apply NoDup_app. split; [|split].
  - destruct (z =? x); [done|]. apply NoDup_singleton.
  - intros c Hc Hin. fold (splice x cs l) in Hin. apply elem_of_splice in Hin.
    destruct (z =? x) eqn:E.
    + destruct Hin as [[_ Hxl]|[Hcl _]].
      * apply Nat.eqb_eq in E. subst. done.
      * by apply (Hdis' c).
    + apply list_elem_of_singleton in Hc. subst c.
      destruct Hin as [[Hzc _]|[Hzl _]]; [|done].
      apply (Hdis z Hzc). left.
  - by apply IH.
Qed.

Lemma wellFormed_unwrap x (s : Store) : wellFormed s → wellFormed (unwrap x s).
Proof.
  intros Hwf. destruct (parentOf s x) as [p|] eqn:Hp.
  2:{ unfold unwrap. by rewrite Hp. }
  pose proof Hwf as (Hcl & Hpl & Hnd & Hor).
  pose proof (Hor _ _ Hp) as Hpx.
  assert (Hcs : ∀ c, c ∈ childrenOf s x → parentOf s c = Some x ∧ x < c ∧ c < length s).
  { intros c Hc. apply Hcl in Hc. split; [done|]. split; [by apply Hor|].
    by eapply parent_in_store. }
  split; [by apply childrenLinked_unwrap|]. split; [|split].
  - intros c q. rewrite (childrenOf_unwrap x p), (parentOf_unwrap x p) by done.
    destruct (decide (c = x)) as [->|Hcx]; [done|].
    destruct (decide (c ∈ childrenOf s x ∧ c < length s)) as [[Hc _]|Hno].
    + intros [= <-]. rewrite decide_False by lia. rewrite decide_True by done.
      apply elem_of_splice. left. split; [done|]. by apply Hpl.
    + intros Hq. pose proof (Hpl _ _ Hq) as Hin.
      destruct (decide (q = x)) as [->|Hqx].
      { destruct Hno. split; [done|]. by eapply parent_in_store. }
      case_decide; [|done]. subst. apply elem_of_splice. by right.
  - intros q. rewrite (childrenOf_unwrap x p) by done.
    case_decide; [constructor|]. case_decide; [|apply Hnd].
    apply NoDup_splice; [apply Hnd|apply Hnd|].
    intros c Hc Hin. apply Hcs in Hc as (Hc & _). apply Hcl in Hin. subst. 
    assert (x = p) by congruence. lia.
  - intros c q. rewrite (parentOf_unwrap x p) by done.
    case_decide; [done|]. case_decide as Hc; [|apply Hor].
    intros [= <-]. destruct Hc as [Hc _]. apply Hcs in Hc. lia.
Qed.

(** Appending a detached node that was created after the parent. *)
Lemma wellFormed_append p c (s : Store) :
  parentOf s c = None → c < length s → p < length s → p < c →
  wellFormed s → wellFormed (append p c s).
Proof.
  intros Hc Hlc Hlp Hpc (Hcl & Hpl & Hnd & Hor).
  assert (Hch : ∀ m, childrenOf (append p c s) m
                     = if decide (m = p) then childrenOf s p ++ [c] else childrenOf s m).
  { intros m. rewrite childrenOf_append by done. by rewrite remove_detached. }
  assert (Hpa : ∀ m, parentOf (append p c s) m
                     = if decide (m = c) then Some p else parentOf s m).
  { intros m. rewrite parentOf_append by done. by rewrite remove_detached. }
  assert (Hnot : ∀ q, c ∉ childrenOf s q).
  { intros q Hin. apply Hcl in Hin. congruence. }
  split; [|split; [|split]].
  - intros q c'. rewrite Hch, Hpa. destruct (decide (q = p)) as [->|Hq].
    + rewrite elem_of_app, list_elem_of_singleton. intros [Hin| ->].
      * rewrite decide_False; [by apply Hcl|]. intros ->. by apply (Hnot p).
      * by rewrite decide_True.
    + intros Hin. rewrite decide_False; [by apply Hcl|]. intros ->. by apply (Hnot q).
  - intros c' q. rewrite Hch, Hpa. destruct (decide (c' = c)) as [->|Hne].
    + intros [= <-]. rewrite decide_True by done. apply elem_of_app. right. left.
    + intros Hq. apply Hpl in Hq. case_decide; [|done]. subst.
      apply elem_of_app. by left.
  - intros q. rewrite Hch. case_decide; [|apply Hnd]. apply NoDup_app.
    split; [apply Hnd|]. split; [|apply NoDup_singleton].
    intros c' Hin ->%list_elem_of_singleton. by apply (Hnot p).
  - intros c' q. rewrite Hpa. case_decide; [|apply Hor]. intros [= <-]. by subst.
Qed.

Lemma wellFormed_empty n (s : Store) : wellFormed s → wellFormed (empty n s).
Proof.
  intros (Hcl & Hpl & Hnd & Hor).
  assert (Hch : ∀ m, childrenOf (empty n s) m
                     = if decide (m = n) then [] else childrenOf s m).
  { intros m. unfold empty. rewrite childrenOf_update.
    destruct (decide (n = m)) as [->|Hne].
    - rewrite decide_True by done. by destruct (_ !! m).
    - rewrite decide_False by done. apply childrenOf_foldr_setParent. }
  assert (Hpa : ∀ m, parentOf (empty n s) m
                     = if decide (m ∈ childrenOf s n ∧ m < length s) then None
                       else parentOf s m).
  { intros m. unfold empty.
    assert (Hu : ∀ X : Store, parentOf (update (setChildren []) n X) m = parentOf X m).
    { intros X. rewrite parentOf_update. case_decide; [|done].
      unfold parentOf. by destruct (X !! m). }
    rewrite Hu. apply parentOf_foldr_setParent. }
  split; [|split; [|split]].
  - intros q c. rewrite Hch, Hpa. case_decide; [by intros ?%elem_of_nil|].
    intros Hin. pose proof (Hcl _ _ Hin) as Hq.
    rewrite decide_False; [done|]. intros [Hc _]. apply Hcl in Hc. congruence.
  - intros c q. rewrite Hch, Hpa. case_decide; [done|]. intros Hq.
    pose proof (Hpl _ _ Hq) as Hin. rewrite decide_False; [done|].
    intros ->. destruct H. split; [done|]. by eapply parent_in_store.
  - intros q. rewrite Hch. case_decide; [constructor|apply Hnd].
  - intros c q. rewrite Hpa. case_decide; [done|apply Hor].
Qed.

End WellFormed.

(** ** The tree that the validation walk starts from is well-formed *)

Section Pipeline.
Import AstNode.
Context {Callback : Type}.
Variable schema : Schema.
Variable settings : DomParserSettings.
Variable isEmpty : Schema → (string → bool) → (string → bool) → Store → NodeId → bool.
Variable isLineBreakNode : Store → option NodeId → (string → bool) → bool.
Variable isPaddedWithNbsp : Store → NodeId → bool.
Variable paddWithBreak :
  DomParserSettings → ParserArgs → (string → bool) → Store → NodeId → bool.
Variable purify : string → Sanitizer.

Lemma link_wellFormed parent nc (s : Store) rec :
  parent < length s → AstNode.parent rec = None → children rec = [] →
  importsForest nc → wellFormed s →
  wellFormed (append parent (length s) (transferChildren (length s) nc (s ++ [rec]))).
Proof.
  intros Hp Hrp Hrc IH Hwf.
  assert (Hl2 : length (s ++ [rec]) = S (length s)) by (rewrite length_app; simpl; lia).
  destruct (transferChildren_importsWell nc (length s) (s ++ [rec]) ltac:(lia))
    as (Hlen & _ & (cs & Hpar & _) & _).
  rewrite lookup_app_r, Nat.sub_diag in Hpar by lia. simpl in Hpar.
  apply wellFormed_append; try lia.
  - unfold parentOf. rewrite Hpar. simpl. done.
  - apply IH; [lia|]. by apply wellFormed_create.
Qed.

Lemma transferOne_wellFormed b parent nc (s : Store) :
  importsForest nc → parent < length s → wellFormed s →
  wellFormed (transferOne b parent nc s).
Proof.
  intros IH Hp Hwf. unfold transferOne, create.
  destruct (NodeType.isElement nc) eqn:He.
  - assert (nodeType nc = 1) as Hty by (by apply Nat.eqb_eq in He).
    rewrite Hty. simpl. rewrite (copyAttributes_snoc _ _ _ []) by done.
    by apply link_wellFormed.
  - destruct (NodeType.isComment nc || NodeType.isText nc
              || NodeType.isCData nc || NodeType.isPi nc).
    + rewrite update_snoc. destruct b.
      * rewrite update_snoc. by apply link_wellFormed.
      * by apply link_wellFormed.
    + by apply wellFormed_create.
Qed.

Lemma transferEach_wellFormed b parent cs : ∀ s : Store,
  Forall importsForest cs → parent < length s → wellFormed s →
  wellFormed (transferEach b parent cs s).
Proof.
  induction cs as [|nc cs IH]; intros s Hall Hp Hwf; [done|].
  apply Forall_cons in Hall as [Hnc Hall].
  change (transferEach b parent (nc :: cs) s)
    with (transferEach b parent cs (transferOne b parent nc s)).
  apply IH; [done| |by apply transferOne_wellFormed].
  destruct (transferOne_imported b parent nc s (transferChildren_importsWell nc) Hp)
    as [Hlen _]. lia.
Qed.

Lemma transferChildren_importsForest n : importsForest n.
Proof.
  induction n as [nm ty attrs d cs IH] using NativeNode_forall_ind.
  intros parent s Hp Hwf. rewrite transferChildren_unfold.
  by apply transferEach_wellFormed.
Qed.

Lemma wellFormed_paddEmptyNode args blockElements node (s : Store) :
  node < length s → wellFormed s →
  wellFormed (paddEmptyNode settings paddWithBreak args blockElements node s).
Proof.
  intros Hn Hwf. unfold paddEmptyNode.
  pose proof (length_empty node s) as Hlen.
  pose proof (wellFormed_empty node s Hwf) as Hwf1.
  destruct (paddWithBreak settings args blockElements s node); unfold create.
  - apply wellFormed_append.
    + unfold parentOf. by rewrite lookup_app_r, Nat.sub_diag by lia.
    + rewrite length_app. simpl. lia.
    + rewrite length_app. simpl. lia.
    + lia.
    + by apply wellFormed_create.
  - rewrite update_snoc. apply wellFormed_append.
    + unfold parentOf. by rewrite lookup_app_r, Nat.sub_diag by lia.
    + rewrite length_app. simpl. lia.
    + rewrite length_app. simpl. lia.
    + lia.
    + by apply wellFormed_create.
Qed.

Lemma typeOf_in_store (s : Store) node ty : typeOf s node = S ty → node < length s.
Proof.
  unfold typeOf. destruct (s !! node) eqn:E; [|done]. intros _.
  by apply lookup_lt_Some in E.
Qed.

Lemma wellFormed_preprocess root args node (s : Store) :
  wellFormed s → wellFormed (preprocess schema isLineBreakNode root args node s).
Proof.
  intros Hwf. unfold preprocess, preprocessElement, preprocessText.
  destruct (typeOf s node =? 1).
  - destruct (attr s node "data-mce-bogus") as [b|]; [|done].
    destruct (String.eqb b "all"); [by apply wellFormed_remove|].
    destruct (_ && _); [by apply wellFormed_unwrap|done].
  - destruct (typeOf s node =? 3); [|done].
    destruct (negb _); [|done]. simpl.
    destruct (_ =? 0); [by apply wellFormed_remove|by apply wellFormed_fields].
Qed.

Lemma wellFormed_postprocess root args node (s : Store) :
  wellFormed s →
  wellFormed (postprocess schema settings isEmpty isPaddedWithNbsp paddWithBreak
                root args node s).
Proof.
  intros Hwf. unfold postprocess, postprocessElement, postprocessText.
  destruct (typeOf s node =? 1) eqn:Ht.
  - apply Nat.eqb_eq in Ht. apply typeOf_in_store in Ht.
    destruct (getElementRule schema (nameOf s node)) as [rule|]; [|done]. simpl.
    destruct (removeEmpty rule && _).
    + destruct (blockElementsOf schema _);
        [by apply wellFormed_remove|by apply wellFormed_unwrap].
    + destruct (paddEmpty rule && _); [by apply wellFormed_paddEmptyNode|done].
  - destruct (typeOf s node =? 3); [|done].
    destruct (negb _); [|done]. simpl.
    destruct (_ =? 0); [by apply wellFormed_remove|by apply wellFormed_fields].
Qed.

Lemma wellFormed_preprocessLoop root args fuel : ∀ (s : Store) node lastNode nodes s' nodes',
  wellFormed s →
  preprocessLoop schema isLineBreakNode root args fuel s node lastNode nodes
    = Some (s', nodes') →
  wellFormed s'.
Proof.
  induction fuel as [|fuel IH]; intros s node lastNode nodes s' nodes' Hwf; simpl;
    pose proof (wellFormed_preprocess root args node s Hwf) as Hwf1;
    destruct (match parentOf _ node with Some _ => _ | None => _ end) as [node1 nodes1];
    destruct (walk _ node1) as [node2|]; try done.
  - by intros [= <- _].
  - by apply IH.
  - by intros [= <- _].
Qed.

Lemma wellFormed_simplifyDom root args fuel (s s' : Store) :
  wellFormed s →
  simplifyDom schema settings isEmpty isLineBreakNode isPaddedWithNbsp paddWithBreak
    root args fuel s = Some s' →
  wellFormed s'.
Proof.
  intros Hwf. unfold simplifyDom.
  destruct (preprocessLoop _ _ _ _ _ _ _ _ _) as [[s1 nodes]|] eqn:Hl; [|done].
  intros [= <-]. apply wellFormed_preprocessLoop in Hl; [|done].
  generalize (rev nodes). intros l. revert s1 Hl.
  induction l as [|n l IH]; intros s1 Hl; [done|]. simpl.
  apply IH. by apply wellFormed_postprocess.
Qed.

(** In every parse call the validation walk starts from a well-formed
    tree whose root is the first node of the store. *)
Lemma normalized_wellFormed fuel html args (p : DomParser (Callback:=Callback)) root s :
  normalized schema settings isEmpty isLineBreakNode isPaddedWithNbsp paddWithBreak
    purify fuel html args p = Some (root, s) →
  root = 0 ∧ wellFormed s.
Proof.
  unfold normalized, create. simpl.
  destruct (simplifyDom _ _ _ _ _ _ _ _ _ _) as [s2|] eqn:Hs; [|done].
  intros [= <- <-]. split; [done|].
  eapply wellFormed_simplifyDom; [|exact Hs].
  apply transferChildren_importsForest; [simpl; lia|].
  apply wellFormedb_sound. reflexivity.
Qed.

Lemma wellFormed_walkerStep (nodeFilters : list (string * list Callback))
    (attributeFilters : list (ParserFilter (Callback:=Callback)))
    (s : Store) node state x :
  wellFormed s →
  walkerStep schema settings nodeFilters attributeFilters s node state = Some x →
  wellFormed x.1.1.
Proof.
  intros Hwf. unfold walkerStep. destruct (walk s node) as [n|]; [|done].
  destruct (typeOf s n =? 1).
  - destruct (if validate settings then _ else _) as [rule|].
    + intros [= <-]. simpl.
      destruct (outputName rule) as [out|]; [|done].
      destruct (Js.truthy out); [by apply wellFormed_fields|done].
    + intros [= <-]. by apply wellFormed_unwrap.
  - by intros [= <-].
Qed.

Lemma wellFormed_reaches (nodeFilters : list (string * list Callback))
    (attributeFilters : list (ParserFilter (Callback:=Callback))) x y :
  walkerReaches schema settings nodeFilters attributeFilters x y →
  wellFormed x.1.1 → wellFormed y.1.1.
Proof.
  induction 1 as [x|s node state x y Hstep _ IH]; [done|].
  intros Hwf. apply IH. by eapply wellFormed_walkerStep.
Qed.

End Pipeline.

(** ** The validation walk of a parse call *)

Section ValidationWalk.
Import AstNode.
Context {Callback : Type}.
Variable schema : Schema.
Variable settings : DomParserSettings.
Variable isEmpty : Schema → (string → bool) → (string → bool) → Store → NodeId → bool.
Variable isLineBreakNode : Store → option NodeId → (string → bool) → bool.
Variable isPaddedWithNbsp : Store → NodeId → bool.
Variable paddWithBreak :
  DomParserSettings → ParserArgs → (string → bool) → Store → NodeId → bool.
Variable purify : string → Sanitizer.
Variable invoke :
  Callback → list NodeId → string → ParserArgs → Store → Store * list NodeId.
Variable cleanInvalidNodes :
  list NodeId → (NodeId → Store → WalkResult → WalkResult) →
  Store → WalkResult → Store * WalkResult.

#[local] Abbreviation parse' :=
  (parse invoke schema settings isEmpty isLineBreakNode isPaddedWithNbsp
     paddWithBreak cleanInvalidNodes purify).
#[local] Abbreviation normalized' :=
  (normalized (Callback:=Callback) schema settings isEmpty isLineBreakNode
     isPaddedWithNbsp paddWithBreak purify).
#[local] Abbreviation walked' :=
  (walked (Callback:=Callback) schema settings isEmpty isLineBreakNode
     isPaddedWithNbsp paddWithBreak purify).

Lemma normalized_root fuel html args (p : DomParser (Callback:=Callback)) root s :
  normalized' fuel html args p = Some (root, s) →
  wellFormed s ∧ parentOf s root = None.
Proof.
  intros Hn. apply normalized_wellFormed in Hn as [-> Hwf]. split; [done|].
  destruct (parentOf s 0) as [q|] eqn:Hq; [|done].
  destruct Hwf as (_ & _ & _ & Hor). apply Hor in Hq. lia.
Qed.

(** The stages after the walk put no node into the lists on their own. *)
Lemma dropDetached_elem (s : Store) fi : ∀ (nodes : list NodeId) x,
  x ∈ dropDetached s fi nodes → x ∈ nodes.
Proof.
  induction fi as [|fi IH]; intros nodes x; simpl; [done|].
  intros H. apply IH in H. destruct (nodes !! fi) as [n|]; [|done].
  destruct (parentOf s n); [done|]. by apply list_elem_of_delete_inv in H.
Qed.

Lemma clean_setKey root k (l : list NodeId) m :
  root ∉ l → clean root m → clean root (setKey k l m).
Proof.
  intros Hl Hm k' l'. destruct (decide (k' = k)) as [->|Hne].
  - rewrite lookupKey_setKey_eq. by intros [= <-].
  - rewrite lookupKey_setKey_ne by done. apply Hm.
Qed.

Section Handed.
Variable root : NodeId.
Hypothesis Hinvoke : ∀ cb nodes name a (s : Store),
  root ∉ nodes → root ∉ (invoke cb nodes name a s).2.

Lemma runCallbacks_root (event : Callback → list NodeId → Event) name args :
  (∀ cb n, eventNodes (event cb n) = n) →
  ∀ cbs (s : Store) nodes tr s' nodes' tr',
    runCallbacks invoke event cbs name args s nodes tr = (s', nodes', tr') →
    root ∉ nodes → Forall (λ e, root ∉ eventNodes e) tr →
    (root ∉ nodes') ∧ Forall (λ e, root ∉ eventNodes e) tr'.
Proof.
  intros Hev. induction cbs as [|cb cbs IH]; intros s nodes tr s' nodes' tr'; simpl.
  - by intros [= <- <- <-].
  - pose proof (Hinvoke cb nodes name args s) as Hi.
    destruct (invoke cb nodes name args s) as [s1 nodes1]. simpl in Hi.
    intros Hrun Hn Htr. apply IH in Hrun; [done|by apply Hi|].
    apply Forall_app. split; [done|]. constructor; [|done]. by rewrite Hev.
Qed.

Lemma runNodeFilters_root (p : DomParser (Callback:=Callback)) args :
  ∀ names (s : Store) state tr s' state' tr',
    runNodeFilters invoke names p args s state tr = (s', state', tr') →
    notRecorded root state → Forall (λ e, root ∉ eventNodes e) tr →
    notRecorded root state' ∧ Forall (λ e, root ∉ eventNodes e) tr'.
Proof.
  induction names as [|name names IH]; intros s state tr s' state' tr'; simpl.
  - by intros [= <- <- <-].
  - destruct (runCallbacks _ _ _ _ _ _ _ _) as [[s1 nodes2] tr1] eqn:Hc.
    intros Hrun (Hi & Hm & Ha) Htr.
    apply runCallbacks_root in Hc as [Hn2 Htr1]; [|done| |done].
    + apply IH in Hrun; [done| |done]. split; [done|]. split; [|done].
      simpl. by apply clean_setKey.
    + intros Hx. apply dropDetached_elem in Hx.
      destruct (lookupKey name (matchedNodes state)) as [l|] eqn:Hl; simpl in Hx.
      * by apply (Hm name l).
      * by apply not_elem_of_nil in Hx.
Qed.

Lemma runAttributeFilters_root args :
  ∀ (filters : list (ParserFilter (Callback:=Callback))) (s : Store) state tr s' state' tr',
    runAttributeFilters invoke filters args s state tr = (s', state', tr') →
    notRecorded root state → Forall (λ e, root ∉ eventNodes e) tr →
    notRecorded root state' ∧ Forall (λ e, root ∉ eventNodes e) tr'.
Proof.
  induction filters as [|f filters IH]; intros s state tr s' state' tr'; simpl.
  - by intros [= <- <- <-].
  - destruct (lookupKey (filterName f) (matchedAttributes state)) as [nodes|] eqn:Hl;
      [|apply IH].
    destruct (runCallbacks _ _ _ _ _ _ _ _) as [[s1 nodes2] tr1] eqn:Hc.
    intros Hrun (Hi & Hm & Ha) Htr.
    apply runCallbacks_root in Hc as [Hn2 Htr1]; [|done| |done].
    + apply IH in Hrun; [done| |done]. split; [done|]. split; [done|].
      simpl. by apply clean_setKey.
    + intros Hx. apply dropDetached_elem in Hx. by apply (Ha _ _ Hl).
Qed.

Lemma repairInvalid_root (p : DomParser (Callback:=Callback)) args rootNode
    (s : Store) state s1 state1 args1 tr1 :
  (∀ nodes (s0 : Store) state0,
     notRecorded root state0 →
     notRecorded root
       (cleanInvalidNodes nodes
          (λ newNode s' state',
             filterNode newNode (nodeFilters p) (attributeFilters p) s' state')
          s0 state0).2) →
  repairInvalid settings cleanInvalidNodes p args rootNode s state
    = (s1, state1, args1, tr1) →
  notRecorded root state →
  notRecorded root state1 ∧ Forall (λ e, root ∉ eventNodes e) tr1.
Proof.
  intros Hclean. unfold repairInvalid. intros Hr Hs. pose proof Hs as (Hi & _).
  destruct (validate settings && _); [destruct (optTruthy _)|].
  - match type of Hr with context [cleanInvalidNodes ?l ?f ?s0 ?st] =>
      pose proof (Hclean l s0 st Hs) as Hc; destruct (cleanInvalidNodes l f s0 st) end.
    injection Hr as <- <- <- <-. split; [done|]. constructor; [|done]. simpl.
    intros Hx. by apply list_elem_of_filter in Hx as [_ Hx].
  - match type of Hr with context [cleanInvalidNodes ?l ?f ?s0 ?st] =>
      pose proof (Hclean l s0 st Hs) as Hc; destruct (cleanInvalidNodes l f s0 st) end.
    injection Hr as <- <- <- <-. split; [done|]. by constructor.
  - injection Hr as <- <- <- <-. by split.
Qed.

End Handed.

(** C10: in every parse call the synthetic root is never the node of a
    turn of the validation walk, because the walk starts at the node that
    follows the root: in every state that the loop reaches from the tree
    of the normalizer, the node of the next turn is not the root, the
    root has kept its name and has not been detached, and it is neither
    in [invalidChildren] nor in a list of [matchedNodes] or
    [matchedAttributes]; so it is with the tree and the summary that the
    walk hands to the rest of [parse]; and when neither the repair nor a
    callback puts the root into a list, no list handed to the repair or
    to a filter callback holds the root. *)
Theorem walker_never_visits_root fuel html args (p : DomParser (Callback:=Callback))
    root s2 :
  normalized' fuel html args p = Some (root, s2) →
  (∀ s' node state,
     walkerReaches schema settings (nodeFilters p) (attributeFilters p)
       (s2, root, emptyWalkResult) (s', node, state) →
     walk s' node ≠ Some root
     ∧ nameOf s' root = nameOf s2 root
     ∧ parentOf s' root = None
     ∧ notRecorded root state)
  ∧ (∀ root' s3 state,
       walked' fuel html args p = Some (root', s3, state) →
       root' = root
       ∧ nameOf s3 root = nameOf s2 root
       ∧ notRecorded root state)
  ∧ ((∀ nodes (s0 : Store) state0,
        notRecorded root state0 →
        notRecorded root
          (cleanInvalidNodes nodes
             (λ newNode s' state',
                filterNode newNode (nodeFilters p) (attributeFilters p) s' state')
             s0 state0).2) →
     (∀ cb nodes name a (s : Store),
        root ∉ nodes → root ∉ (invoke cb nodes name a s).2) →
     ∀ r, parse' fuel html args p = Some r →
          rootNode r = root
          ∧ notRecorded root (summary r)
          ∧ Forall (λ e, root ∉ eventNodes e) (trace r)).
Proof.
  intros Hn. destruct (normalized_root _ _ _ _ _ _ Hn) as [Hwf Hr].
  destruct (walker_keeps_root schema settings (nodeFilters p) (attributeFilters p)
              root s2 ltac:(apply Hwf) Hr) as [Hturn Hend].
  assert (Hwalked : ∀ root' s3 state,
            walked' fuel html args p = Some (root', s3, state) →
            root' = root ∧ nameOf s3 root = nameOf s2 root ∧ notRecorded root state).
  { intros root' s3 state. unfold walked. rewrite Hn.
    destruct (walker _ _ _ _ _ _ _) as [[s3' state']|] eqn:Hw; [|done].
    intros [= <- <- <-]. split; [done|]. by eapply Hend. }
  split; [exact Hturn|]. split; [exact Hwalked|].
  intros Hclean Hinvoke r Hp.
  apply parse_walked in Hp as (s & state & Hw & Hf).
  apply Hwalked in Hw as (Hroot & _ & Hs). split; [done|].
  unfold finishParse in Hf.
  destruct (repairInvalid _ _ _ _ _ _ _) as [[[s1 state1] args1] tr1] eqn:Hrep.
  destruct (wrapRoot _ _ _ _ _ _) as [s4|]; [|done].
  destruct (runFilters _ _ _ _ _ _) as [[s5 state5] tr5] eqn:Hd.
  injection Hf as _ <- _ <-.
  apply (repairInvalid_root root) in Hrep as [Hs1 Htr1]; [|done|done].
  unfold runFilters in Hd. destruct (negb (invalid args1)).
  - destruct (runNodeFilters _ _ _ _ _ _ _) as [[s6 state6] tr6] eqn:Hnf.
    apply (runNodeFilters_root root Hinvoke) in Hnf as [Hs6 Htr6]; [|done|done].
    by apply (runAttributeFilters_root root Hinvoke) in Hd.
  - by injection Hd as <- <- <-.
Qed.


End ValidationWalk.

Lemma walker_never_visits_root_witness :
  let s2 : Store :=
    [AstNode.mk "body" 11 "" None false None [1];
     AstNode.mk "a" 1 ""
       (Some [("class", "c"); ("id", "mce_0"); ("title", "mce_1"); ("rel", "nofollow")])
       false (Some 0) [2];
     AstNode.mk "#text" 3 "x" None false (Some 1) []] in
  normalized Sample.schema Sample.settings Sample.isEmpty Sample.isLineBreakNode
    Sample.isPaddedWithNbsp Sample.paddWithBreak Sample.purify
    20 "<a class=c>x</a>" Sample.args Sample.parser = Some (0, s2)
  ∧ ∃ r,
      Sample.parse 20 "<a class=c>x</a>" Sample.args Sample.parser = Some r
      ∧ trace r = [AttributeFilterCall "id" 0 [1]; AttributeFilterCall "class" 0 [1];
                   AttributeFilterCall "class" 2 [1]]
      ∧ rootNode r = 0
      ∧ notRecorded 0 (summary r)
      ∧ Forall (λ e, 0 ∉ eventNodes e) (trace r).
Proof.
  intros s2.
  assert (Hn : normalized Sample.schema Sample.settings Sample.isEmpty
                 Sample.isLineBreakNode Sample.isPaddedWithNbsp Sample.paddWithBreak
                 Sample.purify 20 "<a class=c>x</a>" Sample.args Sample.parser
               = Some (0, s2)) by (vm_compute; reflexivity).
  split; [exact Hn|].
  destruct (walker_never_visits_root Sample.schema Sample.settings Sample.isEmpty
              Sample.isLineBreakNode Sample.isPaddedWithNbsp Sample.paddWithBreak
              Sample.purify Sample.invoke Sample.cleanInvalidNodes
              20 "<a class=c>x</a>" Sample.args Sample.parser 0 s2 Hn)
    as (_ & _ & Hhanded).
  eexists. split; [vm_compute; reflexivity|]. split; [reflexivity|].
  apply Hhanded.
  - intros nodes s0 state0 Hs. exact Hs.
  - intros cb nodes name a s Hx. unfold Sample.invoke.
    destruct (cb =? 1); exact Hx.
  - vm_compute. reflexivity.
Defined.


(** * Further properties of the code *)

(** ** The element hook of the sanitizer *)

Section ElementHook.
Import AstNode.

Lemma assoc_assocSet_eq k v l : assoc k (assocSet k v l) = Some v.
Proof.
  induction l as [|[k0 v0] l IH]; simpl.
  - by rewrite String.eqb_refl.
  - destruct (String.eqb k0 k) eqn:E; simpl; rewrite E; [done|exact IH].
Qed.

Lemma assoc_assocSet_ne k k' v l : k ≠ k' → assoc k (assocSet k' v l) = assoc k l.
Proof.
  intros Hne. induction l as [|[k0 v0] l IH]; simpl.
  - destruct (String.eqb_spec k' k); [congruence|done].
  - destruct (String.eqb_spec k0 k') as [->|Hk]; simpl.
    + destruct (String.eqb_spec k' k); [congruence|done].
    + destruct (String.eqb k0 k); [done|exact IH].
Qed.

Lemma assocSet_not_nil k v l : assocSet k v l ≠ [].
Proof. destruct l as [|[k0 v0] l]; simpl; [done|]. by destruct (String.eqb k0 k). Qed.

Lemma hasAttribute_set k k' v attrs :
  hasAttribute k (setAttribute k' v attrs) = true
  ↔ k = k' ∨ hasAttribute k attrs = true.
Proof.
  unfold hasAttribute, setAttribute. destruct (decide (k = k')) as [->|Hne].
  - rewrite assoc_assocSet_eq. by split; [left|].
  - rewrite assoc_assocSet_ne by done. split; [by right|]. by intros [?|?].
Qed.

Lemma attributeValue_literal a uid :
  attrValue a ≠ "{$uid}" → attributeValue a uid = (attrValue a, uid, []).
Proof.
  intros Hne. unfold attributeValue.
  by destruct (String.eqb_spec (attrValue a) "{$uid}").
Qed.

Lemma applyForced_has l : ∀ attrs uid k,
  hasAttribute k (applyForced l attrs uid).1.1 = true
  ↔ (∃ a, a ∈ l ∧ attrName a = k) ∨ hasAttribute k attrs = true.
Proof.
  induction l as [|a l IH]; intros attrs uid k; simpl.
  - split; [by right|]. intros [(a & Ha & _)|H]; [by apply elem_of_nil in Ha|done].
  - destruct (attributeValue a uid) as [[v uid1] i1].
    specialize (IH (setAttribute (attrName a) v attrs) uid1 k).
    destruct (applyForced l _ uid1) as [[attrs2 uid2] i2]. simpl in *.
    rewrite IH, hasAttribute_set. split.
    + intros [(b & Hb & Hk)|[->|H]].
      * left. exists b. split; [by right|done].
      * left. exists a. split; [by left|done].
      * by right.
    + intros [(b & Hb & Hk)|H]; [|by right; right].
      apply elem_of_cons in Hb as [->|Hb]; [by right; left|].
      left. by exists b.
Qed.

Lemma applyDefault_has l : ∀ attrs uid k,
  hasAttribute k (applyDefault l attrs uid).1.1 = true
  ↔ (∃ a, a ∈ l ∧ attrName a = k) ∨ hasAttribute k attrs = true.
Proof.
  induction l as [|a l IH]; intros attrs uid k; simpl.
  - split; [by right|]. intros [(a & Ha & _)|H]; [by apply elem_of_nil in Ha|done].
  - destruct (hasAttribute (attrName a) attrs) eqn:Hhas.
    + rewrite IH. split.
      * intros [(b & Hb & Hk)|H]; [|by right]. left. exists b. split; [by right|done].
      * intros [(b & Hb & Hk)|H]; [|by right].
        apply elem_of_cons in Hb as [->|Hb]; [right; by rewrite <- Hk|].
        left. by exists b.
    + destruct (attributeValue a uid) as [[v uid1] i1].
      specialize (IH (setAttribute (attrName a) v attrs) uid1 k).
      destruct (applyDefault l _ uid1) as [[attrs2 uid2] i2]. simpl in *.
      rewrite IH, hasAttribute_set. split.
      * intros [(b & Hb & Hk)|[->|H]].
        -- left. exists b. split; [by right|done].
        -- left. exists a. split; [by left|done].
        -- by right.
      * intros [(b & Hb & Hk)|H]; [|by right; right].
        apply elem_of_cons in Hb as [->|Hb]; [by right; left|].
        left. by exists b.
Qed.

Lemma applyForced_other l : ∀ attrs uid k,
  (∀ a, a ∈ l → attrName a ≠ k) →
  assoc k (applyForced l attrs uid).1.1 = assoc k attrs.
Proof.
  induction l as [|a l IH]; intros attrs uid k Hk; simpl; [done|].
  destruct (attributeValue a uid) as [[v uid1] i1].
  specialize (IH (setAttribute (attrName a) v attrs) uid1 k).
  destruct (applyForced l _ uid1) as [[attrs2 uid2] i2]. simpl in *.
  rewrite IH by (intros b Hb; apply Hk; by right).
  apply assoc_assocSet_ne. intros ->. by apply (Hk a); [left|].
Qed.

Lemma applyDefault_keeps l : ∀ attrs uid k v,
  assoc k attrs = Some v → assoc k (applyDefault l attrs uid).1.1 = Some v.
Proof.
  induction l as [|a l IH]; intros attrs uid k v Hk; simpl; [done|].
  destruct (hasAttribute (attrName a) attrs) eqn:Hhas; [by apply IH|].
  destruct (attributeValue a uid) as [[v1 uid1] i1].
  specialize (IH (setAttribute (attrName a) v1 attrs) uid1 k v).
  destruct (applyDefault l _ uid1) as [[attrs2 uid2] i2]. simpl in *.
  apply IH. unfold setAttribute. rewrite assoc_assocSet_ne; [done|].
  intros ->. unfold hasAttribute in Hhas. by rewrite Hk in Hhas.
Qed.

Lemma applyForced_last l1 a l2 attrs uid :
  (∀ b, b ∈ l2 → attrName b ≠ attrName a) →
  attrValue a ≠ "{$uid}" →
  assoc (attrName a) (applyForced (l1 ++ a :: l2) attrs uid).1.1 = Some (attrValue a).
Proof.
  revert attrs uid. induction l1 as [|b l1 IH]; intros attrs uid Hl2 Hv; simpl.
  - rewrite attributeValue_literal by done.
    pose proof (applyForced_other l2 (setAttribute (attrName a) (attrValue a) attrs)
                  uid (attrName a) Hl2) as H.
    destruct (applyForced l2 _ uid) as [[attrs2 uid2] i2]. simpl in *.
    rewrite H. apply assoc_assocSet_eq.
  - destruct (attributeValue b uid) as [[v uid1] i1].
    specialize (IH (setAttribute (attrName b) v attrs) uid1 Hl2 Hv).
    by destruct (applyForced (l1 ++ a :: l2) _ uid1) as [[attrs2 uid2] i2].
Qed.

Variable schema : Schema.

(** X1: after the element hook has run on an element whose tag has a
    schema rule, the element carries every forced and every default
    attribute of the rule and every attribute it came with; so an
    element that has an attribute, or whose rule forces or defaults one,
    is not unwrapped for being without attributes. *)
Theorem element_hook_attributes_present tagName allowedTags attrs uid rule :
  getElementRule schema tagName = Some rule →
  let out := (uponSanitizeElement schema tagName allowedTags attrs uid).1 in
  (∀ a, a ∈ default [] (attributesForced rule) →
        hasAttribute (attrName a) (outAttributes out) = true)
  ∧ (∀ a, a ∈ default [] (attributesDefault rule) →
          hasAttribute (attrName a) (outAttributes out) = true)
  ∧ (∀ k, hasAttribute k attrs = true → hasAttribute k (outAttributes out) = true)
  ∧ (attributesRequired rule = None →
     attrs ≠ [] ∨ default [] (attributesForced rule) ≠ []
       ∨ default [] (attributesDefault rule) ≠ [] →
     outUnwrapped out = false).
Proof.
  intros Hrule. unfold uponSanitizeElement. rewrite Hrule.
  pose proof (applyForced_has (default [] (attributesForced rule)) attrs uid) as Hf.
  destruct (applyForced _ attrs uid) as [[attrs1 uid1] i1]. simpl in Hf.
  pose proof (applyDefault_has (default [] (attributesDefault rule)) attrs1 uid1) as Hd.
  destruct (applyDefault _ attrs1 uid1) as [[attrs2 uid2] i2]. simpl in Hd. simpl.
  assert (Hall : ∀ k, hasAttribute k attrs = true → hasAttribute k attrs2 = true).
  { intros k Hk. apply Hd. right. apply Hf. by right. }
  split; [|split; [|split]].
  - intros a Ha. apply Hd. right. apply Hf. left. by exists a.
  - intros a Ha. apply Hd. left. by exists a.
  - exact Hall.
  - intros -> Hne. simpl.
    assert (∃ k, hasAttribute k attrs2 = true) as [k Hk].
    { destruct Hne as [Hne|[Hne|Hne]].
      - destruct attrs as [|[k v] attrs]; [done|]. exists k. apply Hall.
        unfold hasAttribute. simpl. by rewrite String.eqb_refl.
      - destruct (default [] (attributesForced rule)) as [|a l]; [done|].
        exists (attrName a). apply Hd. right. apply Hf. left. exists a. split; [left|done].
      - destruct (default [] (attributesDefault rule)) as [|a l]; [done|].
        exists (attrName a). apply Hd. left. exists a. split; [left|done]. }
    destruct attrs2; [done|]. simpl. by rewrite andb_false_r.
Qed.

(** X2: in the element hook a forced attribute overwrites what the
    element had, and a default attribute never does: an attribute of the
    element that the rule does not force keeps its value, and a forced
    attribute with a literal value ends up with that value (the last
    entry of a name wins). *)
Theorem element_hook_forced_overwrites tagName allowedTags attrs uid rule :
  getElementRule schema tagName = Some rule →
  let out := (uponSanitizeElement schema tagName allowedTags attrs uid).1 in
  (∀ k v, assoc k attrs = Some v →
          (∀ a, a ∈ default [] (attributesForced rule) → attrName a ≠ k) →
          assoc k (outAttributes out) = Some v)
  ∧ (∀ l1 a l2,
       default [] (attributesForced rule) = l1 ++ a :: l2 →
       (∀ b, b ∈ l2 → attrName b ≠ attrName a) →
       attrValue a ≠ "{$uid}" →
       assoc (attrName a) (outAttributes out) = Some (attrValue a)).
Proof.
  intros Hrule. unfold uponSanitizeElement. rewrite Hrule.
  pose proof (applyForced_other (default [] (attributesForced rule)) attrs uid) as Ho.
  destruct (applyForced (default [] (attributesForced rule)) attrs uid)
    as [[attrs1 uid1] i1] eqn:Hf.
  pose proof (applyDefault_keeps (default [] (attributesDefault rule)) attrs1 uid1) as Hk.
  destruct (applyDefault _ attrs1 uid1) as [[attrs2 uid2] i2]. simpl in *.
  split.
  - intros k v Hkv Hnf. apply Hk. by rewrite Ho.
  - intros l1 a l2 Heq Hl2 Hv. apply Hk.
    pose proof (applyForced_last l1 a l2 attrs uid Hl2 Hv) as H.
    rewrite <- Heq, Hf in H. exact H.
Qed.

End ElementHook.

Lemma element_hook_attributes_present_witness :
  let out :=
    (uponSanitizeElement Strict.schema "a" [] [("href", "/x"); ("target", "top")] 0).1 in
  getElementRule Strict.schema "a" = Some (Strict.rule "a")
  ∧ outAttributes out = [("href", "/x"); ("target", "top"); ("rel", "noopener")]
  ∧ hasAttribute "rel" (outAttributes out) = true
  ∧ outUnwrapped out = false.
Proof.
  intros out. split; [reflexivity|]. split; [reflexivity|].
  destruct (element_hook_attributes_present Strict.schema "a" []
              [("href", "/x"); ("target", "top")] 0 (Strict.rule "a") eq_refl)
    as (Hforced & _ & _ & Hkept).
  split.
  - apply (Hforced {| attrName := "rel"; attrValue := "noopener" |}).
    right. left.
  - apply Hkept; [reflexivity|]. by left.
Defined.

Lemma element_hook_forced_overwrites_witness :
  let out :=
    (uponSanitizeElement Strict.schema "a" []
       [("rel", "me"); ("target", "top")] 0).1 in
  getElementRule Strict.schema "a" = Some (Strict.rule "a")
  ∧ AstNode.assoc "target" (outAttributes out) = Some "top"
  ∧ AstNode.assoc "rel" (outAttributes out) = Some "noopener".
Proof.
  intros out. split; [reflexivity|].
  destruct (element_hook_forced_overwrites Strict.schema "a" []
              [("rel", "me"); ("target", "top")] 0 (Strict.rule "a") eq_refl)
    as (Hkeep & Hforce).
  split.
  - apply Hkeep; [reflexivity|]. intros a Ha. simpl in Ha.
    apply elem_of_cons in Ha as [->|Ha]; [done|].
    apply elem_of_cons in Ha as [->|Ha]; [done|]. by apply elem_of_nil in Ha.
  - apply (Hforce [{| attrName := "rel"; attrValue := "nofollow" |}]
             {| attrName := "rel"; attrValue := "noopener" |} []).
    + reflexivity.
    + intros b Hb. by apply elem_of_nil in Hb.
    + done.
Defined.

Section ElementHookUnwrap.
Variable schema : Schema.

Lemma existsb_false_elem {A} (f : A → bool) (l : list A) :
  existsb f l = false ↔ ∀ x, x ∈ l → f x = false.
Proof.
  induction l as [|y l IH]; simpl.
  - split; [|done]. intros _ x Hx. by apply elem_of_nil in Hx.
  - rewrite orb_false_iff, IH. split.
    + intros [Hy Hl] x Hx. apply elem_of_cons in Hx as [->|Hx]; [done|by apply Hl].
    + intros H. split; [apply H; left|]. intros x Hx. apply H. by right.
Qed.

Lemma hasAttribute_nil_iff (attrs : list (string * string)) :
  attrs = [] ↔ ∀ k, hasAttribute k attrs = false.
Proof.
  split; [by intros ->|]. destruct attrs as [|[k v] attrs]; [done|].
  intros H. specialize (H k). unfold hasAttribute in H. simpl in H.
  by rewrite String.eqb_refl in H.
Qed.

(** X3: the element hook unwraps an element whose tag has a rule in two
    cases only, told from what the hook is given: the rule lists
    required attributes and none of them is on the element, forced or
    defaulted by the rule; or the rule removes attribute-less elements
    and the element has no attribute and the rule forces and defaults
    none. *)
Theorem element_hook_unwraps_iff tagName allowedTags attrs uid rule :
  getElementRule schema tagName = Some rule →
  let forced := default [] (attributesForced rule) in
  let defaults := default [] (attributesDefault rule) in
  let present := λ k,
    hasAttribute k attrs = true
    ∨ (∃ a, a ∈ forced ∧ attrName a = k) ∨ (∃ a, a ∈ defaults ∧ attrName a = k) in
  outUnwrapped (uponSanitizeElement schema tagName allowedTags attrs uid).1 = true
  ↔ (∃ req, attributesRequired rule = Some req ∧ ∀ r, r ∈ req → ¬ present r)
    ∨ (removeEmptyAttrs rule = true ∧ attrs = [] ∧ forced = [] ∧ defaults = []).
Proof.
  intros Hrule forced defaults present. unfold uponSanitizeElement. rewrite Hrule.
  pose proof (applyForced_has forced attrs uid) as Hf. fold forced.
  destruct (applyForced forced attrs uid) as [[attrs1 uid1] i1]. simpl in Hf.
  pose proof (applyDefault_has defaults attrs1 uid1) as Hd. fold defaults.
  destruct (applyDefault defaults attrs1 uid1) as [[attrs2 uid2] i2]. simpl in Hd.
  simpl.
  assert (Hpres : ∀ k, hasAttribute k attrs2 = true ↔ present k).
  { intros k. rewrite Hd, Hf. unfold present. tauto. }
  assert (Hnil : attrs2 = [] ↔ attrs = [] ∧ forced = [] ∧ defaults = []).
  { rewrite hasAttribute_nil_iff. split.
    - intros Hno. assert (Hnp : ∀ k, ¬ present k).
      { intros k Hk. apply Hpres in Hk. by rewrite Hno in Hk. }
      split; [|split].
      + apply hasAttribute_nil_iff. intros k.
        destruct (hasAttribute k attrs) eqn:E; [|done]. destruct (Hnp k). by left.
      + destruct forced as [|a l]; [done|]. destruct (Hnp (attrName a)).
        right. left. exists a. split; [left|done].
      + destruct defaults as [|a l]; [done|]. destruct (Hnp (attrName a)).
        right. right. exists a. split; [left|done].
    - intros (Ha & Hfo & Hde) k. apply not_true_iff_false. rewrite Hpres.
      unfold present. rewrite Ha, Hfo, Hde.
      intros [H|[(a & H & _)|(a & H & _)]]; [done|by apply elem_of_nil in H..]. }
  rewrite orb_true_iff, andb_true_iff, Nat.eqb_eq, length_zero_iff_nil, Hnil.
  apply or_iff_compat_r. destruct (attributesRequired rule) as [req|].
  - rewrite negb_true_iff, existsb_false_elem. split.
    + intros H. exists req. split; [done|]. intros r Hr Hp.
      apply Hpres in Hp. by rewrite H in Hp.
    + intros (req' & [= <-] & H) r Hr. apply not_true_iff_false. rewrite Hpres.
      by apply H.
  - split; [done|]. by intros (req & ? & _).
Qed.

End ElementHookUnwrap.

Lemma element_hook_unwraps_iff_witness :
  getElementRule Strict.schema "img" = Some (Strict.rule "img")
  ∧ outUnwrapped (uponSanitizeElement Strict.schema "img" [] [("alt", "x")] 0).1 = true
  ∧ outUnwrapped (uponSanitizeElement Strict.schema "img" [] [("src", "x")] 0).1 = false.
Proof.
  split; [reflexivity|]. split.
  - apply (element_hook_unwraps_iff Strict.schema "img" [] [("alt", "x")] 0
             (Strict.rule "img") eq_refl).
    left. exists ["src"]. split; [reflexivity|]. intros r Hr.
    apply list_elem_of_singleton in Hr as ->.
    intros [H|[(a & H & _)|(a & H & _)]]; [done|by apply elem_of_nil in H..].
  - reflexivity.
Defined.

(** ** The filter registries *)

Section RegistryLemmas.
Context {Callback : Type}.
Implicit Types p : DomParser (Callback:=Callback).
Implicit Types regs : list (Registration (Callback:=Callback)).

Lemma joinCallbacks_nil (o : option (list Callback)) : joinCallbacks o [] = o.
Proof. destruct o as [l|]; simpl; [|done]. by rewrite app_nil_r. Qed.

Lemma joinCallbacks_app (o : option (list Callback)) a b :
  joinCallbacks (joinCallbacks o a) b = joinCallbacks o (a ++ b).
Proof.
  destruct o as [l|]; simpl.
  - by rewrite app_assoc.
  - destruct a as [|x a]; simpl; [done|]. done.
Qed.

Lemma keys_setKey {V} k (v : V) o :
  map fst (setKey k v o) = if decide (k ∈ map fst o) then map fst o else map fst o ++ [k].
Proof.
  induction o as [|[k0 v0] o IH]; simpl.
  - done.
  - destruct (String.eqb_spec k0 k) as [->|Hne]; simpl.
    + rewrite decide_True; [done|left].
    + rewrite IH. destruct (decide (k ∈ map fst o)) as [Hin|Hin].
      * rewrite decide_True; [done|by right].
      * rewrite decide_False; [done|]. rewrite not_elem_of_cons. split; [congruence|done].
Qed.

Lemma NoDup_keys_setKey {V} k (v : V) o :
  NoDup (map fst o) → NoDup (map fst (setKey k v o)).
Proof.
  intros Hnd. rewrite keys_setKey. case_decide as Hin; [done|].
  apply NoDup_app. split; [done|]. split; [|apply NoDup_singleton].
  intros x Hx Hx'. apply list_elem_of_singleton in Hx'. by subst.
Qed.



Lemma names_addToFilters n (cb : Callback) l :
  map filterName (addToFilters n cb l)
  = if decide (n ∈ map filterName l) then map filterName l else map filterName l ++ [n].
Proof.
  induction l as [|f l IH]; simpl.
  - done.
  - destruct (String.eqb_spec (filterName f) n) as [<-|Hne]; simpl.
    + rewrite decide_True; [done|left].
    + rewrite IH. destruct (decide (n ∈ map filterName l)) as [Hin|Hin].
      * rewrite decide_True; [done|by right].
      * rewrite decide_False; [done|]. rewrite not_elem_of_cons. split; [congruence|done].
Qed.

Lemma lookupFilter_addToFilters k n (cb : Callback) l :
  lookupFilter k (addToFilters n cb l)
  = joinCallbacks (lookupFilter k l) (map (λ _, cb) (filter (λ x, x = k) [n])).
Proof.
  induction l as [|f l IH]; simpl.
  - destruct (String.eqb_spec n k) as [->|Hne].
    + by rewrite filter_cons_True.
    + by rewrite filter_cons_False.
  - destruct (String.eqb_spec (filterName f) n) as [Hfn|Hfn]; simpl.
    + destruct (String.eqb_spec (filterName f) k) as [Hfk|Hfk].
      * rewrite filter_cons_True by congruence. done.
      * rewrite filter_cons_False by congruence. simpl. by rewrite joinCallbacks_nil.
    + destruct (String.eqb_spec (filterName f) k) as [Hfk|Hfk]; [|exact IH].
      rewrite filter_cons_False by congruence. simpl. by rewrite app_nil_r.
Qed.

Lemma lookupFilter_elem (l : list (ParserFilter (Callback:=Callback))) f :
  NoDup (map filterName l) → f ∈ l → lookupFilter (filterName f) l = Some (callbacks f).
Proof.
  induction l as [|f0 l IH]; simpl; [by intros _ ?%elem_of_nil|].
  intros Hnd Hin. apply NoDup_cons in Hnd as [Hf0 Hnd].
  apply elem_of_cons in Hin as [->|Hin]; [by rewrite String.eqb_refl|].
  destruct (String.eqb_spec (filterName f0) (filterName f)) as [Heq|Hne]; [|by apply IH].
  destruct Hf0. rewrite Heq. apply list_elem_of_fmap. by exists f.
Qed.

Lemma lookupFilter_Some_elem k (l : list (ParserFilter (Callback:=Callback))) cbs :
  lookupFilter k l = Some cbs → ∃ f, f ∈ l ∧ filterName f = k ∧ callbacks f = cbs.
Proof.
  induction l as [|f0 l IH]; simpl; [done|].
  destruct (String.eqb_spec (filterName f0) k) as [Heq|Hne].
  - intros [= <-]. exists f0. split; [left|done].
  - intros H. destruct (IH H) as (f & Hf & Hn & Hc). exists f. split; [by right|done].
Qed.

Lemma filter_eq_cons k n (names : list string) (cb : Callback) :
  map (λ _, cb) (filter (λ x, x = k) (n :: names))
  = map (λ _, cb) (filter (λ x, x = k) [n]) ++ map (λ _, cb) (filter (λ x, x = k) names).
Proof.
  destruct (decide (n = k)) as [Heq|Hne].
  - by rewrite !filter_cons_True by done.
  - by rewrite !filter_cons_False by done.
Qed.

Lemma addNodeFilter_lookup names (cb : Callback) : ∀ p k,
  lookupKey k (nodeFilters (addNodeFilter names cb p))
  = joinCallbacks (lookupKey k (nodeFilters p)) (map (λ _, cb) (filter (λ x, x = k) names))
  ∧ attributeFilters (addNodeFilter names cb p) = attributeFilters p
  ∧ uid (addNodeFilter names cb p) = uid p
  ∧ (NoDup (map fst (nodeFilters p)) →
     NoDup (map fst (nodeFilters (addNodeFilter names cb p)))).
Proof.
  unfold addNodeFilter. induction names as [|n names IH]; intros p k.
  { simpl. by rewrite joinCallbacks_nil. }
  change (fold_left _ (n :: names) p)
    with (fold_left (λ acc name, addNodeFilter1 name cb acc) names (addNodeFilter1 n cb p)).
  destruct (IH (addNodeFilter1 n cb p) k) as (Hl & Ha & Hu & Hnd).
  rewrite Hl, Ha, Hu. split; [|split; [done|split; [done|]]].
  - rewrite filter_eq_cons, <- joinCallbacks_app. f_equal. simpl.
    destruct (decide (k = n)) as [->|Hne].
    + rewrite lookupKey_setKey_eq, filter_cons_True by done. simpl.
      by destruct (lookupKey n (nodeFilters p)).
    + rewrite lookupKey_setKey_ne, filter_cons_False by done. simpl.
      by rewrite joinCallbacks_nil.
  - intros H. apply Hnd. simpl. by apply NoDup_keys_setKey.
Qed.

Lemma addAttributeFilter_lookup names (cb : Callback) : ∀ p k,
  lookupFilter k (attributeFilters (addAttributeFilter names cb p))
  = joinCallbacks (lookupFilter k (attributeFilters p))
      (map (λ _, cb) (filter (λ x, x = k) names))
  ∧ nodeFilters (addAttributeFilter names cb p) = nodeFilters p
  ∧ uid (addAttributeFilter names cb p) = uid p
  ∧ (NoDup (map filterName (attributeFilters p)) →
     NoDup (map filterName (attributeFilters (addAttributeFilter names cb p))))
  ∧ map filterName (attributeFilters p)
    `prefix_of` map filterName (attributeFilters (addAttributeFilter names cb p)).
Proof.
  unfold addAttributeFilter. induction names as [|n names IH]; intros p k.
  { simpl. by rewrite joinCallbacks_nil. }
  change (fold_left _ (n :: names) p)
    with (fold_left (λ acc name, addAttributeFilter1 name cb acc) names
            (addAttributeFilter1 n cb p)).
  destruct (IH (addAttributeFilter1 n cb p) k) as (Hl & Ha & Hu & Hnd & Hpre).
  rewrite Hl, Ha, Hu. split; [|split; [done|split; [done|split]]].
  - rewrite filter_eq_cons, <- joinCallbacks_app. f_equal. simpl.
    apply lookupFilter_addToFilters.
  - intros H. apply Hnd. simpl. rewrite names_addToFilters.
    case_decide as Hin; [done|]. apply NoDup_app. split; [done|].
    split; [|apply NoDup_singleton].
    intros x Hx Hx'. apply list_elem_of_singleton in Hx'. by subst.
  - etrans; [|exact Hpre]. simpl. rewrite names_addToFilters.
    case_decide; [done|]. by apply prefix_app_r.
Qed.

Lemma register_all regs : ∀ p k,
  let p' := fold_left (λ acc r, register r acc) regs p in
  lookupKey k (nodeFilters p')
  = joinCallbacks (lookupKey k (nodeFilters p)) (registeredUnder false k regs)
  ∧ lookupFilter k (attributeFilters p')
    = joinCallbacks (lookupFilter k (attributeFilters p)) (registeredUnder true k regs)
  ∧ (NoDup (map fst (nodeFilters p)) → NoDup (map fst (nodeFilters p')))
  ∧ (NoDup (map filterName (attributeFilters p)) →
     NoDup (map filterName (attributeFilters p')))
  ∧ map filterName (attributeFilters p) `prefix_of` map filterName (attributeFilters p').
Proof.
  induction regs as [|[[b names] cb] regs IH]; intros p k p'; subst p'; simpl.
  { by rewrite !joinCallbacks_nil. }
  destruct (IH (register (b, names, cb) p) k) as (Hn & Ha & Hnd & Hna & Hpre).
  simpl in Hn, Ha, Hnd, Hna, Hpre.
  rewrite Hn, Ha. unfold registeredUnder. simpl. fold (registeredUnder false k regs).
  fold (registeredUnder true k regs).
  destruct b; simpl.
  - destruct (addAttributeFilter_lookup names cb p k) as (Hl & Hnf & _ & Hnd1 & Hpre1).
    rewrite Hl, Hnf, joinCallbacks_app in *. split; [done|]. split; [done|].
    split; [done|]. split; [by intros; apply Hna, Hnd1|]. by etrans.
  - destruct (addNodeFilter_lookup names cb p k) as (Hl & Haf & _ & Hnd1).
    rewrite Hl, Haf, joinCallbacks_app in *. split; [done|]. split; [done|].
    split; [by intros; apply Hnd, Hnd1|]. done.
Qed.


(** X5: the attribute filter list of a parser has one filter per
    registered name, holding exactly the callbacks registered under that
    name in the order of registration; a further registration leaves the
    filters that are there in their places, a new name going last. *)
Theorem attribute_filters_as_registered regs :
  let p := newDomParser regs in
  NoDup (map filterName (attributeFilters p))
  ∧ (∀ f, f ∈ attributeFilters p →
          callbacks f = registeredUnder true (filterName f) regs ∧ callbacks f ≠ [])
  ∧ (∀ k, registeredUnder true k regs ≠ [] →
          ∃ f, f ∈ attributeFilters p ∧ filterName f = k)
  ∧ (∀ r, map filterName (attributeFilters p)
          `prefix_of` map filterName (attributeFilters (newDomParser (regs ++ [r])))).
Proof.
  intros p.
  pose (p0 := {| uid := 0; nodeFilters := @nil (string * list Callback);
                 attributeFilters := [] |}).
  assert (Hl : ∀ k, lookupFilter k (attributeFilters p)
                    = joinCallbacks None (registeredUnder true k regs)).
  { intros k. unfold p, newDomParser.
    destruct (register_all regs p0 k) as (_ & H & _). exact H. }
  assert (Hnd : NoDup (map filterName (attributeFilters p))).
  { unfold p, newDomParser.
    destruct (register_all regs p0 "") as (_ & _ & _ & H & _). apply H. constructor. }
  split; [exact Hnd|]. split; [|split].
  - intros f Hf. apply lookupFilter_elem in Hf; [|done].
    rewrite Hl in Hf. destruct (registeredUnder true (filterName f) regs); [done|].
    simpl in Hf. by injection Hf as <-.
  - intros k Hk. specialize (Hl k).
    destruct (registeredUnder true k regs) as [|cb cbs] eqn:E; [done|]. simpl in Hl.
    apply lookupFilter_Some_elem in Hl as (f & Hf & Hn & _). by exists f.
  - intros r. unfold newDomParser, p. rewrite fold_left_app. simpl.
    destruct (register_all [r] (newDomParser regs) "") as (_ & _ & _ & _ & H).
    exact H.
Qed.

End RegistryLemmas.

(** ** What the validation walk changes and records *)

Section WalkerFrame.
Import AstNode.
Context {Callback : Type}.
Variable schema : Schema.
Variable settings : DomParserSettings.
Variable nodeFilters : list (string * list Callback).
Variable attributeFilters : list (ParserFilter (Callback:=Callback)).

Lemma content_unwrap x (s : Store) m : content <$> unwrap x s !! m = content <$> s !! m.
Proof.
  unfold unwrap. destruct (parentOf s x); [|done].
  by rewrite field_update, field_foldr_update, field_update.
Qed.

Lemma content_fields (s s' : Store) m :
  content <$> s' !! m = content <$> s !! m →
  typeOf s' m = typeOf s m ∧ valueOf s' m = valueOf s m
  ∧ attributesOf s' m = attributesOf s m ∧ rawOf s' m = rawOf s m.
Proof.
  unfold typeOf, valueOf, attributesOf, rawOf, content.
  destruct (s' !! m) as [x|], (s !! m) as [y|]; simpl; try done.
  by intros [= -> -> -> ->].
Qed.

Lemma walkerStep_frame (s : Store) node state s1 node1 state1 :
  walkerStep schema settings nodeFilters attributeFilters s node state
    = Some (s1, node1, state1) →
  length s1 = length s
  ∧ (∀ m, content <$> s1 !! m = content <$> s !! m)
  ∧ (validate settings = false → s1 = s).
Proof.
  unfold walkerStep. destruct (walk s node) as [n|]; [|done].
  destruct (typeOf s n =? 1).
  - destruct (validate settings) eqn:Hv.
    + destruct (getElementRule schema (nameOf s n)) as [rule|].
      * intros [= <- _ _]. split; [|split; [|done]].
        -- destruct (outputName rule) as [out|]; [|done].
           destruct (Js.truthy out); [apply length_update|done].
        -- intros m. destruct (outputName rule) as [out|]; [|done].
           destruct (Js.truthy out); [|done]. by rewrite field_update.
      * intros [= <- _ _]. split; [apply length_unwrap|].
        split; [apply content_unwrap|done].
    + simpl. by intros [= <- _ _].
  - by intros [= <- _ _].
Qed.

Lemma walkerReaches_frame x y :
  walkerReaches schema settings nodeFilters attributeFilters x y →
  length y.1.1 = length x.1.1
  ∧ (∀ m, content <$> y.1.1 !! m = content <$> x.1.1 !! m)
  ∧ (validate settings = false → y.1.1 = x.1.1).
Proof.
  induction 1 as [x|s node state [[s1 n1] st1] y Hstep _ IH]; [done|].
  apply walkerStep_frame in Hstep as (Hl & Hc & Hv). simpl in *.
  destruct IH as (Hl' & Hc' & Hv').
  split; [congruence|]. split; [intros m; by rewrite Hc', Hc|].
  intros H. by rewrite Hv', Hv.
Qed.

(** X6: with validation disabled the validation walk leaves the tree as
    it is: no element is unwrapped and none is renamed. *)
Theorem walker_without_validation fuel root (s s' : Store) state :
  validate settings = false →
  walker schema settings fuel root nodeFilters attributeFilters s = Some (s', state) →
  s' = s.
Proof.
  intros Hv Hw. unfold walker in Hw.
  apply walkerLoop_reaches in Hw as (node' & Hreach & _).
  apply walkerReaches_frame in Hreach as (_ & _ & H). by apply H.
Qed.

(** X7: whatever the settings, the validation walk neither adds nor
    drops a node of the store and changes no type, value, attribute list
    or raw flag: it only renames and relinks. *)
Theorem walker_keeps_content fuel root (s s' : Store) state :
  walker schema settings fuel root nodeFilters attributeFilters s = Some (s', state) →
  length s' = length s
  ∧ ∀ m, typeOf s' m = typeOf s m ∧ valueOf s' m = valueOf s m
         ∧ attributesOf s' m = attributesOf s m ∧ rawOf s' m = rawOf s m.
Proof.
  intros Hw. unfold walker in Hw.
  apply walkerLoop_reaches in Hw as (node' & Hreach & _).
  apply walkerReaches_frame in Hreach as (Hl & Hc & _).
  split; [done|]. intros m. apply content_fields, Hc.
Qed.

End WalkerFrame.

Lemma walker_without_validation_witness :
  let s : Store :=
    [AstNode.mk "body" 11 "" None false None [1];
     AstNode.mk "foo" 1 "" (Some []) false (Some 0) [2];
     AstNode.mk "#text" 3 "text" None false (Some 1) []] in
  ∃ state,
    walker Sample.schema Lax.settings 10 0 (nodeFilters Sample.parser)
      (attributeFilters Sample.parser) s = Some (s, state).
Proof.
  intros s.
  destruct (walker Sample.schema Lax.settings 10 0 (nodeFilters Sample.parser)
              (attributeFilters Sample.parser) s) as [[s' state]|] eqn:Hw;
    [|vm_compute in Hw; discriminate].
  exists state.
  by rewrite (walker_without_validation Sample.schema Lax.settings
                (nodeFilters Sample.parser) (attributeFilters Sample.parser)
                10 0 s s' state eq_refl Hw).
Defined.

Lemma walker_keeps_content_witness :
  let s : Store :=
    [AstNode.mk "body" 11 "" None false None [1];
     AstNode.mk "foo" 1 "" (Some []) false (Some 0) [2];
     AstNode.mk "#text" 3 "text" None false (Some 1) []] in
  ∃ s' state,
    walker Sample.schema Sample.settings 10 0 (nodeFilters Sample.parser)
      (attributeFilters Sample.parser) s = Some (s', state)
    ∧ AstNode.childrenOf s' 0 = [2]
    ∧ length s' = 3
    ∧ AstNode.valueOf s' 2 = "text".
Proof.
  intros s. eexists _, _. split; [vm_compute; reflexivity|]. split; [reflexivity|].
  destruct (walker_keeps_content Sample.schema Sample.settings
              (nodeFilters Sample.parser) (attributeFilters Sample.parser) 10 0 s _ _
              ltac:(vm_compute; reflexivity)) as [Hl Hc].
  split; [exact Hl|]. by destruct (Hc 2) as (_ & -> & _).
Defined.

Section Recorded.
Import AstNode.
Context {Callback : Type}.
Variable schema : Schema.
Variable settings : DomParserSettings.
Variable nodeFilters : list (string * list Callback).
Variable attributeFilters : list (ParserFilter (Callback:=Callback)).

Lemma lookupKey_pushMatch_key k k' n (m : list (string * list NodeId)) l :
  lookupKey k (pushMatch k' n m) = Some l →
  (k = k' ∧ ∃ l0, l = l0 ++ [n] ∧ (lookupKey k m = Some l0 ∨ l0 = []))
  ∨ lookupKey k m = Some l.
Proof.
  unfold pushMatch. destruct (decide (k = k')) as [->|Hne].
  - destruct (lookupKey k' m) as [l0|] eqn:Hl0; rewrite lookupKey_setKey_eq;
      intros [= <-]; left; (split; [done|]).
    + exists l0. eauto.
    + exists []. eauto.
  - destruct (lookupKey k' m); rewrite lookupKey_setKey_ne by done; eauto.
Qed.

Lemma recordedWell_frame (s s1 : Store) state :
  length s1 = length s → (∀ m, content <$> s1 !! m = content <$> s !! m) →
  recordedWell nodeFilters attributeFilters s state →
  recordedWell nodeFilters attributeFilters s1 state.
Proof.
  intros Hl Hc (Hn & Ha & Hi). split; [|split].
  - intros k l Hk. destruct (Hn k l Hk) as (? & ? & ?). by rewrite Hl.
  - intros k l Hk. destruct (Ha k l Hk) as (? & ? & Hall).
    split; [done|]. split; [done|].
    eapply Forall_impl; [exact Hall|]. intros n (attrs & Hat & Hhas). simpl.
    exists attrs. split; [|done].
    destruct (content_fields s s1 n (Hc n)) as (_ & _ & -> & _). done.
  - by rewrite Hl.
Qed.

Lemma matchAttributes_recorded (s : Store) n attrs : ∀ i m,
  attributesOf s n = Some attrs →
  (∀ k l, lookupKey k m = Some l →
          (∃ f, f ∈ attributeFilters ∧ filterName f = k) ∧ l ≠ []
          ∧ Forall (λ n, ∃ attrs, attributesOf s n = Some attrs
                                  ∧ hasAttribute k attrs = true) l) →
  ∀ k l, lookupKey k (matchAttributes i attributeFilters attrs n m) = Some l →
         (∃ f, f ∈ attributeFilters ∧ filterName f = k) ∧ l ≠ []
         ∧ Forall (λ n, ∃ attrs, attributesOf s n = Some attrs
                                 ∧ hasAttribute k attrs = true) l.
Proof.
  induction i as [|i IH]; intros m Hat Hm; [done|]. simpl.
  apply IH; [done|].
  destruct (attributeFilters !! i) as [f|] eqn:Hf; [|done].
  destruct (hasAttribute (filterName f) attrs) eqn:Hhas; [|done].
  intros k l Hk. apply lookupKey_pushMatch_key in Hk as [(-> & l0 & -> & Hl0)|Hk];
    [|by apply Hm].
  split; [exists f; split; [by eapply list_elem_of_lookup_2|done]|].
  split; [by destruct l0|].
  apply Forall_app. split; [|constructor; [by exists attrs|done]].
  destruct Hl0 as [Hl0| ->]; [|done]. by destruct (Hm _ _ Hl0) as (_ & _ & ?).
Qed.

Lemma recordedWell_walkerCheck (s : Store) n state :
  n < length s →
  recordedWell nodeFilters attributeFilters s state →
  recordedWell nodeFilters attributeFilters s
    (walkerCheck schema nodeFilters attributeFilters s n state).
Proof.
  intros Hlt (Hn & Ha & Hi).
  assert (recordedWell nodeFilters attributeFilters s
            (filterNode n nodeFilters attributeFilters s state)) as Hf.
  { unfold filterNode. split; [|split]; simpl.
    - destruct (hasKey (nameOf s n) nodeFilters) eqn:Hk; [|done].
      intros k l Hl. apply lookupKey_pushMatch_key in Hl as [(-> & l0 & -> & Hl0)|Hl];
        [|by apply Hn].
      split; [done|]. split; [by destruct l0|].
      apply Forall_app. split; [|by constructor].
      destruct Hl0 as [Hl0| ->]; [|done]. by destruct (Hn _ _ Hl0) as (_ & _ & ?).
    - destruct (attributesOf s n) as [attrs|] eqn:Hat; [|done].
      by apply (matchAttributes_recorded s n attrs).
    - done. }
  unfold walkerCheck. destruct (parentOf s n); [|done].
  destruct (isInvalidChild _ _ _ _); [|done].
  destruct Hf as (Hn' & Ha' & Hi'). split; [done|]. split; [done|]. simpl.
  apply Forall_app. split; [done|by constructor].
Qed.

Lemma recordedWell_step (s : Store) node state s1 node1 state1 :
  childrenLinked s →
  walkerStep schema settings nodeFilters attributeFilters s node state
    = Some (s1, node1, state1) →
  recordedWell nodeFilters attributeFilters s state →
  recordedWell nodeFilters attributeFilters s1 state1.
Proof.
  intros Hcl Hstep Hr.
  destruct (walkerStep_frame schema settings nodeFilters attributeFilters
              s node state s1 node1 state1 Hstep) as (Hl & Hc & _).
  pose proof (recordedWell_frame s s1 state Hl Hc Hr) as Hr1.
  unfold walkerStep in Hstep. destruct (walk s node) as [n|] eqn:Hw; [|done].
  assert (Hn : n < length s1).
  { destruct (walk_attached s node n Hcl Hw) as [p Hp].
    apply parent_in_store in Hp. lia. }
  destruct (typeOf s n =? 1).
  - destruct (if validate settings then _ else _) as [rule|].
    + injection Hstep as Hs <- <-. rewrite Hs. by apply recordedWell_walkerCheck.
    + by injection Hstep as <- <- <-.
  - injection Hstep as <- <- <-. by apply recordedWell_walkerCheck.
Qed.

Lemma recordedWell_reaches x y :
  walkerReaches schema settings nodeFilters attributeFilters x y →
  wellFormed x.1.1 →
  recordedWell nodeFilters attributeFilters x.1.1 x.2 →
  recordedWell nodeFilters attributeFilters y.1.1 y.2.
Proof.
  induction 1 as [x|s node state [[s1 n1] st1] y Hstep _ IH]; [done|].
  intros Hwf Hr. simpl in *. apply IH.
  - by apply (wellFormed_walkerStep schema settings nodeFilters attributeFilters
                s node state (s1, n1, st1)).
  - eapply recordedWell_step; [apply Hwf|exact Hstep|exact Hr].
Qed.

(** X8: what the validation walk of a well-formed tree records is well
    kept: a name has matched nodes only if it has node filters, and nodes
    matched by attribute only if it is the name of an attribute filter
    and those nodes carry the attribute; no list of matched nodes is
    empty; and every recorded node is a node of the tree.  So the
    dispatch finds a list of callbacks for every name it goes through. *)
Theorem walker_records_registered_names fuel root (s s' : Store) state :
  wellFormed s →
  walker schema settings fuel root nodeFilters attributeFilters s = Some (s', state) →
  recordedWell nodeFilters attributeFilters s' state
  ∧ ∀ name, name ∈ map fst (matchedNodes state) →
            is_Some (lookupKey name nodeFilters).
Proof.
  intros Hwf Hw. unfold walker in Hw.
  apply walkerLoop_reaches in Hw as (node' & Hreach & _).
  apply recordedWell_reaches in Hreach; [|done|].
  2:{ split; [done|]. split; [done|constructor]. }
  simpl in Hreach. split; [done|].
  intros name Hin. apply list_elem_of_fmap in Hin as ([k l] & -> & Hin). simpl.
  destruct Hreach as (Hn & _).
  assert (∃ l', lookupKey k (matchedNodes state) = Some l') as [l' Hl'].
  { clear Hn. induction (matchedNodes state) as [|[k0 l0] m IH]; simpl.
    - by apply elem_of_nil in Hin.
    - destruct (String.eqb_spec k0 k); [by eexists|].
      apply elem_of_cons in Hin as [[= ? ?]|Hin]; [congruence|by apply IH]. }
  destruct (Hn k l' Hl') as (Hk & _). unfold hasKey in Hk.
  by destruct (lookupKey k nodeFilters).
Qed.

End Recorded.

Lemma walker_records_registered_names_witness :
  let s : Store :=
    [AstNode.mk "body" 11 "" None false None [1];
     AstNode.mk "a" 1 "" (Some [("class", "c"); ("id", "mce_0")]) false (Some 0) [2];
     AstNode.mk "#text" 3 "x" None false (Some 1) []] in
  wellFormed s
  ∧ ∃ s' state,
      walker Sample.schema Sample.settings 10 0 (nodeFilters Sample.parser)
        (attributeFilters Sample.parser) s = Some (s', state)
      ∧ matchedAttributes state = [("class", [1]); ("id", [1])]
      ∧ recordedWell (nodeFilters Sample.parser) (attributeFilters Sample.parser) s' state.
Proof.
  intros s.
  assert (Hwf : wellFormed s) by (apply wellFormedb_sound; reflexivity).
  split; [exact Hwf|].
  eexists _, _. split; [vm_compute; reflexivity|]. split; [reflexivity|].
  apply (walker_records_registered_names Sample.schema Sample.settings
           (nodeFilters Sample.parser) (attributeFilters Sample.parser) 10 0 s _ _ Hwf).
  vm_compute. reflexivity.
Defined.

(** ** What the normalizer leaves alone *)

Section NormalizerFrame.
Import AstNode.
Context {Callback : Type}.
Variable schema : Schema.
Variable settings : DomParserSettings.
Variable isEmpty : Schema → (string → bool) → (string → bool) → Store → NodeId → bool.
Variable isLineBreakNode : Store → option NodeId → (string → bool) → bool.
Variable isPaddedWithNbsp : Store → NodeId → bool.
Variable paddWithBreak :
  DomParserSettings → ParserArgs → (string → bool) → Store → NodeId → bool.
Variable purify : string → Sanitizer.

Lemma tag_unwrap x (s : Store) m : tag <$> unwrap x s !! m = tag <$> s !! m.
Proof.
  unfold unwrap. destruct (parentOf s x); [|done].
  by rewrite field_update, field_foldr_update, field_update.
Qed.

Lemma tag_empty x (s : Store) m : tag <$> empty x s !! m = tag <$> s !! m.
Proof. unfold empty. by rewrite field_update, field_foldr_update. Qed.

Lemma tag_paddEmptyNode args blockElements node (s : Store) m :
  m < length s →
  tag <$> paddEmptyNode settings paddWithBreak args blockElements node s !! m
  = tag <$> s !! m.
Proof.
  intros Hm. unfold paddEmptyNode, create.
  pose proof (length_empty node s) as Hl.
  destruct (paddWithBreak settings args blockElements s node).
  - rewrite tag_append, lookup_app_l by lia. apply tag_empty.
  - rewrite tag_append, field_update by done. rewrite lookup_app_l by lia.
    apply tag_empty.
Qed.

Lemma length_paddEmptyNode args blockElements node (s : Store) :
  length (paddEmptyNode settings paddWithBreak args blockElements node s) = S (length s).
Proof.
  unfold paddEmptyNode, create.
  destruct (paddWithBreak settings args blockElements s node).
  - rewrite length_append, length_app, length_empty. simpl. lia.
  - rewrite length_append, length_update, length_app, length_empty. simpl. lia.
Qed.

Lemma preprocess_frame root args node (s : Store) :
  length (preprocess schema isLineBreakNode root args node s) = length s
  ∧ ∀ m, tag <$> preprocess schema isLineBreakNode root args node s !! m
         = tag <$> s !! m.
Proof.
  unfold preprocess, preprocessElement, preprocessText.
  destruct (typeOf s node =? 1).
  - destruct (attr s node "data-mce-bogus") as [b|]; [|done].
    destruct (String.eqb b "all"); [split; [apply length_remove|apply tag_remove]|].
    destruct (_ && _); [split; [apply length_unwrap|apply tag_unwrap]|done].
  - destruct (typeOf s node =? 3); [|done].
    destruct (negb _); [|done]. simpl.
    destruct (_ =? 0); [split; [apply length_remove|apply tag_remove]|].
    split; [apply length_update|]. intros m. by rewrite field_update.
Qed.

Lemma postprocess_frame root args node (s : Store) :
  length s ≤ length (postprocess schema settings isEmpty isPaddedWithNbsp paddWithBreak
                       root args node s)
  ∧ ∀ m, m < length s →
         tag <$> postprocess schema settings isEmpty isPaddedWithNbsp paddWithBreak
                   root args node s !! m
         = tag <$> s !! m.
Proof.
  unfold postprocess, postprocessElement, postprocessText.
  destruct (typeOf s node =? 1).
  - destruct (getElementRule schema (nameOf s node)) as [rule|]; [|done]. simpl.
    destruct (removeEmpty rule && _).
    + destruct (blockElementsOf schema _).
      * rewrite length_remove. split; [done|]. intros m _. apply tag_remove.
      * rewrite length_unwrap. split; [done|]. intros m _. apply tag_unwrap.
    + destruct (paddEmpty rule && _); [|done].
      rewrite length_paddEmptyNode. split; [lia|]. intros m Hm.
      by apply tag_paddEmptyNode.
  - destruct (typeOf s node =? 3); [|done].
    destruct (negb _); [|done]. simpl.
    destruct (_ =? 0).
    + rewrite length_remove. split; [done|]. intros m _. apply tag_remove.
    + rewrite length_update. split; [done|]. intros m _. by rewrite field_update.
Qed.

Lemma preprocessLoop_frame root args fuel : ∀ (s : Store) node lastNode nodes s' nodes',
  preprocessLoop schema isLineBreakNode root args fuel s node lastNode nodes
    = Some (s', nodes') →
  length s' = length s ∧ ∀ m, tag <$> s' !! m = tag <$> s !! m.
Proof.
  induction fuel as [|fuel IH]; intros s node lastNode nodes s' nodes'; simpl;
    destruct (preprocess_frame root args node s) as [Hl Ht];
    destruct (match parentOf _ node with Some _ => _ | None => _ end) as [node1 nodes1];
    destruct (walk _ node1) as [node2|]; try done.
  - by intros [= <- _].
  - intros H. apply IH in H as [Hl' Ht']. split; [congruence|].
    intros m. by rewrite Ht', Ht.
  - by intros [= <- _].
Qed.

Lemma simplifyDom_frame root args fuel (s s' : Store) :
  simplifyDom schema settings isEmpty isLineBreakNode isPaddedWithNbsp paddWithBreak
    root args fuel s = Some s' →
  length s ≤ length s' ∧ ∀ m, m < length s → tag <$> s' !! m = tag <$> s !! m.
Proof.
  unfold simplifyDom.
  destruct (preprocessLoop _ _ _ _ _ _ _ _ _) as [[s1 nodes]|] eqn:Hl; [|done].
  intros [= <-]. apply preprocessLoop_frame in Hl as [Hlen Htag].
  rewrite <- Hlen.
  assert (H : ∀ (l : list NodeId) (s0 : Store),
            length s0 ≤ length (fold_left (λ acc node,
                postprocess schema settings isEmpty isPaddedWithNbsp paddWithBreak
                  root args node acc) l s0)
            ∧ ∀ m, m < length s0 →
                   tag <$> fold_left (λ acc node,
                       postprocess schema settings isEmpty isPaddedWithNbsp paddWithBreak
                         root args node acc) l s0 !! m
                   = tag <$> s0 !! m).
  { induction l as [|n l IH]; intros s0; [done|]. simpl.
    destruct (postprocess_frame root args n s0) as [Hl0 Ht0].
    destruct (IH (postprocess schema settings isEmpty isPaddedWithNbsp paddWithBreak
                    root args n s0)) as [Hl1 Ht1].
    split; [lia|]. intros m Hm. rewrite Ht1 by lia. by apply Ht0. }
  destruct (H (rev nodes) s1) as [H1 H2]. split; [done|].
  intros m Hm. rewrite H2 by done. apply Htag.
Qed.

(** X9: the normalizer drops no node from the store and leaves the name,
    the type and the attributes of every node as they were: it edits
    text values and links, and adds padding nodes; and it keeps a
    well-formed tree well-formed. *)
Theorem simplifyDom_keeps_tags root args fuel (s s' : Store) :
  simplifyDom schema settings isEmpty isLineBreakNode isPaddedWithNbsp paddWithBreak
    root args fuel s = Some s' →
  length s ≤ length s'
  ∧ (∀ m, m < length s →
          nameOf s' m = nameOf s m ∧ typeOf s' m = typeOf s m
          ∧ attributesOf s' m = attributesOf s m)
  ∧ (wellFormed s → wellFormed s').
Proof.
  intros H. destruct (simplifyDom_frame root args fuel s s' H) as [Hl Ht].
  split; [done|]. split.
  - intros m Hm. by apply tag_fields, Ht.
  - intros Hwf. by eapply wellFormed_simplifyDom.
Qed.

(** X10: in every parse call the tree that the validation walk hands
    over is well-formed; its root is the first node of the store, has no
    parent, is of type 11 and is named after the context when a
    (non-empty) context is given and after the [root_name] setting
    otherwise. *)
Theorem walked_tree_well_formed fuel html args (p : DomParser (Callback:=Callback))
    root (s3 : Store) state :
  walked schema settings isEmpty isLineBreakNode isPaddedWithNbsp paddWithBreak purify
    fuel html args p = Some (root, s3, state) →
  root = 0
  ∧ wellFormed s3
  ∧ parentOf s3 root = None
  ∧ typeOf s3 root = 11
  ∧ nameOf s3 root
    = match context args with
      | Some c => if Js.truthy c then c else root_name settings
      | None => root_name settings
      end.
Proof.
  unfold walked.
  destruct (normalized _ _ _ _ _ _ _ _ _ _ _) as [[root0 s2]|] eqn:Hn; [|done].
  destruct (walker _ _ _ _ _ _ _) as [[s3' state']|] eqn:Hw; [|done].
  intros [= <- <- <-].
  pose proof (normalized_wellFormed _ _ _ _ _ _ _ _ _ _ _ _ _ Hn) as [-> Hwf].
  assert (Hpar : parentOf s2 0 = None).
  { destruct (parentOf s2 0) as [q|] eqn:Hq; [|done].
    destruct Hwf as (_ & _ & _ & Hor). apply Hor in Hq. lia. }
  assert (Hroot : typeOf s2 0 = 11
                  ∧ nameOf s2 0 = match context args with
                                  | Some c => if Js.truthy c then c else root_name settings
                                  | None => root_name settings
                                  end).
  { unfold normalized, create in Hn. simpl in Hn.
    destruct (simplifyDom _ _ _ _ _ _ _ _ _ _) as [s2'|] eqn:Hs; [|done].
    injection Hn as <-.
    apply simplifyDom_frame in Hs as [Hl Ht].
    match type of Ht with context [transferChildren 0 ?n ?s0] =>
      destruct (transferChildren_importsWell n 0 s0 ltac:(simpl; lia))
        as (Hlen & _ & (cs & Hp0 & _) & _);
      specialize (Ht 0 ltac:(simpl in Hlen; lia)) end.
    apply tag_fields in Ht as (Hname & Htype & _).
    rewrite Hname, Htype. unfold nameOf, typeOf. rewrite Hp0. done. }
  destruct Hroot as [Hty Hnm].
  pose proof Hw as Hw'. unfold walker in Hw'.
  apply walkerLoop_reaches in Hw' as (node' & Hreach & _).
  split; [done|]. split.
  { by apply wellFormed_reaches in Hreach. }
  destruct (walker_keeps_root schema settings (nodeFilters p) (attributeFilters p)
              0 s2 ltac:(apply Hwf) Hpar) as [Hturn _].
  destruct (Hturn _ _ _ Hreach) as (_ & Hname' & Hpar' & _).
  split; [done|]. split.
  - apply walkerReaches_frame in Hreach as (_ & Hc & _). simpl in Hc.
    destruct (content_fields _ _ _ (Hc 0)) as (Hty' & _). by rewrite Hty'.
  - by rewrite Hname'.
Qed.

End NormalizerFrame.

Lemma simplifyDom_keeps_tags_witness :
  let s : Store :=
    [AstNode.mk "body" 11 "" None false None [1];
     AstNode.mk "p" 1 "" (Some [("class", "c")]) false (Some 0) [2];
     AstNode.mk "#text" 3 "  a  b  " None false (Some 1) []] in
  ∃ s',
    simplifyDom Sample.schema Sample.settings Sample.isEmpty Sample.isLineBreakNode
      Sample.isPaddedWithNbsp Sample.paddWithBreak 0 Sample.args 20 s = Some s'
    ∧ AstNode.valueOf s' 2 = "a b"
    ∧ AstNode.nameOf s' 1 = "p"
    ∧ AstNode.attributesOf s' 1 = Some [("class", "c")].
Proof.
  intros s. eexists. split; [vm_compute; reflexivity|]. split; [reflexivity|].
  destruct (simplifyDom_keeps_tags Sample.schema Sample.settings Sample.isEmpty
              Sample.isLineBreakNode Sample.isPaddedWithNbsp Sample.paddWithBreak
              0 Sample.args 20 s _ ltac:(vm_compute; reflexivity)) as (_ & Ht & _).
  destruct (Ht 1 ltac:(simpl; lia)) as (Hn & _ & Ha). split; [exact Hn|exact Ha].
Defined.

Lemma walked_tree_well_formed_witness :
  ∃ s3 state,
    walked Sample.schema Sample.settings Sample.isEmpty Sample.isLineBreakNode
      Sample.isPaddedWithNbsp Sample.paddWithBreak Sample.purify
      20 "<foo>text</foo>" (Sample.argsIn "div") Sample.parser = Some (0, s3, state)
    ∧ wellFormed s3
    ∧ AstNode.nameOf s3 0 = "div"
    ∧ AstNode.typeOf s3 0 = 11.
Proof.
  eexists _, _. split; [vm_compute; reflexivity|].
  destruct (walked_tree_well_formed Sample.schema Sample.settings Sample.isEmpty
              Sample.isLineBreakNode Sample.isPaddedWithNbsp Sample.paddWithBreak
              Sample.purify 20 "<foo>text</foo>" (Sample.argsIn "div") Sample.parser
              0 _ _ ltac:(vm_compute; reflexivity)) as (_ & Hwf & _ & Hty & Hnm).
  split; [exact Hwf|]. split; [exact Hnm|exact Hty].
Defined.

(** ** Text nodes in the second pass, and under white space elements *)

Section PostprocessText.
Import AstNode.
Variable schema : Schema.
Variable isLineBreakNode : Store → option NodeId → (string → bool) → bool.
Variable root : NodeId.
Variable args : ParserArgs.

Lemma trimEnd_trailing v :
  ∃ ws, v = Js.trimEnd v +:+ ws ∧ allWhiteSpace ws = true.
Proof.
  induction v as [|c r (ws & Hr & Hws)]; [by exists ""|]. simpl.
  destruct (Js.trimEnd r) as [|c' r'] eqn:Ht.
  - rewrite append_nil in Hr. subst ws.
    destruct (Js.isWhiteSpaceChar c) eqn:Hc.
    + exists (String c r). split; [done|]. simpl. by rewrite Hc.
    + by exists r.
  - exists ws. split; [|done]. rewrite append_cons. by f_equal.
Qed.

Lemma trimEnd_ends v : endsWithWhiteSpace (Js.trimEnd v) = false.
Proof.
  induction v as [|c r IH]; [done|]. simpl.
  destruct (Js.trimEnd r) as [|c' r'] eqn:Ht.
  - destruct (Js.isWhiteSpaceChar c) eqn:Hc; [done|]. simpl. exact Hc.
  - exact IH.
Qed.

Lemma isAtEdgeOfBlock_end (s : Store) node :
  isAtEdgeOfBlock schema root args s node false = true
  ↔ next s node = None
    ∧ ∃ p, parentOf s node = Some p
           ∧ blockLevel schema (nameOf s p)
           ∧ (p ≠ root ∨ isRootContent args = true).
Proof.
  unfold isAtEdgeOfBlock. destruct (next s node) as [x|].
  { split; [done|]. by intros [? _]. }
  destruct (parentOf s node) as [p|].
  - rewrite andb_true_iff, orb_true_iff, negb_true_iff, Nat.eqb_neq.
    rewrite blockElementsOf_blockLevel. split.
    + intros [? ?]. split; [done|]. by exists p.
    + by intros [_ (? & [= <-] & ? & ?)].
  - split; [done|]. by intros [_ (? & ? & _)].
Qed.

Lemma stripsTrailing_iff (s : Store) node :
  match next s node with
  | Some n => blockElementsOf schema (nameOf s n)
  | None => false
  end || isAtEdgeOfBlock schema root args s node false = true
  ↔ stripsTrailing schema root args s node.
Proof.
  unfold stripsTrailing. rewrite orb_true_iff, isAtEdgeOfBlock_end.
  apply or_iff_compat_r. destruct (next s node) as [n|].
  - rewrite blockElementsOf_blockLevel. split.
    + intros H. by exists n.
    + by intros (? & [= <-] & ?).
  - split; [done|]. by intros (? & ? & _).
Qed.

(** X11: in pass 2, a text node without a white space preserving
    ancestor has its trailing white space stripped exactly when its next
    sibling has a block-level name, or it is the last child of a
    block-level parent that is not the root (unless the call is a
    root-content parse); white space inside the text is left as it is;
    what is stripped is all white space, and what is left does not end in
    white space; the node is detached when the text comes out empty, and
    the text is stored otherwise. *)
Theorem postprocessText_strips (s : Store) node :
  node < length s →
  hasWhitespaceParent schema s node = false →
  (∃ ws, valueOf s node = Js.trimEnd (valueOf s node) +:+ ws ∧ allWhiteSpace ws = true)
  ∧ endsWithWhiteSpace (Js.trimEnd (valueOf s node)) = false
  ∧ ∃ text,
      (stripsTrailing schema root args s node → text = Js.trimEnd (valueOf s node))
      ∧ (¬ stripsTrailing schema root args s node → text = valueOf s node)
      ∧ (text = "" →
         postprocessText schema root args node s = remove node s
         ∧ parentOf (postprocessText schema root args node s) node = None)
      ∧ (text ≠ "" →
         postprocessText schema root args node s = update (setValue text) node s
         ∧ valueOf (postprocessText schema root args node s) node = text).
Proof.
  intros Hnode Hws. split; [apply trimEnd_trailing|]. split; [apply trimEnd_ends|].
  unfold postprocessText. rewrite Hws. simpl.
  pose proof (stripsTrailing_iff s node) as Hiff.
  destruct (match next s node with
            | Some n => blockElementsOf schema (nameOf s n)
            | None => false
            end || isAtEdgeOfBlock schema root args s node false) eqn:Hb.
  - exists (Js.trimEnd (valueOf s node)).
    split; [done|]. split; [intros Hn; destruct Hn; by apply Hiff|].
    split.
    + intros ->. simpl. split; [done|]. apply parentOf_remove_self.
    + intros Hne. destruct (Js.trimEnd _) as [|c r]; [done|]. simpl.
      split; [done|]. by apply valueOf_setValue.
  - exists (valueOf s node).
    split; [intros Hs; apply Hiff in Hs; done|]. split; [done|].
    split.
    + intros ->. simpl. split; [done|]. apply parentOf_remove_self.
    + intros Hne. destruct (valueOf s node) as [|c r]; [done|]. simpl.
      split; [done|]. by apply valueOf_setValue.
Qed.

Lemma hasWhitespaceParentFrom_true fuel : ∀ (s : Store) node,
  hasWhitespaceParentFrom schema fuel s node = true →
  ∃ k a, k ≤ fuel ∧ nthAncestor k s node = Some a
         ∧ getWhiteSpaceElements schema (nameOf s a) = true.
Proof.
  induction fuel as [|fuel IH]; intros s node H; simpl in H.
  - destruct (getWhiteSpaceElements schema (nameOf s node)) eqn:Hw.
    + by exists 0, node.
    + by destruct (parentOf s node).
  - destruct (getWhiteSpaceElements schema (nameOf s node)) eqn:Hw.
    + exists 0, node. split; [lia|done].
    + destruct (parentOf s node) as [p|] eqn:Hp; [|done].
      destruct (IH s p H) as (k & a & Hk & Ha & Hwa).
      exists (S k), a. split; [lia|]. split; [|done]. simpl. by rewrite Hp.
Qed.

(** X12: a text node that is inside a white space preserving element is
    left as it is by both passes of the normalizer; a text node counts as
    inside one exactly when it or one of its ancestors (up to as many
    levels as the store has nodes) has a name in the schema's set of
    white space elements. *)
Theorem preserved_text_untouched (s : Store) node :
  (hasWhitespaceParent schema s node = true
   ↔ ∃ k a, k ≤ length s ∧ nthAncestor k s node = Some a
            ∧ getWhiteSpaceElements schema (nameOf s a) = true)
  ∧ (hasWhitespaceParent schema s node = true →
     preprocessText schema isLineBreakNode root args node s = s
     ∧ postprocessText schema root args node s = s).
Proof.
  split.
  - split; [apply hasWhitespaceParentFrom_true|].
    intros (k & a & Hk & Ha & Hw).
    destruct (hasWhitespaceParent schema s node) eqn:E; [done|].
    pose proof (hasWhitespaceParentFrom_ancestors schema (length s) s node E k a Hk Ha).
    congruence.
  - intros H. unfold preprocessText, postprocessText. by rewrite H.
Qed.

End PostprocessText.

Lemma postprocessText_strips_witness :
  let s : Store :=
    [AstNode.mk "body" 11 "" None false None [1; 2];
     AstNode.mk "#text" 3 "a  b  " None false (Some 0) [];
     AstNode.mk "p" 1 "" (Some []) false (Some 0) []] in
  hasWhitespaceParent Sample.schema s 1 = false
  ∧ stripsTrailing Sample.schema 0 Sample.args s 1
  ∧ AstNode.valueOf (postprocessText Sample.schema 0 Sample.args 1 s) 1 = "a  b".
Proof.
  intros s.
  assert (Hstrips : stripsTrailing Sample.schema 0 Sample.args s 1).
  { left. exists 2. split; [reflexivity|]. left. reflexivity. }
  split; [reflexivity|]. split; [exact Hstrips|].
  destruct (postprocessText_strips Sample.schema 0 Sample.args s 1
              ltac:(simpl; lia) eq_refl) as (_ & _ & text & Hs & _ & _ & Hne).
  rewrite (Hs Hstrips) in Hne. by apply Hne.
Defined.

(** ** Bogus elements in the first pass *)

Section Bogus.
Import AstNode.

(** X13: in pass 1 an element whose [data-mce-bogus] attribute is "all"
    is detached from its parent, keeping what is below it; one whose
    [data-mce-bogus] is "1" is unwrapped unless it carries a (non-empty)
    [data-mce-type]; any other element is left as it is, also when
    [data-mce-bogus] has another value. *)
Theorem preprocessElement_bogus (s : Store) node :
  (attr s node "data-mce-bogus" = Some "all" →
   preprocessElement node s = remove node s
   ∧ parentOf (preprocessElement node s) node = None
   ∧ (parentOf s node ≠ Some node →
      childrenOf (preprocessElement node s) node = childrenOf s node)
   ∧ ∀ p, parentOf s node = Some p → p ≠ node →
          childrenOf (preprocessElement node s) p
          = filter (λ c, c ≠ node) (childrenOf s p))
  ∧ (attr s node "data-mce-bogus" = Some "1" →
     (attr s node "data-mce-type" = None ∨ attr s node "data-mce-type" = Some "" →
      preprocessElement node s = unwrap node s)
     ∧ (∀ v, attr s node "data-mce-type" = Some v → v ≠ "" →
             preprocessElement node s = s))
  ∧ (∀ b, attr s node "data-mce-bogus" = Some b → b ≠ "all" → b ≠ "1" →
          preprocessElement node s = s)
  ∧ (attr s node "data-mce-bogus" = None → preprocessElement node s = s).
Proof.
  unfold preprocessElement. split; [|split; [|split]].
  - intros ->. simpl. split; [done|]. split; [apply parentOf_remove_self|].
    destruct (parentOf s node) as [p|] eqn:Hp.
    + split.
      * intros Hne. rewrite (childrenOf_remove node p) by done.
        rewrite decide_False; [done|congruence].
      * intros p' [= <-] Hne. rewrite (childrenOf_remove node p) by done.
        by rewrite decide_True.
    + split; [by rewrite remove_detached|done].
  - intros ->. simpl. split.
    + intros H. apply attrTruthy_false in H. by rewrite H.
    + intros v Hv Hne. unfold attrTruthy. rewrite Hv. by destruct v.
  - intros b -> Hall H1.
    destruct (String.eqb_spec b "all"); [done|].
    by destruct (String.eqb_spec b "1").
  - by intros ->.
Qed.

End Bogus.

(** ** Parse calls: empty input, and calls without a context *)

Section ParseEdges.
Import AstNode.
Context {Callback : Type}.
Variable invoke :
  Callback → list NodeId → string → ParserArgs → Store → Store * list NodeId.
Variable schema : Schema.
Variable settings : DomParserSettings.
Variable isEmpty : Schema → (string → bool) → (string → bool) → Store → NodeId → bool.
Variable isLineBreakNode : Store → option NodeId → (string → bool) → bool.
Variable isPaddedWithNbsp : Store → NodeId → bool.
Variable paddWithBreak :
  DomParserSettings → ParserArgs → (string → bool) → Store → NodeId → bool.
Variable cleanInvalidNodes :
  list NodeId → (NodeId → Store → WalkResult → WalkResult) →
  Store → WalkResult → Store * WalkResult.
Variable purify : string → Sanitizer.

#[local] Abbreviation parse'' :=
  (parse invoke schema settings isEmpty isLineBreakNode isPaddedWithNbsp
     paddWithBreak cleanInvalidNodes purify).







End ParseEdges.



(** ** The dispatch of the node filters *)

Section NodeFilterDispatch.
Context {Callback : Type}.
Variable invoke :
  Callback → list NodeId → string → ParserArgs → Store → Store * list NodeId.




End NodeFilterDispatch.


(** ** Trimming a root block *)

Section TrimRootBlock.
Import AstNode.

Lemma valueOf_map_value (g : string → string) n (s : Store) m :
  g "" = "" →
  valueOf (update (λ x, setValue (g (value x)) x) n s) m
  = if decide (n = m) then g (valueOf s m) else valueOf s m.
Proof.
  intros Hg. unfold valueOf. rewrite lookup_update. case_decide; [|done].
  destruct (s !! m); simpl; [done|by rewrite Hg].
Qed.

Lemma trimFirst_value rb (s : Store) m :
  valueOf (trimFirst rb s) m
  = if decide (firstChild s rb = Some m ∧ typeOf s m = 3)
    then Js.trimStart (valueOf s m) else valueOf s m.
Proof.
  unfold trimFirst. destruct (firstChild s rb) as [f|].
  - destruct (typeOf s f =? 3) eqn:Ht.
    + apply Nat.eqb_eq in Ht. rewrite valueOf_map_value by done.
      destruct (decide (f = m)) as [->|Hne].
      * by rewrite decide_True.
      * rewrite decide_False; [done|]. intros [[= ?] _]. done.
    + apply Nat.eqb_neq in Ht. rewrite decide_False; [done|].
      intros [[= ->] ?]. done.
  - rewrite decide_False; [done|]. by intros [? _].
Qed.

Lemma trimLast_value rb (s : Store) m :
  valueOf (trimLast rb s) m
  = if decide (lastChild s rb = Some m ∧ typeOf s m = 3)
    then Js.trimEnd (valueOf s m) else valueOf s m.
Proof.
  unfold trimLast. destruct (lastChild s rb) as [f|].
  - destruct (typeOf s f =? 3) eqn:Ht.
    + apply Nat.eqb_eq in Ht. rewrite valueOf_map_value by done.
      destruct (decide (f = m)) as [->|Hne].
      * by rewrite decide_True.
      * rewrite decide_False; [done|]. intros [[= ?] _]. done.
    + apply Nat.eqb_neq in Ht. rewrite decide_False; [done|].
      intros [[= ->] ?]. done.
  - rewrite decide_False; [done|]. by intros [? _].
Qed.

Lemma trimFirst_links rb (s : Store) m :
  lastChild (trimFirst rb s) m = lastChild s m ∧ typeOf (trimFirst rb s) m = typeOf s m.
Proof.
  destruct (trimFirst_frame rb s) as (_ & Ht & _).
  destruct (tag_fields s (trimFirst rb s) m (Ht m)) as (_ & -> & _).
  split; [|done]. unfold lastChild, trimFirst.
  destruct (firstChild s rb) as [f|]; [|done]. destruct (_ =? 3); [|done].
  unfold childrenOf. by rewrite field_update.
Qed.

Lemma trimEnd_keeps_start v :
  startsWithWhiteSpace v = false → startsWithWhiteSpace (Js.trimEnd v) = false.
Proof.
  destruct v as [|c r]; [done|]. simpl. intros Hc.
  destruct (Js.trimEnd r); [by rewrite Hc|done].
Qed.

(** X17: when the scan closes a root block it trims it: a text node that
    is the first child of the root block is left without leading white
    space, a text node that is its last child without trailing white
    space; the value of every other node, and everything but values, is
    left as it was. *)
Theorem trim_edges rb (s : Store) :
  (∀ f, firstChild s rb = Some f → typeOf s f = 3 →
        startsWithWhiteSpace (valueOf (trim (Some rb) s) f) = false)
  ∧ (∀ l, lastChild s rb = Some l → typeOf s l = 3 →
          endsWithWhiteSpace (valueOf (trim (Some rb) s) l) = false)
  ∧ (∀ m, ¬ (firstChild s rb = Some m ∧ typeOf s m = 3) →
          ¬ (lastChild s rb = Some m ∧ typeOf s m = 3) →
          valueOf (trim (Some rb) s) m = valueOf s m)
  ∧ (∀ m, parentOf (trim (Some rb) s) m = parentOf s m
          ∧ childrenOf (trim (Some rb) s) m = childrenOf s m
          ∧ nameOf (trim (Some rb) s) m = nameOf s m
          ∧ typeOf (trim (Some rb) s) m = typeOf s m
          ∧ attributesOf (trim (Some rb) s) m = attributesOf s m).
Proof.
  assert (Hv : ∀ m, valueOf (trim (Some rb) s) m
                    = if decide (lastChild s rb = Some m ∧ typeOf s m = 3)
                      then Js.trimEnd (valueOf (trimFirst rb s) m)
                      else valueOf (trimFirst rb s) m).
  { intros m. unfold trim. rewrite trimLast_value.
    destruct (trimFirst_links rb s rb) as [-> _].
    destruct (trimFirst_links rb s m) as [_ ->]. done. }
  split; [|split; [|split]].
  - intros f Hf Ht. rewrite Hv, trimFirst_value.
    rewrite (decide_True (P := firstChild s rb = Some f ∧ _)) by done.
    case_decide.
    + apply trimEnd_keeps_start, trimStart_starts.
    + apply trimStart_starts.
  - intros l Hl Ht. rewrite Hv. rewrite decide_True by done. apply trimEnd_ends.
  - intros m Hf Hl. rewrite Hv, trimFirst_value. by rewrite !decide_False.
  - intros m. destruct (trim_frame 0 (length s) (Some rb) s) as (_ & Ht & Hp & _).
    destruct (lt_dec m (length s)) as [Hm|Hm].
    + destruct (tag_fields _ _ m (Ht m Hm)) as (Hn & Hty & Ha).
      rewrite Hp by lia. by rewrite trim_children.
    + pose proof (length_trim (Some rb) s) as Hl.
      unfold parentOf, childrenOf, nameOf, typeOf, attributesOf.
      by rewrite !lookup_ge_None_2 by lia.
Qed.

End TrimRootBlock.

(** ** The three white space replacements *)

Section Replacements.

Lemma trimStart_id v : startsWithWhiteSpace v = false → Js.trimStart v = v.
Proof. destruct v as [|c r]; [done|]. simpl. by intros ->. Qed.

Lemma collapseFrom_true_starts v : startsWithWhiteSpace (Js.collapseFrom true v) = false.
Proof.
  induction v as [|c r IH]; [done|]. simpl.
  destruct (Js.isWhiteSpaceChar c) eqn:Hc; [exact IH|]. simpl. exact Hc.
Qed.

Lemma collapseFrom_idempotent v : ∀ b,
  Js.collapseFrom false (Js.collapseFrom b v) = Js.collapseFrom b v.
Proof.
  induction v as [|c r IH]; intros b; [done|]. simpl.
  destruct (Js.isWhiteSpaceChar c) eqn:Hc.
  - destruct b; [apply IH|]. simpl. f_equal.
    rewrite collapseFrom_in_run, trimStart_id by apply collapseFrom_true_starts.
    apply IH.
  - simpl. rewrite Hc. f_equal. apply IH.
Qed.

Lemma trimEnd_idempotent v : Js.trimEnd (Js.trimEnd v) = Js.trimEnd v.
Proof.
  induction v as [|c r IH]; [done|]. simpl.
  destruct (Js.trimEnd r) as [|c' r'] eqn:Ht.
  - destruct (Js.isWhiteSpaceChar c) eqn:Hc; [done|]. simpl. by rewrite Hc.
  - change (Js.trimEnd (String c (String c' r')))
      with (match Js.trimEnd (String c' r') with
            | EmptyString =>
                if Js.isWhiteSpaceChar c then EmptyString else String c EmptyString
            | r'' => String c r''
            end).
    by rewrite IH.
Qed.

Lemma trimStart_collapse v :
  Js.trimStart (Js.collapseWhiteSpace v) = Js.collapseWhiteSpace (Js.trimStart v).
Proof.
  unfold Js.collapseWhiteSpace. destruct v as [|c r]; [done|]. simpl.
  destruct (Js.isWhiteSpaceChar c) eqn:Hc.
  - simpl. rewrite trimStart_id by apply collapseFrom_true_starts.
    apply collapseFrom_in_run.
  - simpl. by rewrite Hc.
Qed.

(** X18: each of the three white space replacements of the normalizer
    gives a text that the same replacement leaves as it is; collapsing
    and stripping the leading white space can be done in either order;
    so the text that pass 1 stores is left as it is by a further
    collapse. *)
Theorem white_space_replacements_stable v :
  Js.collapseWhiteSpace (Js.collapseWhiteSpace v) = Js.collapseWhiteSpace v
  ∧ Js.trimStart (Js.trimStart v) = Js.trimStart v
  ∧ Js.trimEnd (Js.trimEnd v) = Js.trimEnd v
  ∧ Js.trimStart (Js.collapseWhiteSpace v) = Js.collapseWhiteSpace (Js.trimStart v)
  ∧ Js.collapseWhiteSpace (Js.trimStart (Js.collapseWhiteSpace v))
    = Js.trimStart (Js.collapseWhiteSpace v).
Proof.
  split; [apply collapseFrom_idempotent|].
  split; [apply trimStart_id, trimStart_starts|].
  split; [apply trimEnd_idempotent|].
  split; [apply trimStart_collapse|].
  rewrite trimStart_collapse. unfold Js.collapseWhiteSpace.
  apply collapseFrom_idempotent.
Qed.

End Replacements.

(** ** What one visit of the walk records *)

Section FilterNode.
Import AstNode.
Context {Callback : Type}.
Variable schema : Schema.
Variable settings : DomParserSettings.
Variable nodeFilters : list (string * list Callback).
Variable attributeFilters : list (ParserFilter (Callback:=Callback)).





End FilterNode.


(** ** Output names *)

Section OutputName.
Import AstNode.
Context {Callback : Type}.
Variable schema : Schema.
Variable settings : DomParserSettings.
Variable nodeFilters : list (string * list Callback).
Variable attributeFilters : list (ParserFilter (Callback:=Callback)).



End OutputName.


(** ** The order of the calls of a parse *)

Section TraceOrder.
Context {Callback : Type}.
Variable invoke :
  Callback → list NodeId → string → ParserArgs → Store → Store * list NodeId.
Variable schema : Schema.
Variable settings : DomParserSettings.
Variable isEmpty : Schema → (string → bool) → (string → bool) → Store → NodeId → bool.
Variable isLineBreakNode : Store → option NodeId → (string → bool) → bool.
Variable isPaddedWithNbsp : Store → NodeId → bool.
Variable paddWithBreak :
  DomParserSettings → ParserArgs → (string → bool) → Store → NodeId → bool.
Variable cleanInvalidNodes :
  list NodeId → (NodeId → Store → WalkResult → WalkResult) →
  Store → WalkResult → Store * WalkResult.
Variable purify : string → Sanitizer.

Lemma runCallbacks_events (P : Event (Callback:=Callback) → Prop)
    (event : Callback → list NodeId → Event) name args :
  (∀ cb n, P (event cb n)) →
  ∀ cbs (s : Store) nodes tr s' nodes' tr',
    runCallbacks invoke event cbs name args s nodes tr = (s', nodes', tr') →
    ∃ evs, tr' = tr ++ evs ∧ Forall P evs.
Proof.
  intros Hev. induction cbs as [|cb cbs IH]; intros s nodes tr s' nodes' tr'; simpl.
  - intros [= <- <- <-]. exists []. by rewrite app_nil_r.
  - destruct (invoke cb nodes name args s) as [s1 nodes1].
    intros H. apply IH in H as (evs & -> & Hall).
    exists (event cb nodes :: evs). rewrite <- app_assoc. split; [done|].
    constructor; [apply Hev|done].
Qed.

Lemma runNodeFilters_events (p : DomParser (Callback:=Callback)) args :
  ∀ names (s : Store) state tr s' state' tr',
    runNodeFilters invoke names p args s state tr = (s', state', tr') →
    ∃ evs, tr' = tr ++ evs ∧ Forall (λ e, is_Some (nodeCall e)) evs.
Proof.
  induction names as [|name names IH]; intros s state tr s' state' tr'; simpl.
  - intros [= <- <- <-]. exists []. by rewrite app_nil_r.
  - destruct (runCallbacks _ _ _ _ _ _ _ _) as [[s1 nodes2] tr1] eqn:Hc.
    apply (runCallbacks_events (λ e, is_Some (nodeCall e))) in Hc
      as (evs1 & -> & Hall1); [|by eexists].
    intros H. apply IH in H as (evs & -> & Hall).
    exists (evs1 ++ evs). rewrite <- app_assoc. split; [done|]. by apply Forall_app.
Qed.

Lemma runAttributeFilters_events args :
  ∀ (filters : list (ParserFilter (Callback:=Callback))) (s : Store) state tr s' state' tr',
    runAttributeFilters invoke filters args s state tr = (s', state', tr') →
    ∃ evs, tr' = tr ++ evs ∧ Forall (λ e, is_Some (attributeCall e)) evs.
Proof.
  induction filters as [|f filters IH]; intros s state tr s' state' tr'; simpl.
  - intros [= <- <- <-]. exists []. by rewrite app_nil_r.
  - destruct (lookupKey (filterName f) (matchedAttributes state)) as [nodes|];
      [|apply IH].
    destruct (runCallbacks _ _ _ _ _ _ _ _) as [[s1 nodes2] tr1] eqn:Hc.
    apply (runCallbacks_events (λ e, is_Some (attributeCall e))) in Hc
      as (evs1 & -> & Hall1); [|by eexists].
    intros H. apply IH in H as (evs & -> & Hall).
    exists (evs1 ++ evs). rewrite <- app_assoc. split; [done|]. by apply Forall_app.
Qed.

(** X21: in every parse call the repair is called at most once and
    before every filter callback, and every node filter callback is
    called before every attribute filter callback. *)
Theorem parse_calls_in_order fuel html args (p : DomParser (Callback:=Callback)) r :
  parse invoke schema settings isEmpty isLineBreakNode isPaddedWithNbsp
    paddWithBreak cleanInvalidNodes purify fuel html args p = Some r →
  ∃ repairs nodeEvents attributeEvents,
    trace r = repairs ++ nodeEvents ++ attributeEvents
    ∧ length repairs ≤ 1
    ∧ Forall (λ e, isFilterCall e = false) repairs
    ∧ Forall (λ e, is_Some (nodeCall e)) nodeEvents
    ∧ Forall (λ e, is_Some (attributeCall e)) attributeEvents.
Proof.
  intros Hp. apply parse_walked in Hp as (s & state & _ & Hf).
  unfold finishParse in Hf.
  destruct (repairInvalid _ _ _ _ _ _ _) as [[[s1 state1] args1] tr1] eqn:Hr.
  destruct (wrapRoot _ _ _ _ _ _) as [s2|]; [|done].
  destruct (runFilters _ _ _ _ _ _) as [[s3 state3] tr3] eqn:Hd.
  injection Hf as _ _ _ <-.
  assert (Hrep : length tr1 ≤ 1 ∧ Forall (λ e, isFilterCall e = false) tr1).
  { unfold repairInvalid in Hr.
    destruct (validate settings && _); [destruct (optTruthy _)|].
    - destruct (cleanInvalidNodes _ _ _ _). injection Hr as _ _ _ <-.
      split; [done|]. by repeat constructor.
    - destruct (cleanInvalidNodes _ _ _ _). injection Hr as _ _ _ <-.
      split; [done|]. by repeat constructor.
    - injection Hr as _ _ _ <-. split; [simpl; lia|constructor]. }
  destruct Hrep as [Hlen Hall].
  exists tr1. unfold runFilters in Hd. destruct (negb (invalid args1)).
  - destruct (runNodeFilters _ _ _ _ _ _ _) as [[s4 state4] tr4] eqn:Hn.
    apply runNodeFilters_events in Hn as (evs1 & -> & Hall1).
    apply runAttributeFilters_events in Hd as (evs2 & -> & Hall2).
    exists evs1, evs2. by rewrite <- app_assoc.
  - injection Hd as _ _ <-. exists [], []. by rewrite app_nil_r.
Qed.

End TraceOrder.

Lemma parse_calls_in_order_witness :
  ∃ r, Sample.parse 20 "<a class=c>x</a>" Sample.args Sample.parser = Some r
       ∧ trace r = [AttributeFilterCall "id" 0 [1]; AttributeFilterCall "class" 0 [1];
                    AttributeFilterCall "class" 2 [1]]
       ∧ ∃ repairs nodeEvents attributeEvents,
           trace r = repairs ++ nodeEvents ++ attributeEvents
           ∧ Forall (λ e, is_Some (attributeCall e)) attributeEvents.
Proof.
  eexists. split; [vm_compute; reflexivity|]. split; [reflexivity|].
  destruct (parse_calls_in_order Sample.invoke Sample.schema Sample.settings
              Sample.isEmpty Sample.isLineBreakNode Sample.isPaddedWithNbsp
              Sample.paddWithBreak Sample.cleanInvalidNodes Sample.purify
              20 "<a class=c>x</a>" Sample.args Sample.parser _
              ltac:(vm_compute; reflexivity))
    as (rep & ne & ae & Ht & _ & _ & _ & Ha).
  by exists rep, ne, ae.
Defined.

(** ** The attribute hook of the sanitizer *)

Section AttributeHook.
Variable schema : Schema.

Lemma addAllowed_has k allowed : existsb (String.eqb k) (addAllowed k allowed) = true.
Proof.
  unfold addAllowed. destruct (existsb (String.eqb k) allowed) eqn:E; [done|].
  rewrite existsb_app. simpl. by rewrite String.eqb_refl, orb_true_r.
Qed.

Lemma addAllowed_idempotent k allowed :
  addAllowed k (addAllowed k allowed) = addAllowed k allowed.
Proof. unfold addAllowed at 1. by rewrite addAllowed_has. Qed.

(** X22: the attribute hook keeps every attribute whose name starts with
    [data-], whatever the schema says of it; an attribute that is kept is
    on the allow-list afterwards, which only grows at its end; an
    attribute that is not kept leaves the allow-list and the value as
    they were; and running the hook again on what it has left changes
    nothing. *)
Theorem attribute_hook_stable tagName attr value allowed :
  let out := uponSanitizeAttribute schema tagName attr value allowed in
  (String.prefix "data-" attr = true → keepAttr out = true)
  ∧ (keepAttr out = true ↔
     String.prefix "data-" attr = true
     ∨ isValid schema (Js.toLowerCase tagName) attr = true)
  ∧ (keepAttr out = true → attr ∈ outAllowedAttributes out)
  ∧ allowed `prefix_of` outAllowedAttributes out
  ∧ (keepAttr out = false →
     outAllowedAttributes out = allowed ∧ outAttrValue out = value)
  ∧ uponSanitizeAttribute schema tagName attr (outAttrValue out)
      (outAllowedAttributes out) = out.
Proof.
  intros out. unfold out, uponSanitizeAttribute.
  destruct (String.prefix "data-" attr || isValid schema (Js.toLowerCase tagName) attr)
    eqn:Hk; simpl.
  - split; [done|]. split; [by rewrite <- orb_true_iff|].
    split.
    { intros _. pose proof (addAllowed_has attr allowed) as H.
      apply existsb_exists in H as (x & Hin & Hx).
      apply String.eqb_eq in Hx as <-. by apply list_elem_of_In. }
    split.
    { unfold addAllowed. destruct (existsb _ allowed); [done|]. by apply prefix_app_r. }
    split; [done|]. rewrite addAllowed_idempotent.
    by destruct (getBoolAttrs schema attr).
  - apply orb_false_iff in Hk as [Hp Hv]. rewrite Hp, Hv.
    split; [done|]. split; [by split; [|intros [?|?]]|].
    done.
Qed.

End AttributeHook.

(** ** The importer and the links of the tree *)

Section ImporterLinks.
Import AstNode.

(** X23: the importer keeps a well-formed tree well-formed, and leaves
    every node that was there as it was, but for the child list of the
    parent it imports under, which only grows at its end; every node it
    adds comes after the nodes that were there. *)
Theorem importer_keeps_tree parent native (s : Store) :
  parent < length s →
  wellFormed s →
  wellFormed (transferChildren parent native s)
  ∧ length s ≤ length (transferChildren parent native s)
  ∧ (∀ m, m < length s → m ≠ parent → transferChildren parent native s !! m = s !! m)
  ∧ nameOf (transferChildren parent native s) parent = nameOf s parent
  ∧ parentOf (transferChildren parent native s) parent = parentOf s parent
  ∧ childrenOf s parent `prefix_of` childrenOf (transferChildren parent native s) parent.
Proof.
  intros Hp Hwf.
  destruct (transferChildren_importsWell native parent s Hp)
    as (Hlen & Hfr & (cs & Hpar & _) & _).
  split; [by apply transferChildren_importsForest|]. split; [done|].
  split; [done|].
  unfold nameOf, parentOf, childrenOf. rewrite Hpar.
  destruct (s !! parent) as [x|]; simpl; [|done].
  split; [done|]. split; [done|]. by apply prefix_app_r.
Qed.

End ImporterLinks.

Lemma importer_keeps_tree_witness :
  let s : Store := [AstNode.mk "body" 11 "" None false None []] in
  let native := Sample.body [Sample.element "P" [] [Sample.text "x"]; Sample.text "y"] in
  wellFormed s
  ∧ wellFormed (transferChildren 0 native s)
  ∧ AstNode.childrenOf (transferChildren 0 native s) 0 = [1; 3].
Proof.
  intros s native.
  assert (Hwf : wellFormed s) by (apply wellFormedb_sound; reflexivity).
  split; [exact Hwf|].
  destruct (importer_keeps_tree 0 native s ltac:(simpl; lia) Hwf) as (H & _).
  split; [exact H|reflexivity].
Defined.
